(** * The icon cache of the Nautilus icon factory, and the locations of a
      window

    A shallow embedding of the cache in
    [libnautilus-private/nautilus-icon-factory.c]: the cache keys with their
    hash and equality, the reference-counted cache entries, the circular
    doubly-linked list of recently used entries, the hash table from keys to
    entries, and the operations on them ([get_icon_from_cache],
    [cache_icon_unref], [mark_recently_used], the sweep, the clearing and the
    removal of entries), with the sizes of the icons; and of the history of
    the locations of a window in [src/nautilus-window-manage-views.c]: the
    back and the forward list, and what a change of the location does to
    them.

    Conventions.
    - A [guint] is a [Z] in [0, 2^32); every arithmetic operation of the
      source on a [guint] is followed by [wrap32].
    - A [gboolean] is a [gint], hence a [Z]; [TRUE] is 1 and [FALSE] is 0.
    - A [char *] is an [option string]: [None] is [NULL], [Some s] is the
      string whose bytes before the terminating NUL are [s].
    - A function of the source that can abort (a failing [g_assert], the
      dereference of a null or freed pointer) returns an [option]; [None] is
      the abort. *)

From Stdlib Require Import ZArith String Ascii List Lia Bool.
From stdpp Require Import base decidable option list gmap strings.

#[local] Open Scope Z_scope.

(** ** Machine integers *)

Definition wrap32 (z : Z) : Z := z mod 2 ^ 32.

Definition TRUE : Z := 1.
Definition FALSE : Z := 0.

(** ** Constants of the source *)

Definition ICON_CACHE_COUNT : Z := 20.
Definition ICON_CACHE_SWEEP_TIMEOUT : Z := 10 * 1000.
Definition ICON_MAX_AGE : Z := 10.

(** ** Strings of the C library *)

(** [strcmp] of the C library: the sign of the first difference, bytes
    compared as [unsigned char], a proper prefix being smaller. *)
Fixpoint strcmp (a b : string) : Z :=
  match a, b with
  | EmptyString, EmptyString => 0
  | EmptyString, String _ _ => -1
  | String _ _, EmptyString => 1
  | String c a', String d b' =>
      match N.compare (N_of_ascii c) (N_of_ascii d) with
      | Eq => strcmp a' b'
      | Lt => -1
      | Gt => 1
      end
  end.

(** [eel_strcmp] of the eel library, which the source calls on the names and
    on the modifiers of two keys: [strcmp] where a [NULL] argument is read as
    the empty string. *)
Definition eel_strcmp (string_a string_b : option string) : Z :=
  strcmp (default EmptyString string_a) (default EmptyString string_b).

(** ** Cache keys *)

Record CacheKey := {
  name : string;              (* icon name or absolute filename *)
  modifier : option string;
  nominal_size : Z;           (* guint *)
  force_nominal : Z           (* gboolean *)
}.

#[global] Instance CacheKey_eq_dec : EqDecision CacheKey.
Proof. solve_decision. Defined.

(** [g_str_hash] of GLib is a parameter: any function from strings to
    [guint], GLib's algorithm being GLib's own business. *)
Definition cache_key_hash (g_str_hash : string -> Z) (key : CacheKey) : Z :=
  let hash :=
    Z.lxor (g_str_hash (name key))
           (wrap32 (wrap32 (Z.shiftl (nominal_size key) 4)
                    + wrap32 (force_nominal key))) in
  match modifier key with
  | Some m => Z.lxor hash (g_str_hash m)
  | None => hash
  end.

Definition cache_key_equal (key_a key_b : CacheKey) : bool :=
  (eel_strcmp (Some (name key_a)) (Some (name key_b)) =? 0)
  && (nominal_size key_a =? nominal_size key_b)
  && (force_nominal key_a =? force_nominal key_b)
  && (eel_strcmp (modifier key_a) (modifier key_b) =? 0).

(** ** The heap objects *)

(** The address of a [CacheIcon]. *)
Abbreviation icon_ptr := nat.

(** A [CircularList *]: the address of the dummy head inside the factory, or
    of the [recently_used_node] embedded in an entry. *)
Inductive node_ptr :=
| Head
| Node (icon : icon_ptr).

#[global] Instance node_ptr_eq_dec : EqDecision node_ptr.
Proof. solve_decision. Defined.

Record CircularList := {
  next : option node_ptr;
  prev : option node_ptr
}.

(** A [GdkPixbuf]: the image, opaque, and the reference count of the GObject.
    The object is kept with the entry that points to it; the references that
    holders outside the cache have taken show in [g_ref_count] only. *)
Record GdkPixbuf := {
  pixels : nat;
  g_ref_count : Z
}.

Record CacheIcon := {
  ref_count : Z;                          (* guint *)
  pixbuf : GdkPixbuf;
  display_name : option string;
  mtime : Z;                              (* only used for absolute filenames *)
  recently_used_node : CircularList;
  age : Z                                 (* zeroed on access, incremented each sweep *)
}.

(** The factory, with the heap of the entries it has allocated.  [icons] is
    the heap: an address is live when it is in the map.  [next_alloc] is the
    next address [g_new0] returns; addresses are not reused. *)
Record NautilusIconFactory := {
  icon_cache : list (CacheKey * icon_ptr);   (* the GHashTable *)
  recently_used_dummy_head : CircularList;
  recently_used_count : Z;                   (* guint *)
  sweep_timer : Z;                           (* guint *)
  fallback_icon : icon_ptr;
  icons : gmap nat CacheIcon;
  next_alloc : nat
}.

(** *** Field updates *)

Definition set_ref_count (v : Z) (ic : CacheIcon) : CacheIcon :=
  {| ref_count := v; pixbuf := pixbuf ic; display_name := display_name ic;
     mtime := mtime ic; recently_used_node := recently_used_node ic;
     age := age ic |}.

Definition set_pixbuf (v : GdkPixbuf) (ic : CacheIcon) : CacheIcon :=
  {| ref_count := ref_count ic; pixbuf := v; display_name := display_name ic;
     mtime := mtime ic; recently_used_node := recently_used_node ic;
     age := age ic |}.

Definition set_mtime (v : Z) (ic : CacheIcon) : CacheIcon :=
  {| ref_count := ref_count ic; pixbuf := pixbuf ic;
     display_name := display_name ic; mtime := v;
     recently_used_node := recently_used_node ic; age := age ic |}.

Definition set_recently_used_node (v : CircularList) (ic : CacheIcon) : CacheIcon :=
  {| ref_count := ref_count ic; pixbuf := pixbuf ic;
     display_name := display_name ic; mtime := mtime ic;
     recently_used_node := v; age := age ic |}.

Definition set_age (v : Z) (ic : CacheIcon) : CacheIcon :=
  {| ref_count := ref_count ic; pixbuf := pixbuf ic;
     display_name := display_name ic; mtime := mtime ic;
     recently_used_node := recently_used_node ic; age := v |}.

Definition set_icon_cache (v : list (CacheKey * icon_ptr))
    (f : NautilusIconFactory) : NautilusIconFactory :=
  {| icon_cache := v; recently_used_dummy_head := recently_used_dummy_head f;
     recently_used_count := recently_used_count f;
     sweep_timer := sweep_timer f; fallback_icon := fallback_icon f;
     icons := icons f; next_alloc := next_alloc f |}.

Definition set_dummy_head (v : CircularList)
    (f : NautilusIconFactory) : NautilusIconFactory :=
  {| icon_cache := icon_cache f; recently_used_dummy_head := v;
     recently_used_count := recently_used_count f;
     sweep_timer := sweep_timer f; fallback_icon := fallback_icon f;
     icons := icons f; next_alloc := next_alloc f |}.

Definition set_count (v : Z) (f : NautilusIconFactory) : NautilusIconFactory :=
  {| icon_cache := icon_cache f;
     recently_used_dummy_head := recently_used_dummy_head f;
     recently_used_count := v;
     sweep_timer := sweep_timer f; fallback_icon := fallback_icon f;
     icons := icons f; next_alloc := next_alloc f |}.

Definition set_sweep_timer (v : Z) (f : NautilusIconFactory) : NautilusIconFactory :=
  {| icon_cache := icon_cache f;
     recently_used_dummy_head := recently_used_dummy_head f;
     recently_used_count := recently_used_count f;
     sweep_timer := v; fallback_icon := fallback_icon f;
     icons := icons f; next_alloc := next_alloc f |}.

Definition set_icons (v : gmap nat CacheIcon)
    (f : NautilusIconFactory) : NautilusIconFactory :=
  {| icon_cache := icon_cache f;
     recently_used_dummy_head := recently_used_dummy_head f;
     recently_used_count := recently_used_count f;
     sweep_timer := sweep_timer f; fallback_icon := fallback_icon f;
     icons := v; next_alloc := next_alloc f |}.

Definition set_next_alloc (v : nat) (f : NautilusIconFactory) : NautilusIconFactory :=
  {| icon_cache := icon_cache f;
     recently_used_dummy_head := recently_used_dummy_head f;
     recently_used_count := recently_used_count f;
     sweep_timer := sweep_timer f; fallback_icon := fallback_icon f;
     icons := icons f; next_alloc := v |}.

(** [*icon = v] for a live entry. *)
Definition store_icon (icon : icon_ptr) (v : CacheIcon)
    (f : NautilusIconFactory) : NautilusIconFactory :=
  set_icons (<[icon := v]> (icons f)) f.

(** *** Reading and writing the links of the list *)

Definition load_node (p : node_ptr) (f : NautilusIconFactory) : option CircularList :=
  match p with
  | Head => Some (recently_used_dummy_head f)
  | Node i => recently_used_node <$> icons f !! i
  end.

Definition store_node (p : node_ptr) (c : CircularList)
    (f : NautilusIconFactory) : option NautilusIconFactory :=
  match p with
  | Head => Some (set_dummy_head c f)
  | Node i => ic ← icons f !! i; Some (store_icon i (set_recently_used_node c ic) f)
  end.

(** [p->next] and [p->prev] as values. *)
Definition load_next (p : node_ptr) (f : NautilusIconFactory) : option (option node_ptr) :=
  next <$> load_node p f.

Definition load_prev (p : node_ptr) (f : NautilusIconFactory) : option (option node_ptr) :=
  prev <$> load_node p f.

(** [p->next = v] and [p->prev = v]. *)
Definition store_next (p : node_ptr) (v : option node_ptr)
    (f : NautilusIconFactory) : option NautilusIconFactory :=
  c ← load_node p f; store_node p {| next := v; prev := prev c |} f.

Definition store_prev (p : node_ptr) (v : option node_ptr)
    (f : NautilusIconFactory) : option NautilusIconFactory :=
  c ← load_node p f; store_node p {| next := next c; prev := v |} f.

(** [p->next] and [p->prev] where [p] is a pointer value: the dereference of
    [NULL] aborts. *)
Definition next_of (p : option node_ptr) (f : NautilusIconFactory) : option (option node_ptr) :=
  q ← p; load_next q f.

Definition prev_of (p : option node_ptr) (f : NautilusIconFactory) : option (option node_ptr) :=
  q ← p; load_prev q f.

Definition assign_next (p v : option node_ptr)
    (f : NautilusIconFactory) : option NautilusIconFactory :=
  q ← p; store_next q v f.

Definition assign_prev (p v : option node_ptr)
    (f : NautilusIconFactory) : option NautilusIconFactory :=
  q ← p; store_prev q v f.

(** ** The world outside the cache *)

Record StatBuf := {
  S_ISREG : bool;
  st_mtime : Z
}.

Record GtkIconInfo := {
  gtk_icon_info_get_base_size : Z;
  gtk_icon_info_get_filename : option string;
  gtk_icon_info_get_display_name : option string
}.

(** What the cache consumes: [stat] ([None] when it fails), the lookup in the
    icon theme, and the two decoders under [load_icon_file], which give the
    pixels of a new pixbuf or fail. *)
Record Env := {
  stat : string -> option StatBuf;
  gtk_icon_theme_lookup_icon : string -> Z -> option GtkIconInfo;
  rsvg_pixbuf_from_file : string -> Z -> Z -> option nat;
  nautilus_thumbnail_load_image : string -> Z -> Z -> Z -> option nat
}.

(** A pixbuf as its creator returns it: one reference, the creator's. *)
Definition new_pixbuf (px : nat) : GdkPixbuf := {| pixels := px; g_ref_count := 1 |}.

Definition g_object_ref (p : GdkPixbuf) : GdkPixbuf :=
  {| pixels := pixels p; g_ref_count := wrap32 (g_ref_count p + 1) |}.

Definition g_object_unref (p : GdkPixbuf) : GdkPixbuf :=
  {| pixels := pixels p; g_ref_count := wrap32 (g_ref_count p - 1) |}.

(** ** Entries *)

Definition cache_icon_new (pixbuf : GdkPixbuf) (info : option GtkIconInfo)
    (f : NautilusIconFactory) : NautilusIconFactory * icon_ptr :=
  let icon := next_alloc f in
  let v := {| ref_count := 1;
              pixbuf := g_object_ref pixbuf;
              display_name := i ← info; gtk_icon_info_get_display_name i;
              mtime := 0;
              recently_used_node := {| next := None; prev := None |};
              age := 0 |} in
  (set_next_alloc (S icon) (store_icon icon v f), icon).

Definition cache_icon_ref (icon : icon_ptr)
    (f : NautilusIconFactory) : option NautilusIconFactory :=
  ic ← icons f !! icon;
  if decide (1 <= ref_count ic)
  then Some (store_icon icon (set_ref_count (wrap32 (ref_count ic + 1)) ic) f)
  else None.

(** [*icon = fn ( *icon )]. *)
Definition update_icon (icon : icon_ptr) (fn : CacheIcon -> CacheIcon)
    (f : NautilusIconFactory) : option NautilusIconFactory :=
  ic ← icons f !! icon; Some (store_icon icon (fn ic) f).

Definition cache_icon_unref (icon : icon_ptr)
    (factory : NautilusIconFactory) : option NautilusIconFactory :=
  ic ← icons factory !! icon;
  if decide (1 <= ref_count ic) then
    if decide (1 < ref_count ic) then
      Some (store_icon icon (set_ref_count (wrap32 (ref_count ic - 1)) ic) factory)
    else
      let f := store_icon icon (set_ref_count 0 ic) factory in
      (* If it's in the recently used list, free it from there *)
      let node := Node icon in
      node_next ← load_next node f;
      f ← (if decide (node_next <> None) then
             (* node->next->prev = node->prev; *)
             f ← (a ← load_next node f; v ← load_prev node f; assign_prev a v f);
             (* node->prev->next = node->next; *)
             f ← (a ← load_prev node f; v ← load_next node f; assign_next a v f);
             f ← store_next node None f;
             f ← store_prev node None f;
             Some (set_count (wrap32 (recently_used_count f - 1)) f)
           else Some f);
      (* g_object_unref (icon->pixbuf); g_free (icon); *)
      Some (set_icons (delete icon (icons f)) f)
  else None.

(** The age is an [int]; its increment is written without the overflow, which
    is undefined in C. *)
Definition nautilus_icon_factory_possibly_free_cached_icon
    (key : CacheKey) (value : icon_ptr)
    (f : NautilusIconFactory) : option (NautilusIconFactory * bool) :=
  icon ← icons f !! value;
  (* Don't free a cache entry that is in the recently used list. *)
  if decide (next (recently_used_node icon) <> None) then Some (f, false)
  (* Don't free a cache entry if the pixbuf is still in use. *)
  else if decide (g_ref_count (pixbuf icon) > 1) then Some (f, false)
  else
    let f := store_icon value (set_age (age icon + 1) icon) f in
    if decide (age icon + 1 > ICON_MAX_AGE) then Some (f, true)
    else (* Free the item. *) Some (f, true).

(** ** The hash table

    A [GHashTable] built with [cache_key_hash], [cache_key_equal],
    [cache_key_destroy] and [cache_icon_unref]: a list of nodes, searched
    with [cache_key_equal]. *)

Fixpoint g_hash_table_lookup (table : list (CacheKey * icon_ptr))
    (lookup_key : CacheKey) : option icon_ptr :=
  match table with
  | [] => None
  | (key, value) :: rest =>
      if cache_key_equal key lookup_key then Some value
      else g_hash_table_lookup rest lookup_key
  end.

(** The node of [lookup_key] gets [value]; its key stays the old one. *)
Fixpoint replace_value (table : list (CacheKey * icon_ptr))
    (lookup_key : CacheKey) (value : icon_ptr) : list (CacheKey * icon_ptr) :=
  match table with
  | [] => []
  | (key, old) :: rest =>
      if cache_key_equal key lookup_key then (key, value) :: rest
      else (key, old) :: replace_value rest lookup_key value
  end.

(** The table without the node of [lookup_key]. *)
Fixpoint unlink_node (table : list (CacheKey * icon_ptr))
    (lookup_key : CacheKey) : list (CacheKey * icon_ptr) :=
  match table with
  | [] => []
  | (key, value) :: rest =>
      if cache_key_equal key lookup_key then rest
      else (key, value) :: unlink_node rest lookup_key
  end.

(** When the key is there already, the old value is destroyed (and the key
    passed in, which has no effect on the state) and the node gets the new
    value; otherwise a node is added. *)
Definition g_hash_table_insert (key : CacheKey) (value : icon_ptr)
    (f : NautilusIconFactory) : option NautilusIconFactory :=
  match g_hash_table_lookup (icon_cache f) key with
  | Some old =>
      f ← cache_icon_unref old f;
      Some (set_icon_cache (replace_value (icon_cache f) key value) f)
  | None => Some (set_icon_cache ((key, value) :: icon_cache f) f)
  end.

Definition g_hash_table_remove (lookup_key : CacheKey)
    (f : NautilusIconFactory) : option (NautilusIconFactory * bool) :=
  match g_hash_table_lookup (icon_cache f) lookup_key with
  | Some value =>
      f ← cache_icon_unref value
            (set_icon_cache (unlink_node (icon_cache f) lookup_key) f);
      Some (f, true)
  | None => Some (f, false)
  end.

(** The nodes are visited in turn; a node for which [func] answers [true] is
    unlinked and its value destroyed before the next node is visited.
    [kept] are the nodes visited and kept, [todo] the nodes to visit. *)
Fixpoint foreach_remove_nodes
    (func : CacheKey -> icon_ptr -> NautilusIconFactory -> option (NautilusIconFactory * bool))
    (kept todo : list (CacheKey * icon_ptr))
    (f : NautilusIconFactory) : option NautilusIconFactory :=
  match todo with
  | [] => Some f
  | (key, value) :: rest =>
      '(f, remove) ← func key value f;
      if remove : bool then
        f ← cache_icon_unref value (set_icon_cache (kept ++ rest) f);
        foreach_remove_nodes func kept rest f
      else foreach_remove_nodes func (kept ++ [(key, value)]) rest f
  end.

Definition g_hash_table_foreach_remove
    (func : CacheKey -> icon_ptr -> NautilusIconFactory -> option (NautilusIconFactory * bool))
    (f : NautilusIconFactory) : option NautilusIconFactory :=
  foreach_remove_nodes func [] (icon_cache f) f.

(** ** Sweeping *)

Definition nautilus_icon_factory_sweep
    (factory : NautilusIconFactory) : option NautilusIconFactory :=
  f ← g_hash_table_foreach_remove
        nautilus_icon_factory_possibly_free_cached_icon factory;
  Some (set_sweep_timer 0 f).

(** [g_timeout_add] gives the id of the new event source, which is not 0. *)
Definition g_timeout_add : Z := 1.

Definition nautilus_icon_factory_schedule_sweep
    (factory : NautilusIconFactory) : NautilusIconFactory :=
  if decide (sweep_timer factory <> 0) then factory
  else set_sweep_timer g_timeout_add factory.

(** ** The list of recently used entries *)

Definition mark_recently_used (node : node_ptr)
    (factory : NautilusIconFactory) : option NautilusIconFactory :=
  let head := Head in
  node_prev ← load_prev node factory;
  (* Move the node to the start of the list. *)
  if decide (node_prev <> Some head) then
    node_next ← load_next node factory;
    f ← (if decide (node_next <> None) then
           (* Remove the node from its current position in the list. *)
           (* node->next->prev = node->prev; *)
           f ← (a ← load_next node factory; v ← load_prev node factory;
                assign_prev a v factory);
           (* node->prev->next = node->next; *)
           (a ← load_prev node f; v ← load_next node f; assign_next a v f)
         else
           (* Node was not already in the list, so add it.
              If the list is already full, remove the last node. *)
           if decide (recently_used_count factory < ICON_CACHE_COUNT) then
             Some (set_count (wrap32 (recently_used_count factory + 1)) factory)
           else
             (* Remove the last node. *)
             last_node ← load_prev head factory;
             (* head->prev = last_node->prev; *)
             f ← (v ← prev_of last_node factory; store_prev head v factory);
             (* last_node->prev->next = head; *)
             f ← (a ← prev_of last_node f; assign_next a (Some head) f);
             f ← assign_prev last_node None f;
             assign_next last_node None f);
    (* Insert the node at the head of the list. *)
    f ← store_prev node (Some head) f;
    f ← (v ← load_next head f; store_next node v f);
    (* node->next->prev = node; *)
    f ← (a ← load_next node f; assign_prev a (Some node) f);
    store_next head (Some node) f
  else Some factory.

(** ** Clearing *)

(** [s[0] == '/']. *)
Definition first_char_is_slash (s : string) : bool :=
  match s with
  | String c _ => Ascii.eqb c "/"%char
  | EmptyString => false
  end.

Definition remove_all (key : CacheKey) (value : icon_ptr)
    (f : NautilusIconFactory) : option (NautilusIconFactory * bool) :=
  (* Tell the caller to remove the hash table entry. *)
  Some (f, true).

Definition remove_non_pathnames (key : CacheKey) (value : icon_ptr)
    (f : NautilusIconFactory) : option (NautilusIconFactory * bool) :=
  if first_char_is_slash (name key) then Some (f, false)
  else Some (f, true).

(** The assertions at the end are those of the source. *)
Definition nautilus_icon_factory_clear (clear_pathnames : Z)
    (factory : NautilusIconFactory) : option NautilusIconFactory :=
  f ← g_hash_table_foreach_remove
        (if decide (clear_pathnames <> 0) then remove_all else remove_non_pathnames)
        factory;
  let head := Head in
  if decide (clear_pathnames <> 0) then
    (* fallback_icon hangs around, but we don't know if it
       was ever inserted in the list *)
    if decide (recently_used_count f = 0 \/ recently_used_count f = 1) then
      if decide (recently_used_count f = 1) then
        (* make sure this one is the fallback_icon *)
        head_next ← load_next head f;
        head_prev ← load_prev head f;
        if decide (head_next = head_prev) then
          if decide (Some (Node (fallback_icon f)) = head_next) then Some f
          else None
        else None
      else Some f
    else None
  else Some f.

(** ** Making an entry *)

Definition g_str_has_suffix (str suffix : string) : bool :=
  let str_len := String.length str in
  let suffix_len := String.length suffix in
  if (str_len <? suffix_len)%nat then false
  else String.eqb (substring (str_len - suffix_len) suffix_len str) suffix.

Definition path_represents_svg_image (path : option string) : bool :=
  match path with
  | Some path => g_str_has_suffix path ".svg" || g_str_has_suffix path ".svgz"
  | None => false
  end.

(** The frame that [load_icon_file] may put around the image changes the
    pixels only and is left out, with the scale factors. *)
Definition load_icon_file (env : Env) (filename : string)
    (base_size nominal_size force_nominal : Z) : option GdkPixbuf :=
  new_pixbuf <$>
    (if path_represents_svg_image (Some filename) then
       rsvg_pixbuf_from_file env filename nominal_size
         (if decide (force_nominal <> 0) then 0 else base_size)
     else
       nautilus_thumbnail_load_image env filename base_size nominal_size
         force_nominal).

Definition create_normal_cache_icon (env : Env) (icon : string)
    (modifier : option string) (nominal_size force_nominal : Z)
    (factory : NautilusIconFactory) : option (NautilusIconFactory * option icon_ptr) :=
  (* [None]: the function has returned NULL *)
  let found : option (option GtkIconInfo * option string * Z * Z) :=
    if first_char_is_slash icon then
      match stat env icon with
      | Some statbuf =>
          if S_ISREG statbuf then Some (None, Some icon, 0, st_mtime statbuf)
          else Some (None, None, 0, 0)
      | None => Some (None, None, 0, 0)
      end
    else
      let name_with_modifier :=
        match modifier with
        | Some m => String.append icon (String.append "-" m)
        | None => icon
        end in
      match gtk_icon_theme_lookup_icon env name_with_modifier nominal_size with
      | None => None
      | Some info =>
          Some (Some info, gtk_icon_info_get_filename info,
                gtk_icon_info_get_base_size info, 0)
      end in
  match found with
  | None => Some (factory, None)
  | Some (info, None, _, _) =>
      (* If e.g. the absolute filename doesn't exist *)
      Some (factory, None)
  | Some (info, Some filename, base_size, mtime) =>
      match load_icon_file env filename base_size nominal_size force_nominal with
      | None => Some (factory, None)
      | Some loaded =>
          let '(f, cache_icon) := cache_icon_new loaded info factory in
          f ← update_icon cache_icon (set_mtime mtime) f;
          f ← update_icon cache_icon
                (fun ic => set_pixbuf (g_object_unref (pixbuf ic)) ic) f;
          Some (f, Some cache_icon)
      end
  end.

(** ** Looking an entry up *)

Definition lookup_icon_from_cache (icon : string) (modifier : option string)
    (nominal_size force_nominal : Z)
    (factory : NautilusIconFactory) : option icon_ptr :=
  let lookup_key :=
    {| name := icon; modifier := modifier;
       nominal_size := nominal_size; force_nominal := force_nominal |} in
  g_hash_table_lookup (icon_cache factory) lookup_key.

(** [None] as second component: the function has returned NULL. *)
Definition get_icon_from_cache (env : Env) (icon modifier : option string)
    (nominal_size force_nominal : Z)
    (factory : NautilusIconFactory) : option (NautilusIconFactory * option icon_ptr) :=
  match icon with
  | None => (* g_return_val_if_fail (icon != NULL, NULL); *) Some (factory, None)
  | Some icon =>
      (* Check to see if it's already in the table. *)
      let cached_icon :=
        lookup_icon_from_cache icon modifier nominal_size force_nominal factory in
      (* Make sure that thumbnails and image-as-itself icons gets
         reloaded when they change: *)
      cached_icon ←
        match cached_icon with
        | Some c =>
            if first_char_is_slash icon then
              match stat env icon with
              | None => Some None
              | Some statbuf =>
                  if negb (S_ISREG statbuf) then Some None
                  else
                    ic ← icons factory !! c;
                    if decide (st_mtime statbuf <> mtime ic) then Some None
                    else Some (Some c)
              end
            else Some (Some c)
        | None => Some None
        end;
      '(f, cached_icon) ←
        match cached_icon with
        | Some c => Some (factory, c)
        | None =>
            (* Not in the table, so load the image. *)
            '(f, cached_icon) ←
              create_normal_cache_icon env icon modifier nominal_size
                force_nominal factory;
            (* Try to fallback without modifier *)
            '(f, cached_icon) ←
              (if decide (cached_icon = None /\ modifier <> None) then
                 create_normal_cache_icon env icon None nominal_size
                   force_nominal f
               else Some (f, cached_icon));
            '(f, cached_icon) ←
              match cached_icon with
              | None =>
                  f ← cache_icon_ref (fallback_icon f) f;
                  Some (f, fallback_icon f)
              | Some c => Some (f, c)
              end;
            (* Create the key and icon for the hash table. *)
            let key :=
              {| name := icon; modifier := modifier;
                 nominal_size := nominal_size; force_nominal := force_nominal |} in
            f ← g_hash_table_insert key cached_icon f;
            Some (f, cached_icon)
        end;
      (* Hand back a ref to the caller. *)
      f ← cache_icon_ref cached_icon f;
      (* Since this item was used, keep it in the cache longer. *)
      f ← mark_recently_used (Node cached_icon) f;
      f ← update_icon cached_icon (set_age 0) f;
      (* Come back later and sweep the cache. *)
      let f := nautilus_icon_factory_schedule_sweep f in
      Some (f, Some cached_icon)
  end.

(** The out-parameters for the attach points, the embedded text and the
    display name are left out; [None] as second component is NULL. *)
Definition nautilus_icon_factory_get_pixbuf_for_icon (env : Env)
    (icon modifier : option string) (nominal_size force_size wants_default : Z)
    (factory : NautilusIconFactory) : option (NautilusIconFactory * option GdkPixbuf) :=
  '(f, cached_icon) ←
    get_icon_from_cache env icon modifier nominal_size force_size factory;
  (* the entry is dereferenced below: NULL aborts *)
  cached_icon ← cached_icon;
  (* if we don't want a default icon and one is returned, return NULL instead *)
  if decide (wants_default = 0 /\ cached_icon = fallback_icon f) then
    f ← cache_icon_unref cached_icon f;
    Some (f, None)
  else
    ic ← icons f !! cached_icon;
    let f := store_icon cached_icon (set_pixbuf (g_object_ref (pixbuf ic)) ic) f in
    f ← cache_icon_unref cached_icon f;
    Some (f, Some (g_object_ref (pixbuf ic))).

(** ** Removing one entry *)

(** [lookup_key] is a local variable of which the source sets three fields:
    [force_nominal] keeps what the stack held, here [stack_value].  A NULL
    name aborts in [cache_key_hash]. *)
Definition nautilus_icon_factory_remove_from_cache (stack_value : Z)
    (icon_name modifier : option string) (size : Z)
    (factory : NautilusIconFactory) : option (NautilusIconFactory * bool) :=
  icon_name ← icon_name;
  let lookup_key :=
    {| name := icon_name; modifier := modifier;
       nominal_size := size; force_nominal := stack_value |} in
  g_hash_table_remove lookup_key factory.

(** ** The new factory *)

(** The state after [nautilus_icon_factory_instance_init]: an empty table, an
    empty list, the fallback entry made of the default icon. *)
Definition nautilus_default_file_icon : nat := 0%nat.

Definition nautilus_icon_factory_instance_init : option NautilusIconFactory :=
  let factory :=
    {| icon_cache := [];
       recently_used_dummy_head := {| next := Some Head; prev := Some Head |};
       recently_used_count := 0;
       sweep_timer := 0;
       fallback_icon := 0%nat;
       icons := ∅;
       next_alloc := 0%nat |} in
  let loaded := new_pixbuf nautilus_default_file_icon in
  let '(f, icon) := cache_icon_new loaded None factory in
  f ← update_icon icon (fun ic => set_pixbuf (g_object_unref (pixbuf ic)) ic) f;
  Some {| icon_cache := icon_cache f;
          recently_used_dummy_head := recently_used_dummy_head f;
          recently_used_count := recently_used_count f;
          sweep_timer := sweep_timer f;
          fallback_icon := icon;
          icons := icons f;
          next_alloc := next_alloc f |}.

(** ** The list that the links draw *)

(** The entries of the list, from the most to the least recently used. *)
Definition hd_ptr (l : list icon_ptr) : node_ptr :=
  match l with
  | [] => Head
  | i :: _ => Node i
  end.

(** The node after the node of [i] in the circle [Head, l]. *)
Fixpoint nxt_in (l : list icon_ptr) (i : icon_ptr) : option node_ptr :=
  match l with
  | [] => None
  | j :: t => if decide (j = i) then Some (hd_ptr t) else nxt_in t i
  end.

(** The [next] and the [prev] link of every node, for the list [l]: those of
    a node outside the list are null. *)
Definition nxt_of (l : list icon_ptr) (p : node_ptr) : option node_ptr :=
  match p with
  | Head => Some (hd_ptr l)
  | Node i => nxt_in l i
  end.

Definition prv_of (l : list icon_ptr) (p : node_ptr) : option node_ptr :=
  nxt_of (reverse l) p.

(** The list without [x]. *)
Definition del (x : icon_ptr) (l : list icon_ptr) : list icon_ptr :=
  filter (fun y => y <> x) l.

(** The list after [x] was used. *)
Definition promote (x : icon_ptr) (l : list icon_ptr) : list icon_ptr :=
  if decide (hd_ptr l = Node x) then l
  else if decide (x ∈ l) then x :: del x l
  else if decide (Z.of_nat (length l) < ICON_CACHE_COUNT) then x :: l
  else match last l with
       | Some y => x :: del y l
       | None => x :: l
       end.

(** The links of the factory draw the list [l]: a circle through the dummy
    head, as long as the counter says, of live entries, and null links in
    every entry outside it. *)
Record ring (f : NautilusIconFactory) (l : list icon_ptr) : Prop := {
  ring_nodup : NoDup l;
  ring_count : recently_used_count f = Z.of_nat (length l);
  ring_bound : Z.of_nat (length l) <= ICON_CACHE_COUNT;
  ring_live : forall i, i ∈ l -> is_Some (icons f !! i);
  ring_links : forall p c, load_node p f = Some c ->
                 c = {| next := nxt_of l p; prev := prv_of l p |}
}.

(** ** The accounting of the references *)

(** The nodes of the table whose value is [i]. *)
Fixpoint count_refs (table : list (CacheKey * icon_ptr)) (i : icon_ptr) : Z :=
  match table with
  | [] => 0
  | (_, v) :: rest => (if decide (v = i) then 1 else 0) + count_refs rest i
  end.

(** Is [i] the fallback entry, to which the factory holds a reference of
    its own? *)
Definition fallback_ref (f : NautilusIconFactory) (i : icon_ptr) : Z :=
  if decide (i = fallback_icon f) then 1 else 0.

(** The reference count of a live entry. *)
Definition rc_of (f : NautilusIconFactory) (i : icon_ptr) : option Z :=
  ref_count <$> icons f !! i.

(** Every live entry counts one reference per node of [table] that has it as
    value, one more if it is the fallback entry, and [ext i] references held
    by callers; a freed entry is referenced by nobody. *)
Definition accounted_for (table : list (CacheKey * icon_ptr))
    (ext : icon_ptr -> Z) (f : NautilusIconFactory) : Prop :=
  forall i,
    match rc_of f i with
    | Some rc =>
        1 <= rc < 2 ^ 32 /\ rc = count_refs table i + fallback_ref f i + ext i
    | None => count_refs table i + fallback_ref f i = 0 /\ ext i = 0
    end.

Definition accounted (ext : icon_ptr -> Z) (f : NautilusIconFactory) : Prop :=
  accounted_for (icon_cache f) ext f.

(** One more, or one less, reference of a caller to [i]. *)
Definition ext_add (i : icon_ptr) (d : Z) (ext : icon_ptr -> Z) : icon_ptr -> Z :=
  fun j => if decide (j = i) then ext j + d else ext j.

Definition no_ext : icon_ptr -> Z := fun _ => 0.

(** No two nodes of the table have keys that compare equal. *)
Fixpoint keys_distinct (table : list (CacheKey * icon_ptr)) : Prop :=
  match table with
  | [] => True
  | (key, _) :: rest => g_hash_table_lookup rest key = None /\ keys_distinct rest
  end.

(** The fields that decide the equality of two keys: a null modifier counts
    as the empty one. *)
Definition key_fields (key : CacheKey) : string * string * Z * Z :=
  (name key, default EmptyString (modifier key), nominal_size key,
   force_nominal key).

(** The invariant of the factory, given the references the callers hold. *)
Record inv (ext : icon_ptr -> Z) (f : NautilusIconFactory) : Prop := {
  inv_ring : exists l, ring f l;
  inv_accounted : accounted ext f;
  inv_ext : forall i, 0 <= ext i;
  (* the addresses in use are below the next one to allocate *)
  inv_alloc : forall i, is_Some (icons f !! i) -> (i < next_alloc f)%nat;
  (* an entry other than the fallback is the value of one node at most *)
  inv_uniq : forall i, i <> fallback_icon f -> count_refs (icon_cache f) i <= 1;
  inv_keys : keys_distinct (icon_cache f)
}.

(** No reference count is within [n] of the largest [guint]. *)
Definition room (n : Z) (f : NautilusIconFactory) : Prop :=
  forall i rc, rc_of f i = Some rc -> rc + n < 2 ^ 32.

(** The state without the links and the counter of the list. *)
Definition strip (ic : CacheIcon) : CacheIcon :=
  set_recently_used_node {| next := None; prev := None |} ic.

Record same_data (f f' : NautilusIconFactory) : Prop := {
  same_icon_cache : icon_cache f' = icon_cache f;
  same_sweep_timer : sweep_timer f' = sweep_timer f;
  same_fallback_icon : fallback_icon f' = fallback_icon f;
  same_next_alloc : next_alloc f' = next_alloc f;
  same_icons : strip <$> icons f' = strip <$> icons f
}.

(** The links as two functions on the nodes. *)
Definition links_are (f : NautilusIconFactory)
    (N P : node_ptr -> option node_ptr) : Prop :=
  forall p c, load_node p f = Some c -> c = {| next := N p; prev := P p |}.

Definition upd (N : node_ptr -> option node_ptr) (q : node_ptr)
    (v : option node_ptr) : node_ptr -> option node_ptr :=
  fun p => if decide (p = q) then v else N p.

(** The circle unrolled, and the pairs of neighbours in it. *)
Definition cyc (l : list icon_ptr) : list node_ptr :=
  Head :: (Node <$> l) ++ [Head].

Definition adj (l : list icon_ptr) (p q : node_ptr) : Prop :=
  exists u v, cyc l = u ++ p :: q :: v.

(** The entry [i] was freed, the other entries keep their data. *)
Record freed (i : icon_ptr) (f f' : NautilusIconFactory) : Prop := {
  freed_icon_cache : icon_cache f' = icon_cache f;
  freed_sweep_timer : sweep_timer f' = sweep_timer f;
  freed_fallback_icon : fallback_icon f' = fallback_icon f;
  freed_next_alloc : next_alloc f' = next_alloc f;
  freed_icons : strip <$> icons f' = delete i (strip <$> icons f)
}.

(** Nothing but the entry [i] was touched, but for the links and the counter
    of the list. *)
Record touched (i : icon_ptr) (f f' : NautilusIconFactory) : Prop := {
  touched_icon_cache : icon_cache f' = icon_cache f;
  touched_sweep_timer : sweep_timer f' = sweep_timer f;
  touched_fallback_icon : fallback_icon f' = fallback_icon f;
  touched_next_alloc : next_alloc f' = next_alloc f;
  touched_others : forall j, j <> i ->
    strip <$> icons f' !! j = strip <$> icons f !! j
}.

(** The list after the reference to [i] was dropped: an entry that had one
    reference left is freed, and leaves the list. *)
Definition after_unref (f : NautilusIconFactory) (i : icon_ptr)
    (l : list icon_ptr) : list icon_ptr :=
  if decide (rc_of f i = Some 1) then del i l else l.

(** What the sweep asks of an entry before it removes its node: to be
    outside the list, and that nobody but the cache holds its pixbuf. *)
Definition evictable (f : NautilusIconFactory) (v : icon_ptr) : bool :=
  match icons f !! v with
  | Some icon =>
      bool_decide (next (recently_used_node icon) = None)
      && bool_decide (g_ref_count (pixbuf icon) <= 1)
  | None => false
  end.

(** Every live entry of [f] is an entry of [f0], with the image, the name
    and the modification time it had there. *)
Definition descends (f0 f : NautilusIconFactory) : Prop :=
  forall j ic, icons f !! j = Some ic ->
    exists ic0, icons f0 !! j = Some ic0 /\ pixbuf ic = pixbuf ic0 /\
      mtime ic = mtime ic0 /\ display_name ic = display_name ic0.

(** The invariant of the sweep: the list stays [l0], the entries descend
    from those of [f0]. *)
Definition sweeping (f0 : NautilusIconFactory) (l0 l : list icon_ptr)
    (f : NautilusIconFactory) : Prop :=
  l = l0 /\ ring f0 l0 /\ descends f0 f.

(** ** What a call of [get_icon_from_cache] finds and makes *)

(** The entry that [create_normal_cache_icon] makes, [None] when it returns
    NULL: for an absolute filename the file must be a regular one and is
    loaded as it is, whatever the modifier; a name is looked up in the theme,
    with the modifier appended after a dash. *)
Definition synthesized (env : Env) (icon : string) (modifier : option string)
    (nominal_size force_nominal : Z) : option CacheIcon :=
  '(info, filename, base_size, t) ←
    (if first_char_is_slash icon then
       statbuf ← stat env icon;
       if S_ISREG statbuf then Some (None, icon, 0, st_mtime statbuf) else None
     else
       info ← gtk_icon_theme_lookup_icon env
                (match modifier with
                 | Some m => String.append icon (String.append "-" m)
                 | None => icon
                 end) nominal_size;
       filename ← gtk_icon_info_get_filename info;
       Some (Some info, filename, gtk_icon_info_get_base_size info, 0));
  loaded ← load_icon_file env filename base_size nominal_size force_nominal;
  Some {| ref_count := 1;
          pixbuf := {| pixels := pixels loaded; g_ref_count := 1 |};
          display_name := i ← info; gtk_icon_info_get_display_name i;
          mtime := t;
          recently_used_node := {| next := None; prev := None |};
          age := 0 |}.

(** The factory with one more entry, at the next address. *)
Definition with_new_entry (ic : CacheIcon)
    (f : NautilusIconFactory) : NautilusIconFactory :=
  set_next_alloc (S (next_alloc f)) (store_icon (next_alloc f) ic f).

(** The entry made on a miss: with the modifier, or else without it. *)
Definition chosen (env : Env) (icon : string) (modifier : option string)
    (nominal_size force_nominal : Z) : option CacheIcon :=
  match synthesized env icon modifier nominal_size force_nominal with
  | Some ic => Some ic
  | None =>
      match modifier with
      | Some _ => synthesized env icon None nominal_size force_nominal
      | None => None
      end
  end.

(** The file behind the entry [ic] for the absolute filename [icon] has gone,
    is not a regular file any more, or has another modification time. *)
Definition stale (env : Env) (icon : string) (ic : CacheIcon) : Prop :=
  match stat env icon with
  | None => True
  | Some statbuf => S_ISREG statbuf = false \/ st_mtime statbuf <> mtime ic
  end.

#[global] Instance stale_dec env icon ic : Decision (stale env icon ic).
Proof. unfold stale. destruct (stat env icon); apply _. Defined.

(** The entry that a call finds in the table and can use as it is. *)
Definition cache_hit (env : Env) (icon : string) (modifier : option string)
    (nominal_size force_nominal : Z)
    (f : NautilusIconFactory) : option icon_ptr :=
  c ← lookup_icon_from_cache icon modifier nominal_size force_nominal f;
  ic ← icons f !! c;
  if first_char_is_slash icon then
    if decide (stale env icon ic) then None else Some c
  else Some c.

(** ** Sequences of calls, and worlds to run them in *)

(** One call of [get_icon_from_cache], with the world at that time. *)
Record request := {
  req_env : Env;
  req_icon : string;
  req_modifier : option string;
  req_size : Z;
  req_force : Z
}.

Definition req_key (r : request) : CacheKey :=
  {| name := req_icon r; modifier := req_modifier r;
     nominal_size := req_size r; force_nominal := req_force r |}.

(** The calls one after the other; the entries they return, the last one
    first, in front of [returned]. *)
Fixpoint gets (reqs : list request) (f : NautilusIconFactory)
    (returned : list icon_ptr) : option (NautilusIconFactory * list icon_ptr) :=
  match reqs with
  | [] => Some (f, returned)
  | r :: rest =>
      '(f, c) ← get_icon_from_cache (req_env r) (Some (req_icon r))
                  (req_modifier r) (req_size r) (req_force r) f;
      c ← c;
      gets rest f (c :: returned)
  end.

(** The same, where the caller drops its reference after each call, as
    [nautilus_icon_factory_get_pixbuf_for_icon] does. *)
Fixpoint gets_released (reqs : list request)
    (f : NautilusIconFactory) : option NautilusIconFactory :=
  match reqs with
  | [] => Some f
  | r :: rest =>
      '(f, c) ← get_icon_from_cache (req_env r) (Some (req_icon r))
                  (req_modifier r) (req_size r) (req_force r) f;
      c ← c;
      f ← cache_icon_unref c f;
      gets_released rest f
  end.

(** A world with no file and an empty theme. *)
Definition bare_env : Env :=
  {| stat := fun _ => None;
     gtk_icon_theme_lookup_icon := fun _ _ => None;
     rsvg_pixbuf_from_file := fun _ _ _ => None;
     nautilus_thumbnail_load_image := fun _ _ _ _ => None |}.

(** A world whose theme has every name, as a file that loads. *)
Definition theme_env : Env :=
  {| stat := fun _ => None;
     gtk_icon_theme_lookup_icon := fun icon_name _ =>
       Some {| gtk_icon_info_get_base_size := 48;
               gtk_icon_info_get_filename :=
                 Some (String.append "/usr/share/icons/" icon_name);
               gtk_icon_info_get_display_name := None |};
     rsvg_pixbuf_from_file := fun _ _ _ => None;
     nautilus_thumbnail_load_image := fun filename _ _ _ =>
       Some (String.length filename) |}.

(** A world where every absolute filename is a regular file modified at
    [t], which loads or not. *)
Definition file_env (t : Z) (loads : bool) : Env :=
  {| stat := fun _ => Some {| S_ISREG := true; st_mtime := t |};
     gtk_icon_theme_lookup_icon := fun _ _ => None;
     rsvg_pixbuf_from_file := fun _ _ _ => None;
     nautilus_thumbnail_load_image := fun _ _ _ _ =>
       if loads then Some 7%nat else None |}.

(** Requests for the names [icon-A], [icon-B], ..., at size 48. *)
Definition numbered_request (env : Env) (n : nat) : request :=
  {| req_env := env;
     req_icon := String.append "icon-" (String (ascii_of_nat (65 + n)) EmptyString);
     req_modifier := None; req_size := 48; req_force := FALSE |}.

Definition numbered_requests (env : Env) (n : nat) : list request :=
  numbered_request env <$> seq 0 n.

(** An image file and an icon of the theme, one after the other. *)
Definition mixed_requests : list request :=
  [ {| req_env := file_env 3 true; req_icon := "/home/a.png";
       req_modifier := None; req_size := 48; req_force := FALSE |};
    numbered_request theme_env 0 ].

(** No two keys of the list compare equal. *)
Fixpoint distinct_keys (keys : list CacheKey) : Prop :=
  match keys with
  | [] => True
  | key :: rest =>
      Forall (fun k => cache_key_equal key k = false) rest /\ distinct_keys rest
  end.

#[global] Instance distinct_keys_dec keys : Decision (distinct_keys keys).
Proof. induction keys as [|key rest IH]; simpl; apply _. Defined.

(** The entries [returned] by a sequence of calls, the last one first, for
    the [keys] of these calls: they differ from each other and from the
    fallback entry, the table maps each key to its entry, and the list
    starts with the twenty returned last. *)
Record tracked (f : NautilusIconFactory) (returned : list icon_ptr)
    (keys : list CacheKey) : Prop := {
  tracked_nodup : NoDup returned;
  tracked_fallback : fallback_icon f ∉ returned;
  tracked_table :
    Forall2 (fun k c => g_hash_table_lookup (icon_cache f) k = Some c)
      keys returned;
  tracked_list : exists l rest, ring f l /\ l = take 20 returned ++ rest
}.

(** * More of [nautilus-icon-factory.c] *)

(** ** The self-check of the list *)

(** The loop of [check_recently_used_list], which the source compiles under
    [CACHE_SELF_CHECKS]: from [node] on around the circle, [count] nodes
    seen so far.  [None] is a failed assertion, or the fuel run out. *)
Fixpoint check_from (fuel : nat) (node : node_ptr) (count : Z)
    (factory : NautilusIconFactory) : option Z :=
  match fuel with
  | O => None
  | S fuel =>
      next ← load_next node factory;
      (* g_assert (next != NULL); *)
      next ← next;
      (* g_assert (next->prev == node); *)
      next_prev ← load_prev next factory;
      if decide (next_prev = Some node) then
        if decide (next = Head) then Some count
        else check_from fuel next (wrap32 (count + 1)) factory
      else None
  end.

Definition check_recently_used_list (fuel : nat)
    (factory : NautilusIconFactory) : option unit :=
  count ← check_from fuel Head 0 factory;
  (* g_assert (count == factory->recently_used_count); *)
  if decide (count = recently_used_count factory) then Some tt else None.

(** ** A thumbnail that was loaded in the background *)

(** [async_thumbnail_load_func].  Whether an image has alpha is read from
    its pixels, [gdk_pixbuf_get_has_alpha], and the frame that
    [nautilus_thumbnail_frame_image] puts around an image is a function of
    its pixels too.  An image without alpha gets a frame: the function takes
    a reference to the pixbuf it was passed, [loaded], which
    [nautilus_thumbnail_frame_image] drops again, and the variable [pixbuf]
    of the source, here [thumbnail], then is the framed image, a new pixbuf
    that the function owns.  The second test of the alpha, after the entry
    was made, reads that variable again, which by then is the framed image
    where there is one: the reference of the function is dropped when that
    image has no alpha, and is kept for good when it has.  The file that is
    told of the change and the list of handles are left out. *)
Definition async_thumbnail_load_func (env : Env)
    (gdk_pixbuf_get_has_alpha : nat -> bool)
    (nautilus_thumbnail_frame_image : nat -> nat)
    (path : string) (loaded : GdkPixbuf)
    (modifier : option string) (nominal_size force_nominal : Z)
    (factory : NautilusIconFactory) : option NautilusIconFactory :=
  match stat env path with
  | None => Some factory
  | Some statbuf =>
      if negb (S_ISREG statbuf) then Some factory
      else
        let thumbnail :=
          if negb (gdk_pixbuf_get_has_alpha (pixels loaded))
          then new_pixbuf (nautilus_thumbnail_frame_image (pixels loaded))
          else loaded in
        let '(f, cached_icon) := cache_icon_new thumbnail None factory in
        f ← update_icon cached_icon (set_mtime (st_mtime statbuf)) f;
        f ← (if negb (gdk_pixbuf_get_has_alpha (pixels thumbnail))
             then update_icon cached_icon
                    (fun ic => set_pixbuf (g_object_unref (pixbuf ic)) ic) f
             else Some f);
        let key :=
          {| name := path; modifier := modifier;
             nominal_size := nominal_size; force_nominal := force_nominal |} in
        g_hash_table_insert key cached_icon f
  end.

(** ** Icon sizes *)

(** The sizes of [nautilus-icon-factory.h], as the self-check at the end of
    the source spells them out. *)
Definition NAUTILUS_ICON_SIZE_SMALLEST : Z := 16.
Definition NAUTILUS_ICON_SIZE_SMALLER : Z := 24.
Definition NAUTILUS_ICON_SIZE_SMALL : Z := 32.
Definition NAUTILUS_ICON_SIZE_STANDARD : Z := 48.
Definition NAUTILUS_ICON_SIZE_LARGE : Z := 72.
Definition NAUTILUS_ICON_SIZE_LARGER : Z := 96.
Definition NAUTILUS_ICON_SIZE_LARGEST : Z := 192.

Inductive NautilusZoomLevel :=
  | NAUTILUS_ZOOM_LEVEL_SMALLEST
  | NAUTILUS_ZOOM_LEVEL_SMALLER
  | NAUTILUS_ZOOM_LEVEL_SMALL
  | NAUTILUS_ZOOM_LEVEL_STANDARD
  | NAUTILUS_ZOOM_LEVEL_LARGE
  | NAUTILUS_ZOOM_LEVEL_LARGER
  | NAUTILUS_ZOOM_LEVEL_LARGEST.

Definition nautilus_get_icon_size_for_zoom_level (zoom_level : NautilusZoomLevel) : Z :=
  match zoom_level with
  | NAUTILUS_ZOOM_LEVEL_SMALLEST => NAUTILUS_ICON_SIZE_SMALLEST
  | NAUTILUS_ZOOM_LEVEL_SMALLER => NAUTILUS_ICON_SIZE_SMALLER
  | NAUTILUS_ZOOM_LEVEL_SMALL => NAUTILUS_ICON_SIZE_SMALL
  | NAUTILUS_ZOOM_LEVEL_STANDARD => NAUTILUS_ICON_SIZE_STANDARD
  | NAUTILUS_ZOOM_LEVEL_LARGE => NAUTILUS_ICON_SIZE_LARGE
  | NAUTILUS_ZOOM_LEVEL_LARGER => NAUTILUS_ICON_SIZE_LARGER
  | NAUTILUS_ZOOM_LEVEL_LARGEST => NAUTILUS_ICON_SIZE_LARGEST
  end.

(** The zoom levels in the order of the enumeration, which the self-check
    numbers from 0 to 6. *)
Definition zoom_levels : list NautilusZoomLevel :=
  [ NAUTILUS_ZOOM_LEVEL_SMALLEST; NAUTILUS_ZOOM_LEVEL_SMALLER;
    NAUTILUS_ZOOM_LEVEL_SMALL; NAUTILUS_ZOOM_LEVEL_STANDARD;
    NAUTILUS_ZOOM_LEVEL_LARGE; NAUTILUS_ZOOM_LEVEL_LARGER;
    NAUTILUS_ZOOM_LEVEL_LARGEST ].

Definition nautilus_icon_factory_get_emblem_size_for_icon_size (size : Z) : Z :=
  if decide (size >= 96) then 48
  else if decide (size >= 64) then 32
  else if decide (size >= 48) then 24
  else if decide (size >= 32) then 16
  else 0 (* no emblems for smaller sizes *).

Definition nautilus_icon_factory_get_larger_icon_size (size : Z) : Z :=
  if decide (size < NAUTILUS_ICON_SIZE_SMALLEST) then NAUTILUS_ICON_SIZE_SMALLEST
  else if decide (size < NAUTILUS_ICON_SIZE_SMALLER) then NAUTILUS_ICON_SIZE_SMALLER
  else if decide (size < NAUTILUS_ICON_SIZE_SMALL) then NAUTILUS_ICON_SIZE_SMALL
  else if decide (size < NAUTILUS_ICON_SIZE_STANDARD) then NAUTILUS_ICON_SIZE_STANDARD
  else if decide (size < NAUTILUS_ICON_SIZE_LARGE) then NAUTILUS_ICON_SIZE_LARGE
  else if decide (size < NAUTILUS_ICON_SIZE_LARGER) then NAUTILUS_ICON_SIZE_LARGER
  else NAUTILUS_ICON_SIZE_LARGEST.

Definition nautilus_icon_factory_get_smaller_icon_size (size : Z) : Z :=
  if decide (size > NAUTILUS_ICON_SIZE_LARGEST) then NAUTILUS_ICON_SIZE_LARGEST
  else if decide (size > NAUTILUS_ICON_SIZE_LARGER) then NAUTILUS_ICON_SIZE_LARGER
  else if decide (size > NAUTILUS_ICON_SIZE_LARGE) then NAUTILUS_ICON_SIZE_LARGE
  else if decide (size > NAUTILUS_ICON_SIZE_STANDARD) then NAUTILUS_ICON_SIZE_STANDARD
  else if decide (size > NAUTILUS_ICON_SIZE_SMALL) then NAUTILUS_ICON_SIZE_SMALL
  else if decide (size > NAUTILUS_ICON_SIZE_SMALLER) then NAUTILUS_ICON_SIZE_SMALLER
  else NAUTILUS_ICON_SIZE_SMALLEST.

(** The sizes in increasing order. *)
Definition icon_sizes : list Z :=
  nautilus_get_icon_size_for_zoom_level <$> zoom_levels.

(** * The locations of a window: [nautilus-window-manage-views.c] *)

(** A bookmark, without its scroll position. *)
Record NautilusBookmark := {
  bookmark_uri : string;
  bookmark_name : string
}.

#[global] Instance NautilusBookmark_eq_dec : EqDecision NautilusBookmark.
Proof. solve_decision. Defined.

Definition nautilus_bookmark_new (uri name : string) : NautilusBookmark :=
  {| bookmark_uri := uri; bookmark_name := name |}.

Inductive NautilusLocationChangeType :=
  | NAUTILUS_LOCATION_CHANGE_STANDARD
  | NAUTILUS_LOCATION_CHANGE_BACK
  | NAUTILUS_LOCATION_CHANGE_FORWARD
  | NAUTILUS_LOCATION_CHANGE_RELOAD
  | NAUTILUS_LOCATION_CHANGE_REDIRECT
  | NAUTILUS_LOCATION_CHANGE_FALLBACK.

#[global] Instance NautilusLocationChangeType_eq_dec :
  EqDecision NautilusLocationChangeType.
Proof. solve_decision. Defined.

(** The fields of a window that the change of its location reads and
    writes.  The two lists are those of a navigation window; their nodes
    hold pointers to bookmarks, which can be NULL. *)
Record NautilusWindow := {
  is_navigation_window : bool;
  location : option string;
  pending_location : option string;
  location_change_type : NautilusLocationChangeType;
  location_change_distance : Z;     (* guint *)
  current_location_bookmark : option NautilusBookmark;
  last_location_bookmark : option NautilusBookmark;
  back_list : list (option NautilusBookmark);
  forward_list : list (option NautilusBookmark)
}.

Definition set_bookmarks (current last : option NautilusBookmark)
    (w : NautilusWindow) : NautilusWindow :=
  {| is_navigation_window := is_navigation_window w;
     location := location w;
     pending_location := pending_location w;
     location_change_type := location_change_type w;
     location_change_distance := location_change_distance w;
     current_location_bookmark := current;
     last_location_bookmark := last;
     back_list := back_list w;
     forward_list := forward_list w |}.

Definition set_lists (back forward : list (option NautilusBookmark))
    (w : NautilusWindow) : NautilusWindow :=
  {| is_navigation_window := is_navigation_window w;
     location := location w;
     pending_location := pending_location w;
     location_change_type := location_change_type w;
     location_change_distance := location_change_distance w;
     current_location_bookmark := current_location_bookmark w;
     last_location_bookmark := last_location_bookmark w;
     back_list := back;
     forward_list := forward |}.

Definition set_location (v : option string) (w : NautilusWindow) : NautilusWindow :=
  {| is_navigation_window := is_navigation_window w;
     location := v;
     pending_location := pending_location w;
     location_change_type := location_change_type w;
     location_change_distance := location_change_distance w;
     current_location_bookmark := current_location_bookmark w;
     last_location_bookmark := last_location_bookmark w;
     back_list := back_list w;
     forward_list := forward_list w |}.

Definition set_pending (v : option string) (type : NautilusLocationChangeType)
    (distance : Z) (w : NautilusWindow) : NautilusWindow :=
  {| is_navigation_window := is_navigation_window w;
     location := location w;
     pending_location := v;
     location_change_type := type;
     location_change_distance := distance;
     current_location_bookmark := current_location_bookmark w;
     last_location_bookmark := last_location_bookmark w;
     back_list := back_list w;
     forward_list := forward_list w |}.

(** [g_list_remove]: without the first node that holds [data]. *)
Fixpoint g_list_remove (glist : list (option NautilusBookmark))
    (data : option NautilusBookmark) : list (option NautilusBookmark) :=
  match glist with
  | [] => []
  | x :: rest => if decide (x = data) then rest else x :: g_list_remove rest data
  end.

(** The loop of [handle_go_back] and of [handle_go_forward]: [n] times, the
    first bookmark of one list goes to the front of the other.  [None]: the
    data of a NULL list is read. *)
Fixpoint move_links (n : nat) (from to : list (option NautilusBookmark))
    : option (list (option NautilusBookmark) * list (option NautilusBookmark)) :=
  match n with
  | O => Some (from, to)
  | S n =>
      match from with
      | [] => None
      | bookmark :: _ => move_links n (g_list_remove from bookmark) (bookmark :: to)
      end
  end.

(** [location] is read by the check that warns, and by nothing else. *)
Definition handle_go_back (window : NautilusWindow)
    (location_arg : string) : option NautilusWindow :=
  (* g_return_if_fail (NAUTILUS_IS_NAVIGATION_WINDOW (window)); *)
  if negb (is_navigation_window window) then Some window
  (* Going back. Move items from the back list to the forward list. *)
  else if decide (Z.of_nat (length (back_list window))
                  > location_change_distance window) then
    if decide (location window <> None) then
      (* Move current location to Forward list *)
      let forward := last_location_bookmark window :: forward_list window in
      (* Move extra links from Back to Forward list *)
      '(back, forward) ←
        move_links (Z.to_nat (location_change_distance window))
          (back_list window) forward;
      (* One bookmark falls out of back/forward lists and becomes viewed
         location *)
      match back with
      | [] => None
      | _ :: back => Some (set_lists back forward window)
      end
    else None
  else None.

Definition handle_go_forward (window : NautilusWindow)
    (location_arg : string) : option NautilusWindow :=
  if negb (is_navigation_window window) then Some window
  (* Going forward. Move items from the forward list to the back list. *)
  else if decide (Z.of_nat (length (forward_list window))
                  > location_change_distance window) then
    if decide (location window <> None) then
      (* Move current location to Back list *)
      let back := last_location_bookmark window :: back_list window in
      (* Move extra links from Forward to Back list *)
      '(forward, back) ←
        move_links (Z.to_nat (location_change_distance window))
          (forward_list window) back;
      match forward with
      | [] => None
      | _ :: forward => Some (set_lists back forward window)
      end
    else None
  else None.

(** [gnome_vfs_uris_match] of gnome-vfs is a parameter of what follows.
    [NEW_UI_COMPLETE] is defined nowhere in the file, so that the body under
    [#if !NEW_UI_COMPLETE] is compiled. *)
Definition handle_go_elsewhere (gnome_vfs_uris_match : string -> string -> bool)
    (window : NautilusWindow) (location_arg : string) : NautilusWindow :=
  if is_navigation_window window then
    (* Clobber the entire forward list, and move displayed location to back
       list *)
    let window := set_lists (back_list window) [] window in
    match location window with
    | Some current =>
        (* If we're returning to the same uri somehow, don't put this uri on
           back list. *)
        if negb (gnome_vfs_uris_match current location_arg) then
          set_lists (last_location_bookmark window :: back_list window)
            (forward_list window) window
        else window
    | None => window
    end
  else window.

Definition set_displayed_location (gnome_vfs_uris_match : string -> string -> bool)
    (window : NautilusWindow) (location_arg : option string) : NautilusWindow :=
  let recreate :=
    match current_location_bookmark window, location_arg with
    | Some bookmark, Some l => negb (gnome_vfs_uris_match (bookmark_uri bookmark) l)
    | _, _ => true
    end in
  if recreate then
    (* We've changed locations, must recreate bookmark for current
       location. *)
    set_bookmarks
      (match location_arg with
       | None => None
       | Some l => Some (nautilus_bookmark_new l l)
       end)
      (current_location_bookmark window) window
  else window.

(** The history list of the application, to which every case but two adds
    the current location, is left out. *)
Definition update_history (gnome_vfs_uris_match : string -> string -> bool)
    (window : NautilusWindow) (type : NautilusLocationChangeType)
    (new_location : string) : option NautilusWindow :=
  match type with
  | NAUTILUS_LOCATION_CHANGE_STANDARD
  | NAUTILUS_LOCATION_CHANGE_FALLBACK =>
      Some (handle_go_elsewhere gnome_vfs_uris_match window new_location)
  | NAUTILUS_LOCATION_CHANGE_RELOAD =>
      (* for reload there is no work to do *)
      Some window
  | NAUTILUS_LOCATION_CHANGE_BACK => handle_go_back window new_location
  | NAUTILUS_LOCATION_CHANGE_FORWARD => handle_go_forward window new_location
  | NAUTILUS_LOCATION_CHANGE_REDIRECT =>
      (* for the redirect case, the caller can do the updating *)
      Some window
  end.

(** [update_for_new_location], of which the file watched, the menus, the
    buttons and the bars are left out.  It is called with a pending
    location. *)
Definition update_for_new_location (gnome_vfs_uris_match : string -> string -> bool)
    (window : NautilusWindow) : option NautilusWindow :=
  new_location ← pending_location window;
  let window :=
    set_pending None (location_change_type window)
      (location_change_distance window) window in
  let window :=
    set_displayed_location gnome_vfs_uris_match window (Some new_location) in
  window ←
    update_history gnome_vfs_uris_match window (location_change_type window)
      new_location;
  (* Set the new location. *)
  Some (set_location (Some new_location) window).

Definition free_location_change (window : NautilusWindow) : NautilusWindow :=
  set_pending None (location_change_type window)
    (location_change_distance window) window.

(** [location_has_really_changed], without the views. *)
Definition location_has_really_changed
    (gnome_vfs_uris_match : string -> string -> bool)
    (window : NautilusWindow) : option NautilusWindow :=
  window ←
    (if decide (pending_location window <> None)
     then update_for_new_location gnome_vfs_uris_match window
     else Some window);
  Some (free_location_change window).

(** What [begin_location_change] writes to the window before it asks for
    the file of the location; [None] is a failed assertion. *)
Definition begin_location_change (window : NautilusWindow)
    (location_arg : option string) (type : NautilusLocationChangeType)
    (distance : Z) : option NautilusWindow :=
  location_arg ← location_arg;
  if decide (type = NAUTILUS_LOCATION_CHANGE_BACK
             \/ type = NAUTILUS_LOCATION_CHANGE_FORWARD \/ distance = 0) then
    (* end_location_change (window); *)
    let window := free_location_change window in
    Some (set_pending (Some location_arg) type distance window)
  else None.

(** [nautilus_bookmark_get_uri] of a NULL bookmark is NULL. *)
Definition nautilus_navigation_window_back_or_forward
    (window : NautilusWindow) (back : bool) (distance : Z)
    : option NautilusWindow :=
  let glist := if back then back_list window else forward_list window in
  let len := Z.of_nat (length glist) in
  (* If we can't move in the direction at all, just return. *)
  if decide (len = 0) then Some window
  else
    (* If the distance to move is off the end of the list, go to the end of
       the list. *)
    let distance := if decide (distance >= len) then len - 1 else distance in
    let bookmark := mjoin (glist !! Z.to_nat distance) in
    begin_location_change window (bookmark_uri <$> bookmark)
      (if back then NAUTILUS_LOCATION_CHANGE_BACK
       else NAUTILUS_LOCATION_CHANGE_FORWARD)
      distance.

(** [nautilus_window_reload], up to the call that begins the change. *)
Definition nautilus_window_reload (window : NautilusWindow)
    : option NautilusWindow :=
  match location window with
  | None => Some window
  | Some l =>
      begin_location_change window (Some l) NAUTILUS_LOCATION_CHANGE_RELOAD 0
  end.

(** The locations of the two lists and the one displayed, as a line from
    the oldest to the newest. *)
Definition uris (l : list (option NautilusBookmark)) : list (option string) :=
  (fun b : option NautilusBookmark => bookmark_uri <$> b) <$> l.

Definition timeline (w : NautilusWindow) : list (option string) :=
  reverse (uris (back_list w)) ++ [location w] ++ uris (forward_list w).

(** The bookmark of the location displayed is that of the location. *)
Definition bookmark_matches (w : NautilusWindow) : Prop :=
  bookmark_uri <$> current_location_bookmark w = location w /\
  location w <> None.

(** * The calls that reach the factory from outside *)

(** The public functions and the callbacks of [nautilus-icon-factory.c] that
    read or write the cache: the lookup of a pixbuf, the removal of an
    entry, the sweep that the timer runs, the clearing after a change of the
    theme or of a preference, and the arrival of a thumbnail. *)
Inductive factory_call :=
  | call_get_pixbuf_for_icon (env : Env) (icon : string)
      (modifier : option string) (nominal_size force_size wants_default : Z)
  | call_remove_from_cache (stack_value : Z) (icon_name : string)
      (modifier : option string) (size : Z)
  | call_sweep
  | call_clear (clear_pathnames : Z)
  | call_thumbnail_loaded (env : Env)
      (gdk_pixbuf_get_has_alpha : nat -> bool)
      (nautilus_thumbnail_frame_image : nat -> nat)
      (path : string) (loaded : GdkPixbuf)
      (modifier : option string) (nominal_size force_nominal : Z).

Definition run_call (c : factory_call)
    (f : NautilusIconFactory) : option NautilusIconFactory :=
  match c with
  | call_get_pixbuf_for_icon env icon modifier nominal_size force_size
      wants_default =>
      fst <$> nautilus_icon_factory_get_pixbuf_for_icon env (Some icon)
                modifier nominal_size force_size wants_default f
  | call_remove_from_cache stack_value icon_name modifier size =>
      fst <$> nautilus_icon_factory_remove_from_cache stack_value
                (Some icon_name) modifier size f
  | call_sweep => nautilus_icon_factory_sweep f
  | call_clear clear_pathnames => nautilus_icon_factory_clear clear_pathnames f
  | call_thumbnail_loaded env gdk_pixbuf_get_has_alpha
      nautilus_thumbnail_frame_image path loaded modifier nominal_size
      force_nominal =>
      async_thumbnail_load_func env gdk_pixbuf_get_has_alpha
        nautilus_thumbnail_frame_image path loaded modifier nominal_size
        force_nominal f
  end.

Fixpoint run_calls (cs : list factory_call)
    (f : NautilusIconFactory) : option NautilusIconFactory :=
  match cs with
  | [] => Some f
  | c :: cs => f ← run_call c f; run_calls cs f
  end.

(** Images without alpha, whose frames have none either, and the frame of
    an image. *)
Definition no_alpha (px : nat) : bool := false.
Definition example_frame (px : nat) : nat := S px.

(** Images whose frames have alpha: the even ones have none, and the frame
    of an image is the next image. *)
Definition alpha_of_frames (px : nat) : bool := Nat.odd px.

(** Calls of every kind, one after the other. *)
Definition example_calls : list factory_call :=
  [ call_get_pixbuf_for_icon theme_env "folder" None 48 FALSE TRUE;
    call_get_pixbuf_for_icon bare_env "no-such-icon" (Some "accept") 48 FALSE FALSE;
    call_thumbnail_loaded (file_env 3 true) no_alpha example_frame
      "/home/.thumbnails/a.png" (new_pixbuf 5) None 48 FALSE;
    call_thumbnail_loaded (file_env 3 true) alpha_of_frames example_frame
      "/home/.thumbnails/b.png" (new_pixbuf 4) (Some "accept") 48 FALSE;
    call_get_pixbuf_for_icon (file_env 4 true) "/home/.thumbnails/a.png" None
      48 FALSE TRUE;
    call_sweep;
    call_remove_from_cache 0 "folder" None 48;
    call_clear FALSE;
    call_get_pixbuf_for_icon theme_env "folder" None 48 FALSE TRUE;
    call_clear TRUE;
    call_sweep ].
(** * Properties of the abstract list *)

Ltac cases := repeat case_decide; simplify_eq; try done; try congruence.

Lemma nxt_in_None l i : nxt_in l i = None <-> i ∉ l.
Proof.
  induction l as [|j t IH]; simpl.
  - split; [intros _; apply not_elem_of_nil | done].
  - case_decide; subst.
    + split; [done | intros H; exfalso; apply H; left].
    + rewrite IH, not_elem_of_cons. intuition congruence.
Qed.

Lemma nxt_in_is_Some l i : is_Some (nxt_in l i) <-> i ∈ l.
Proof.
  rewrite <- not_eq_None_Some, nxt_in_None.
  split; [apply dec_stable | auto].
Qed.

Lemma hd_ptr_Node l j : hd_ptr l = Node j -> j ∈ l.
Proof. destruct l; simpl; [done | intros [= ->]; left]. Qed.

Lemma nxt_in_Node l i j : nxt_in l i = Some (Node j) -> j ∈ l.
Proof.
  induction l as [|k t IH]; simpl; [done |].
  case_decide.
  - intros [= H']. right. by apply hd_ptr_Node.
  - intros H'. right. auto.
Qed.

Lemma nxt_of_Node l p j : nxt_of l p = Some (Node j) -> j ∈ l.
Proof.
  destruct p; simpl.
  - intros [= H]. by apply hd_ptr_Node.
  - apply nxt_in_Node.
Qed.

Lemma nxt_of_cons x l p :
  nxt_of (x :: l) p =
    if decide (p = Head) then Some (Node x)
    else if decide (p = Node x) then nxt_of l Head
    else nxt_of l p.
Proof.
  destruct p as [|i]; simpl; [done |].
  cases.
Qed.

Lemma del_cons x y l :
  del x (y :: l) = if decide (y = x) then del x l else y :: del x l.
Proof.
  unfold del. rewrite filter_cons.
  repeat case_decide; done.
Qed.

Lemma del_notin x l : x ∉ l -> del x l = l.
Proof.
  induction l as [|y t IH]; [done |].
  rewrite not_elem_of_cons, del_cons. intros [? ?].
  case_decide; [congruence |]. by rewrite IH.
Qed.

Lemma elem_of_del x y l : y ∈ del x l <-> y <> x /\ y ∈ l.
Proof. unfold del. by rewrite list_elem_of_filter. Qed.

Lemma NoDup_del x l : NoDup l -> NoDup (del x l).
Proof. apply NoDup_filter. Qed.

Lemma del_reverse x l : del x (reverse l) = reverse (del x l).
Proof. apply filter_reverse. Qed.

Lemma length_del x l :
  NoDup l -> x ∈ l -> length l = S (length (del x l)).
Proof.
  induction 1 as [|y t Hy Ht IH]; [by intros ?%elem_of_nil |].
  rewrite del_cons. intros [->|Hx]%elem_of_cons.
  - rewrite decide_True by done. by rewrite del_notin.
  - rewrite decide_False by (intros ->; done). simpl. by rewrite IH.
Qed.

Lemma hd_ptr_del x l :
  NoDup l ->
  Some (hd_ptr (del x l)) =
    if decide (hd_ptr l = Node x) then nxt_in l x else Some (hd_ptr l).
Proof.
  intros Hnd. destruct l as [|y t]; [done |].
  rewrite del_cons. simpl.
  apply NoDup_cons in Hnd as [Hy _].
  case_decide; subst.
  - rewrite decide_True by done. by rewrite del_notin.
  - rewrite decide_False by congruence. reflexivity.
Qed.

Lemma nxt_in_del x l i :
  NoDup l -> i <> x ->
  nxt_in (del x l) i =
    if decide (nxt_in l i = Some (Node x)) then nxt_in l x else nxt_in l i.
Proof.
  intros Hnd Hix. induction Hnd as [|y t Hy Ht IH]; [simpl; cases |].
  rewrite del_cons. cbn [nxt_in].
  destruct (decide (y = x)) as [->|Hyx].
  - rewrite del_notin by done.
    rewrite (decide_False (P := x = i)) by done.
    rewrite decide_False; [done |].
    intros ?%nxt_in_Node. done.
  - cbn [nxt_in]. destruct (decide (y = i)) as [->|Hyi].
    + pose proof (hd_ptr_del x t Ht) as ->. cases.
    + apply IH.
Qed.

Lemma nxt_of_del x l p :
  NoDup l ->
  nxt_of (del x l) p =
    if decide (p = Node x) then None
    else if decide (nxt_of l p = Some (Node x)) then nxt_of l (Node x)
    else nxt_of l p.
Proof.
  intros Hnd. destruct p as [|i]; simpl.
  { rewrite hd_ptr_del by done. cases. }
  destruct (decide (Node i = Node x)) as [[= ->]|Hix].
  - apply nxt_in_None. rewrite elem_of_del. tauto.
  - apply nxt_in_del; congruence.
Qed.

Lemma nxt_of_snoc x l p :
  x ∉ l ->
  nxt_of (l ++ [x]) p =
    if decide (p = Node x) then Some Head
    else if decide (nxt_of l p = Some Head) then Some (Node x)
    else nxt_of l p.
Proof.
  intros Hx. destruct p as [|i]; simpl.
  { destruct l; simpl; cases. }
  induction l as [|y t IH]; simpl.
  { cases. }
  apply not_elem_of_cons in Hx as [Hxy Hx].
  destruct (decide (y = i)) as [->|Hyi].
  - rewrite decide_False by congruence.
    destruct t; simpl; cases.
  - by apply IH.
Qed.

(** ** Neighbours in the circle *)

Lemma NoDup_reverse (l : list icon_ptr) : NoDup l -> NoDup (reverse l).
Proof. by rewrite reverse_Permutation. Qed.

Lemma cyc_reverse l : cyc (reverse l) = reverse (cyc l).
Proof.
  unfold cyc. rewrite reverse_cons, reverse_app, fmap_reverse. done.
Qed.

Lemma adj_reverse l p q : adj (reverse l) q p <-> adj l p q.
Proof.
  assert (forall l p q, adj l p q -> adj (reverse l) q p) as Hone.
  { clear. intros l p q (u & v & H). exists (reverse v), (reverse u).
    rewrite cyc_reverse, H, reverse_app, !reverse_cons, <- !app_assoc. done. }
  split; [| apply Hone].
  intros H%Hone. by rewrite reverse_involutive in H.
Qed.

Lemma nxt_in_adj l i q :
  nxt_in l i = Some q ->
  exists u v, (Node <$> l) ++ [Head] = u ++ Node i :: q :: v.
Proof.
  induction l as [|j t IH]; simpl; [done |].
  case_decide as Hj.
  - intros [= <-]. subst j. exists [].
    destruct t; simpl; eauto.
  - intros (u & v & H)%IH. exists (Node j :: u), v.
    simpl. f_equal. exact H.
Qed.

Lemma adj_nxt_in l i q u v :
  NoDup l ->
  (Node <$> l) ++ [Head] = u ++ Node i :: q :: v ->
  nxt_in l i = Some q.
Proof.
  intros Hnd. revert u. induction Hnd as [|j t Hj Ht IH]; intros u Hu.
  { destruct u as [|? [|? ?]]; done. }
  rewrite fmap_cons, <- app_comm_cons in Hu. cbn [nxt_in].
  destruct u as [|a u].
  - injection Hu as Hji Hu. simplify_eq. rewrite decide_True by done.
    destruct t; simplify_eq/=; done.
  - rewrite <- app_comm_cons in Hu. injection Hu as Ha Hu.
    rewrite decide_False; [eauto |].
    intros ->. apply Hj.
    assert (Node i ∈ (Node <$> t) ++ [Head]) as Hi.
    { rewrite Hu. set_solver. }
    apply elem_of_app in Hi as [Hi | Hi]; [| set_solver].
    apply list_elem_of_fmap in Hi as (k & [= ->] & Hk). done.
Qed.

Lemma no_head_inside l u q v :
  (Node <$> l) ++ [Head] = u ++ Head :: q :: v -> False.
Proof.
  revert u. induction l as [|j t IH]; intros u Hu.
  - destruct u as [|? [|? ?]]; done.
  - rewrite fmap_cons, <- app_comm_cons in Hu.
    destruct u as [|a u]; [done |].
    rewrite <- app_comm_cons in Hu. injection Hu as _ Hu. eauto.
Qed.

Lemma nxt_of_adj l p q : NoDup l -> nxt_of l p = Some q <-> adj l p q.
Proof.
  intros Hnd. split.
  - destruct p as [|i]; cbn [nxt_of].
    + intros [= <-]. exists []. unfold cyc.
      destruct l; simpl; eauto.
    + intros (u & v & H)%nxt_in_adj. exists (Head :: u), v.
      unfold cyc. by rewrite H.
  - intros (u & v & H). unfold cyc in H.
    destruct u as [|a u].
    + injection H as <- H. cbn [nxt_of].
      destruct l; simplify_eq/=; done.
    + rewrite <- app_comm_cons in H. injection H as <- H.
      destruct p as [|i].
      * by apply no_head_inside in H.
      * by eapply adj_nxt_in.
Qed.

(** The two links agree: [q] is after [p] when [p] is before [q]. *)
Lemma nxt_prv l p q :
  NoDup l -> nxt_of l p = Some q <-> prv_of l q = Some p.
Proof.
  intros Hnd. unfold prv_of.
  rewrite (nxt_of_adj l) by done.
  rewrite (nxt_of_adj (reverse l)) by (by apply NoDup_reverse).
  by rewrite adj_reverse.
Qed.

Lemma nxt_to_prv l p q :
  NoDup l -> nxt_of l p = Some q -> prv_of l q = Some p.
Proof. intros Hnd. by apply (nxt_prv l p q). Qed.

Lemma prv_to_nxt l p q :
  NoDup l -> prv_of l q = Some p -> nxt_of l p = Some q.
Proof. intros Hnd. by apply (nxt_prv l p q). Qed.

Lemma prv_of_reverse l p : prv_of (reverse l) p = nxt_of l p.
Proof. unfold prv_of. by rewrite reverse_involutive. Qed.

Lemma prv_of_del x l p :
  NoDup l ->
  prv_of (del x l) p =
    if decide (p = Node x) then None
    else if decide (prv_of l p = Some (Node x)) then prv_of l (Node x)
    else prv_of l p.
Proof.
  intros Hnd. unfold prv_of. rewrite <- del_reverse.
  apply nxt_of_del. by apply NoDup_reverse.
Qed.

Lemma prv_of_cons x l p :
  x ∉ l ->
  prv_of (x :: l) p =
    if decide (p = Node x) then Some Head
    else if decide (prv_of l p = Some Head) then Some (Node x)
    else prv_of l p.
Proof.
  intros Hx. unfold prv_of. rewrite reverse_cons.
  apply nxt_of_snoc. by rewrite elem_of_reverse.
Qed.

Lemma nxt_of_Node_None l i : nxt_of l (Node i) = None <-> i ∉ l.
Proof. apply nxt_in_None. Qed.

Lemma prv_of_Node_None l i : prv_of l (Node i) = None <-> i ∉ l.
Proof. unfold prv_of. simpl. by rewrite nxt_in_None, elem_of_reverse. Qed.

Lemma prv_of_Node l p j : prv_of l p = Some (Node j) -> j ∈ l.
Proof. unfold prv_of. intros ?%nxt_of_Node. by apply elem_of_reverse. Qed.

Lemma nxt_of_Head l : nxt_of l Head = Some (hd_ptr l).
Proof. done. Qed.

Lemma prv_of_Head_last l y : prv_of l Head = Some (Node y) <-> last l = Some y.
Proof.
  unfold prv_of. simpl. rewrite <- (reverse_involutive l) at 2.
  rewrite last_reverse. destruct (reverse l); simpl; naive_solver.
Qed.

Lemma prv_of_Head_nil l : prv_of l Head = Some Head <-> l = [].
Proof.
  unfold prv_of. simpl. split.
  - destruct (reverse l) eqn:E; simpl; [| done].
    intros _. rewrite <- (reverse_involutive l), E. done.
  - by intros ->.
Qed.

Lemma nxt_of_Head_nil l : nxt_of l Head = Some Head <-> l = [].
Proof. simpl. destruct l; simpl; naive_solver. Qed.

(** No node of the list is its own neighbour. *)
Lemma nxt_of_irrefl l i : NoDup l -> nxt_of l (Node i) <> Some (Node i).
Proof.
  simpl. induction 1 as [|j t Hj Ht IH]; simpl; [done |].
  case_decide; [| done]. subst.
  intros [= ?%hd_ptr_Node]. done.
Qed.

Lemma prv_of_irrefl l i : NoDup l -> prv_of l (Node i) <> Some (Node i).
Proof. intros Hnd. apply nxt_of_irrefl. by apply NoDup_reverse. Qed.

(** * The heap *)

(** ** What the stores keep *)

Lemma same_data_refl f : same_data f f.
Proof. by split. Qed.

Lemma same_data_trans f1 f2 f3 :
  same_data f1 f2 -> same_data f2 f3 -> same_data f1 f3.
Proof. intros [] []. split; congruence. Qed.

Lemma same_data_lookup f f' i :
  same_data f f' -> strip <$> icons f' !! i = strip <$> icons f !! i.
Proof. intros [_ _ _ _ H]. by rewrite <- !lookup_fmap, H. Qed.

Lemma same_data_is_Some f f' i :
  same_data f f' -> is_Some (icons f' !! i) <-> is_Some (icons f !! i).
Proof.
  intros H.
  rewrite <- (fmap_is_Some strip (icons f' !! i)).
  rewrite <- (fmap_is_Some strip (icons f !! i)).
  by rewrite (same_data_lookup f f').
Qed.

Lemma same_data_live f f' p :
  same_data f f' -> is_Some (load_node p f') <-> is_Some (load_node p f).
Proof.
  intros H. destruct p as [|i]; simpl; [by split; eauto |].
  rewrite !fmap_is_Some. by apply same_data_is_Some.
Qed.

Lemma same_data_set_count f v : same_data f (set_count v f).
Proof. by split. Qed.

Lemma strip_set_recently_used_node c ic :
  strip (set_recently_used_node c ic) = strip ic.
Proof. done. Qed.

Lemma store_node_spec q c f :
  is_Some (load_node q f) ->
  exists f', store_node q c f = Some f' /\ same_data f f' /\
    recently_used_count f' = recently_used_count f /\
    forall p, load_node p f' = if decide (p = q) then Some c else load_node p f.
Proof.
  destruct q as [|i]; simpl.
  - intros _. eexists; split; [done |]. split; [by split |]. split; [done |].
    intros [|j]; simpl; cases.
  - intros [ic Hic]%fmap_is_Some. rewrite Hic. simpl.
    eexists; split; [done |]. split; [| split; [done |]].
    + split; try done. simpl. rewrite fmap_insert, strip_set_recently_used_node.
      apply insert_id. by rewrite lookup_fmap, Hic.
    + intros [|j]; simpl; [cases |].
      destruct (decide (j = i)) as [->|Hji].
      * rewrite decide_True by done. by rewrite lookup_insert_eq.
      * rewrite decide_False by congruence. by rewrite lookup_insert_ne.
Qed.

Lemma load_next_links f N P p :
  links_are f N P -> is_Some (load_node p f) -> load_next p f = Some (N p).
Proof.
  intros HL [c Hc]. unfold load_next. rewrite Hc. by rewrite (HL _ _ Hc).
Qed.

Lemma load_prev_links f N P p :
  links_are f N P -> is_Some (load_node p f) -> load_prev p f = Some (P p).
Proof.
  intros HL [c Hc]. unfold load_prev. rewrite Hc. by rewrite (HL _ _ Hc).
Qed.

Lemma store_next_links f N P q v :
  links_are f N P -> is_Some (load_node q f) ->
  exists f', store_next q v f = Some f' /\ links_are f' (upd N q v) P /\
    same_data f f' /\ recently_used_count f' = recently_used_count f.
Proof.
  intros HL [c Hc]. unfold store_next. rewrite Hc. simpl.
  destruct (store_node_spec q {| next := v; prev := prev c |} f)
    as (f' & -> & Hd & Hn & Hl); [by eauto |].
  exists f'. split; [done |]. split; [| by split].
  intros p c'. rewrite Hl. unfold upd. case_decide as Hp.
  - intros [= <-]. subst p. by rewrite (HL _ _ Hc).
  - apply HL.
Qed.

Lemma store_prev_links f N P q v :
  links_are f N P -> is_Some (load_node q f) ->
  exists f', store_prev q v f = Some f' /\ links_are f' N (upd P q v) /\
    same_data f f' /\ recently_used_count f' = recently_used_count f.
Proof.
  intros HL [c Hc]. unfold store_prev. rewrite Hc. simpl.
  destruct (store_node_spec q {| next := next c; prev := v |} f)
    as (f' & -> & Hd & Hn & Hl); [by eauto |].
  exists f'. split; [done |]. split; [| by split].
  intros p c'. rewrite Hl. unfold upd. case_decide as Hp.
  - intros [= <-]. subst p. by rewrite (HL _ _ Hc).
  - apply HL.
Qed.

Lemma links_are_set_count f N P v :
  links_are f N P -> links_are (set_count v f) N P.
Proof. intros HL p c Hc. apply (HL p c). by destruct p. Qed.

Lemma ring_links_are f l : ring f l -> links_are f (nxt_of l) (prv_of l).
Proof. intros []. done. Qed.

(** A node is in the list when its [next] link is not null. *)
Lemma ring_live_node f l i : ring f l -> i ∈ l -> is_Some (load_node (Node i) f).
Proof.
  intros Hr Hi. simpl. apply fmap_is_Some. by eapply ring_live.
Qed.

Lemma live_Head f : is_Some (load_node Head f).
Proof. simpl. eauto. Qed.

(** ** The statements on the list *)

#[local] Arguments load_node : simpl never.
#[local] Arguments load_next : simpl never.
#[local] Arguments load_prev : simpl never.
#[local] Arguments store_node : simpl never.
#[local] Arguments store_next : simpl never.
#[local] Arguments store_prev : simpl never.

(** One step of a sequence of statements: the binding of a result. *)
Ltac obind := cbn [mbind option_bind assign_prev assign_next prev_of next_of].

Lemma obind_Some {A B} (m : option A) (k : A -> option B) v :
  m = Some v -> m ≫= k = k v.
Proof. by intros ->. Qed.

Lemma links_are_ext f N P N' P' :
  links_are f N P -> (forall p, N p = N' p) -> (forall p, P p = P' p) ->
  links_are f N' P'.
Proof. intros HL HN HP p c Hc. rewrite <- HN, <- HP. by apply HL. Qed.

Lemma live_nxt f l p q :
  ring f l -> nxt_of l p = Some q -> is_Some (load_node q f).
Proof.
  intros Hr H. destruct q as [|j]; [apply live_Head |].
  eapply ring_live_node; [done |]. by eapply nxt_of_Node.
Qed.

Lemma live_prv f l p q :
  ring f l -> prv_of l p = Some q -> is_Some (load_node q f).
Proof.
  intros Hr H. destruct q as [|j]; [apply live_Head |].
  eapply ring_live_node; [done |]. by eapply prv_of_Node.
Qed.

(** [node->next->prev = node->prev; node->prev->next = node->next;] for a
    node of the list: the list loses the node, whose own links stay. *)
Lemma unlink_links f l x :
  ring f l -> x ∈ l ->
  exists f1 f' N P,
    (a ← load_next (Node x) f; v ← load_prev (Node x) f; assign_prev a v f)
      = Some f1 /\
    (a ← load_prev (Node x) f1; v ← load_next (Node x) f1; assign_next a v f1)
      = Some f' /\
    links_are f' N P /\
    (forall p, p <> Node x ->
       N p = nxt_of (del x l) p /\ P p = prv_of (del x l) p) /\
    same_data f f' /\ recently_used_count f' = recently_used_count f.
Proof.
  intros Hr Hx. pose proof (ring_links_are _ _ Hr) as HL.
  pose proof (ring_nodup _ _ Hr) as Hnd.
  pose proof (ring_live_node _ _ _ Hr Hx) as Hlx.
  destruct (nxt_of l (Node x)) as [a|] eqn:Ha;
    [| by apply nxt_of_Node_None in Ha].
  destruct (prv_of l (Node x)) as [b|] eqn:Hb;
    [| by apply prv_of_Node_None in Hb].
  assert (a <> Node x) as Hax.
  { intros ->. by eapply nxt_of_irrefl. }
  assert (b <> Node x) as Hbx.
  { intros ->. by eapply prv_of_irrefl. }
  rewrite (load_next_links _ _ _ _ HL Hlx), (load_prev_links _ _ _ _ HL Hlx).
  rewrite Ha, Hb. obind.
  destruct (store_prev_links f _ _ a (Some b) HL) as (f1 & Hs1 & HL1 & Hd1 & Hc1).
  { by eapply live_nxt. }
  exists f1. rewrite Hs1.
  assert (is_Some (load_node (Node x) f1)) as Hlx1 by by apply (same_data_live f).
  rewrite (load_next_links _ _ _ _ HL1 Hlx1), (load_prev_links _ _ _ _ HL1 Hlx1).
  unfold upd at 1. rewrite decide_False by done. rewrite Ha, Hb. simpl.
  destruct (store_next_links f1 _ _ b (Some a) HL1) as (f2 & -> & HL2 & Hd2 & Hc2).
  { apply (same_data_live f); [done |]. by eapply live_prv. }
  eexists _, _, _. split; [done |]. split; [done |]. split; [exact HL2 |].
  split; [| split; [exact (same_data_trans _ _ _ Hd1 Hd2) | congruence]].
  intros p Hp. unfold upd.
  rewrite nxt_of_del, prv_of_del by done.
  rewrite !(decide_False (P := p = Node x)) by done.
  rewrite Ha, Hb. split.
  - destruct (decide (p = b)) as [->|Hpb].
    + rewrite decide_True; [done |]. by apply prv_to_nxt.
    + rewrite decide_False; [done |].
      intros H. apply nxt_to_prv in H; [| done]. congruence.
  - destruct (decide (p = a)) as [->|Hpa].
    + rewrite decide_True; [done |]. by apply nxt_to_prv.
    + rewrite decide_False; [done |].
      intros H. apply prv_to_nxt in H; [| done]. congruence.
Qed.

(** The four statements that insert the node at the head of the list. *)
Lemma insert_head_links f l x N P :
  links_are f N P ->
  (forall p, p <> Node x -> N p = nxt_of l p /\ P p = prv_of l p) ->
  NoDup l -> x ∉ l ->
  is_Some (icons f !! x) ->
  (forall i, i ∈ l -> is_Some (icons f !! i)) ->
  exists f',
    (f1 ← store_prev (Node x) (Some Head) f;
     f2 ← (v ← load_next Head f1; store_next (Node x) v f1);
     f3 ← (a ← load_next (Node x) f2; assign_prev a (Some (Node x)) f2);
     store_next Head (Some (Node x)) f3) = Some f' /\
    links_are f' (nxt_of (x :: l)) (prv_of (x :: l)) /\
    same_data f f' /\ recently_used_count f' = recently_used_count f.
Proof.
  intros HL Hagree Hnd Hx Hlx Hlive.
  assert (is_Some (load_node (Node x) f)) as Hnx by by apply fmap_is_Some.
  assert (hd_ptr l <> Node x) as Hh by (by intros ?%hd_ptr_Node).
  assert (is_Some (load_node (hd_ptr l) f)) as Hlh.
  { destruct l as [|j t]; simpl; [eauto |].
    apply fmap_is_Some, Hlive. left. }
  destruct (store_prev_links f _ _ (Node x) (Some Head) HL Hnx)
    as (f1 & -> & HL1 & Hd1 & Hc1).
  obind.
  rewrite (load_next_links _ _ _ Head HL1 (live_Head f1)).
  destruct (Hagree Head) as [-> _]; [done |]. rewrite nxt_of_Head. obind.
  destruct (store_next_links f1 _ _ (Node x) (Some (hd_ptr l)) HL1)
    as (f2 & -> & HL2 & Hd2 & Hc2); [by apply (same_data_live f) |].
  obind.
  pose proof (same_data_trans _ _ _ Hd1 Hd2) as Hd02.
  rewrite (load_next_links _ _ _ (Node x) HL2) by by apply (same_data_live f).
  unfold upd at 1. rewrite decide_True by done. obind.
  destruct (store_prev_links f2 _ _ (hd_ptr l) (Some (Node x)) HL2)
    as (f3 & -> & HL3 & Hd3 & Hc3); [by apply (same_data_live f) |].
  obind.
  destruct (store_next_links f3 _ _ Head (Some (Node x)) HL3)
    as (f4 & -> & HL4 & Hd4 & Hc4); [apply live_Head |].
  exists f4. split; [done |].
  split; [| split; [exact (same_data_trans _ _ _ (same_data_trans _ _ _ Hd02 Hd3) Hd4) | congruence]].
  eapply links_are_ext; [exact HL4 | |]; intros p; unfold upd.
  - rewrite nxt_of_cons.
    destruct (decide (p = Head)) as [->|HpH]; [done |].
    destruct (decide (p = Node x)) as [->|Hpx]; [done |].
    by destruct (Hagree p) as [-> _].
  - rewrite prv_of_cons by done.
    destruct (decide (p = Node x)) as [->|Hpx].
    + by rewrite decide_False by done.
    + destruct (Hagree p) as [_ ->]; [done |].
      destruct (decide (p = hd_ptr l)) as [->|Hph].
      * rewrite decide_True; [done |]. by apply nxt_to_prv.
      * rewrite decide_False; [done |].
        intros H. apply prv_to_nxt in H; [| done]. simpl in H. congruence.
Qed.

(** The statements that remove the last node of a list that is full. *)
Lemma evict_last_links f l y :
  ring f l -> last l = Some y ->
  exists f',
    (last_node ← load_prev Head f;
     f1 ← (v ← prev_of last_node f; store_prev Head v f);
     f2 ← (a ← prev_of last_node f1; assign_next a (Some Head) f1);
     f3 ← assign_prev last_node None f2;
     assign_next last_node None f3) = Some f' /\
    links_are f' (nxt_of (del y l)) (prv_of (del y l)) /\
    same_data f f' /\ recently_used_count f' = recently_used_count f.
Proof.
  intros Hr Hy. pose proof (ring_links_are _ _ Hr) as HL.
  pose proof (ring_nodup _ _ Hr) as Hnd.
  apply prv_of_Head_last in Hy.
  assert (y ∈ l) as Hyl by by eapply prv_of_Node.
  pose proof (ring_live_node _ _ _ Hr Hyl) as Hly.
  assert (nxt_of l (Node y) = Some Head) as Hny by by apply prv_to_nxt.
  destruct (prv_of l (Node y)) as [b|] eqn:Hb;
    [| by apply prv_of_Node_None in Hb].
  assert (is_Some (load_node b f)) as Hlb by by eapply live_prv.
  rewrite (load_prev_links _ _ _ Head HL (live_Head f)), Hy. obind.
  rewrite (load_prev_links _ _ _ _ HL Hly), Hb. obind.
  destruct (store_prev_links f _ _ Head (Some b) HL (live_Head f))
    as (f1 & -> & HL1 & Hd1 & Hc1).
  obind.
  rewrite (load_prev_links _ _ _ (Node y) HL1) by by apply (same_data_live f).
  unfold upd at 1. rewrite decide_False by done. rewrite Hb. obind.
  destruct (store_next_links f1 _ _ b (Some Head) HL1)
    as (f2 & -> & HL2 & Hd2 & Hc2); [by apply (same_data_live f) |].
  obind.
  pose proof (same_data_trans _ _ _ Hd1 Hd2) as Hd02.
  destruct (store_prev_links f2 _ _ (Node y) None HL2)
    as (f3 & -> & HL3 & Hd3 & Hc3); [by apply (same_data_live f) |].
  obind.
  pose proof (same_data_trans _ _ _ Hd02 Hd3) as Hd03.
  destruct (store_next_links f3 _ _ (Node y) None HL3)
    as (f4 & -> & HL4 & Hd4 & Hc4); [by apply (same_data_live f) |].
  exists f4. split; [done |].
  split; [| split; [exact (same_data_trans _ _ _ Hd03 Hd4) | congruence]].
  eapply links_are_ext; [exact HL4 | |]; intros p; unfold upd.
  - rewrite nxt_of_del by done. rewrite Hny.
    destruct (decide (p = Node y)) as [->|Hpy]; [done |].
    destruct (decide (p = b)) as [->|Hpb].
    + rewrite decide_True; [done |]. by apply prv_to_nxt.
    + rewrite decide_False; [done |].
      intros H. apply nxt_to_prv in H; [| done]. congruence.
  - rewrite prv_of_del by done. rewrite Hb.
    destruct (decide (p = Node y)) as [->|Hpy]; [done |].
    destruct (decide (p = Head)) as [->|HpH].
    + by rewrite decide_True.
    + rewrite decide_False; [done |].
      intros H. apply prv_to_nxt in H; [| done]. congruence.
Qed.

Lemma prv_of_Node_Head l x : NoDup l -> prv_of l (Node x) = Some Head <-> hd_ptr l = Node x.
Proof.
  intros Hnd. split.
  - intros H. apply prv_to_nxt in H; [| done]. simpl in H. congruence.
  - intros H. apply nxt_to_prv; [done |]. simpl. congruence.
Qed.

Lemma wrap32_small z : 0 <= z < 2 ^ 32 -> wrap32 z = z.
Proof. intros. unfold wrap32. by apply Z.mod_small. Qed.

(** [mark_recently_used] promotes the entry in the list, and touches the
    links and the counter only. *)
Lemma mark_recently_used_ring f l x :
  ring f l -> is_Some (icons f !! x) ->
  exists f', mark_recently_used (Node x) f = Some f' /\
    ring f' (promote x l) /\ same_data f f'.
Proof.
  intros Hr Hlx. pose proof (ring_links_are _ _ Hr) as HL.
  pose proof Hr as [Hnd Hcount Hbound Hlive _].
  assert (is_Some (load_node (Node x) f)) as Hnx by by apply fmap_is_Some.
  unfold mark_recently_used, promote.
  rewrite (obind_Some (load_prev (Node x) f) _ _ (load_prev_links _ _ _ _ HL Hnx)).
  destruct (decide (hd_ptr l = Node x)) as [Hhd|Hhd].
  { rewrite decide_False; [| by intros []; apply prv_of_Node_Head].
    exists f. split; [done |]. split; [done | apply same_data_refl]. }
  rewrite decide_True by (by rewrite prv_of_Node_Head).
  rewrite (obind_Some (load_next (Node x) f) _ _ (load_next_links _ _ _ _ HL Hnx)).
  destruct (decide (x ∈ l)) as [Hx|Hx].
  - (* the node is in the list *)
    rewrite decide_True by (by rewrite nxt_of_Node_None; intros []).
    destruct (unlink_links f l x Hr Hx)
      as (f0 & f1 & N & P & HA & HB & HL1 & Hag & Hd1 & Hc1).
    rewrite (obind_Some _ _ _ HA). cbn beta. rewrite (obind_Some _ _ _ HB).
    destruct (insert_head_links f1 (del x l) x N P) as (f2 & -> & HL2 & Hd2 & Hc2);
      try done.
    { by apply NoDup_del. }
    { rewrite elem_of_del. tauto. }
    { by apply (same_data_is_Some f). }
    { intros i [_ Hi]%elem_of_del. apply (same_data_is_Some f); auto. }
    exists f2. split; [done |].
    pose proof (same_data_trans _ _ _ Hd1 Hd2) as Hd.
    split; [| done]. split.
    + apply NoDup_cons. split; [rewrite elem_of_del; tauto | by apply NoDup_del].
    + simpl. rewrite <- length_del by done. congruence.
    + simpl. by rewrite <- length_del.
    + intros i [->|[_ Hi]%elem_of_del]%elem_of_cons;
        apply (same_data_is_Some f); auto.
    + exact HL2.
  - (* the node is not in the list *)
    rewrite decide_False by (by rewrite nxt_of_Node_None; intros H; apply H).
    rewrite Hcount.
    destruct (decide (Z.of_nat (length l) < ICON_CACHE_COUNT)) as [Hlt|Hge].
    + obind.
      destruct (insert_head_links
                  (set_count (wrap32 (Z.of_nat (length l) + 1)) f) l x
                  (nxt_of l) (prv_of l) (links_are_set_count _ _ _ _ HL)
                  (fun p _ => conj eq_refl eq_refl) Hnd Hx Hlx Hlive)
        as (f2 & -> & HL2 & Hd2 & Hc2).
      exists f2. split; [done |].
      split; [| exact (same_data_trans _ _ _ (same_data_set_count _ _) Hd2)].
      split.
      * by apply NoDup_cons.
      * rewrite Hc2. simpl. rewrite wrap32_small; [lia |].
        unfold ICON_CACHE_COUNT in *. lia.
      * simpl length. unfold ICON_CACHE_COUNT in *. lia.
      * intros i [->|Hi]%elem_of_cons; apply (same_data_is_Some _ _ _ Hd2); auto.
      * exact HL2.
    + destruct (last l) as [y|] eqn:Hy.
      2:{ apply last_None in Hy. subst l. unfold ICON_CACHE_COUNT in *.
          simpl in *. lia. }
      destruct (evict_last_links f l y Hr Hy) as (f1 & Hev & HL1 & Hd1 & Hc1).
      rewrite Hev. obind.
      assert (y ∈ l) as Hyl by by apply last_Some_elem_of.
      destruct (insert_head_links f1 (del y l) x _ _ HL1)
        as (f2 & -> & HL2 & Hd2 & Hc2); try done.
      { by apply NoDup_del. }
      { rewrite elem_of_del. tauto. }
      { by apply (same_data_is_Some f). }
      { intros i [_ Hi]%elem_of_del. apply (same_data_is_Some f); auto. }
      exists f2. split; [done |].
      pose proof (same_data_trans _ _ _ Hd1 Hd2) as Hd.
      split; [| done]. split.
      * apply NoDup_cons. split; [rewrite elem_of_del; tauto | by apply NoDup_del].
      * simpl. rewrite <- length_del by done. congruence.
      * simpl. by rewrite <- length_del.
      * intros i [->|[_ Hi]%elem_of_del]%elem_of_cons;
          apply (same_data_is_Some f); auto.
      * exact HL2.
Qed.
(** ** References *)

(** The fields of an updated factory. *)
Ltac fields :=
  cbn [store_icon set_icons set_count set_icon_cache set_sweep_timer
       set_next_alloc set_dummy_head icons icon_cache recently_used_count
       recently_used_dummy_head sweep_timer fallback_icon next_alloc] in *.

Lemma cache_icon_ref_eq f i ic :
  icons f !! i = Some ic -> 1 <= ref_count ic -> ref_count ic + 1 < 2 ^ 32 ->
  cache_icon_ref i f =
    Some (store_icon i (set_ref_count (ref_count ic + 1) ic) f).
Proof.
  intros Hi H1 H2. unfold cache_icon_ref. rewrite Hi. cbn [mbind option_bind].
  rewrite decide_True by done. rewrite wrap32_small by lia. done.
Qed.

Lemma cache_icon_unref_dec f i ic :
  icons f !! i = Some ic -> 1 < ref_count ic < 2 ^ 32 ->
  cache_icon_unref i f =
    Some (store_icon i (set_ref_count (ref_count ic - 1) ic) f).
Proof.
  intros Hi H1. unfold cache_icon_unref. rewrite Hi. cbn [mbind option_bind].
  rewrite decide_True by lia. rewrite decide_True by lia.
  rewrite wrap32_small by lia. done.
Qed.

Lemma load_node_store_icon f i ic ic' p :
  icons f !! i = Some ic ->
  recently_used_node ic' = recently_used_node ic ->
  load_node p (store_icon i ic' f) = load_node p f.
Proof.
  intros Hi Hn. destruct p as [|j]; [done |]. unfold load_node. fields.
  destruct (decide (j = i)) as [->|Hji].
  - rewrite lookup_insert_eq, Hi. simpl. by rewrite Hn.
  - by rewrite lookup_insert_ne.
Qed.

Lemma is_Some_store_icon f i ic ic' j :
  icons f !! i = Some ic ->
  is_Some (icons (store_icon i ic' f) !! j) <-> is_Some (icons f !! j).
Proof.
  intros Hi. fields. destruct (decide (j = i)) as [->|Hji].
  - rewrite lookup_insert_eq, Hi. split; eauto.
  - by rewrite lookup_insert_ne.
Qed.

(** A store to an entry that keeps its node keeps the list. *)
Lemma ring_store_icon f l i ic ic' :
  ring f l -> icons f !! i = Some ic ->
  recently_used_node ic' = recently_used_node ic ->
  ring (store_icon i ic' f) l.
Proof.
  intros [Hnd Hc Hb Hl HL] Hi Hn. split; try done.
  - intros j Hj. apply (is_Some_store_icon f i ic); auto.
  - intros p c. rewrite (load_node_store_icon f i ic) by done. apply HL.
Qed.

Lemma load_node_delete f i p :
  p <> Node i ->
  load_node p (set_icons (delete i (icons f)) f) = load_node p f.
Proof.
  intros Hp. destruct p as [|j]; [done |]. unfold load_node. fields.
  rewrite lookup_delete_ne by congruence. done.
Qed.

Lemma load_node_delete_eq f i :
  load_node (Node i) (set_icons (delete i (icons f)) f) = None.
Proof. unfold load_node. fields. by rewrite lookup_delete_eq. Qed.

(** Freeing an entry whose neighbours do not point to it any more. *)
Lemma ring_delete f l i N P c :
  links_are f N P ->
  (forall p, p <> Node i -> N p = nxt_of l p /\ P p = prv_of l p) ->
  NoDup l -> i ∉ l ->
  (forall j, j ∈ l -> is_Some (icons f !! j)) ->
  c = Z.of_nat (length l) -> c <= ICON_CACHE_COUNT ->
  ring (set_icons (delete i (icons (set_count c f))) (set_count c f)) l.
Proof.
  intros HL Hag Hnd Hi Hlive -> Hb. split; try done.
  - intros j Hj. fields. rewrite lookup_delete_ne by (intros ->; done). auto.
  - intros p c. destruct (decide (p = Node i)) as [->|Hp].
    + by rewrite load_node_delete_eq.
    + rewrite load_node_delete by done. intros Hc.
      destruct (Hag p Hp) as [<- <-]. apply HL.
      by destruct p.
Qed.

Lemma set_count_id f : set_count (recently_used_count f) f = f.
Proof. by destruct f. Qed.

Lemma cache_icon_unref_free f l i ic :
  ring f l -> icons f !! i = Some ic -> ref_count ic = 1 ->
  exists f', cache_icon_unref i f = Some f' /\
    ring f' (del i l) /\ freed i f f'.
Proof.
  intros Hr Hi Hrc. unfold cache_icon_unref. rewrite Hi. cbn [mbind option_bind].
  rewrite decide_True by lia. rewrite decide_False by lia.
  set (f0 := store_icon i (set_ref_count 0 ic) f).
  assert (ring f0 l) as Hr0 by by apply (ring_store_icon f l i ic).
  pose proof (ring_links_are _ _ Hr0) as HL0.
  pose proof Hr0 as [Hnd Hcount Hbound Hlive _].
  assert (is_Some (icons f0 !! i)) as Hli
    by (apply (is_Some_store_icon f i ic); eauto).
  assert (is_Some (load_node (Node i) f0)) as Hni by by apply fmap_is_Some.
  assert (strip <$> icons f0 = <[i := strip (set_ref_count 0 ic)]> (strip <$> icons f))
    as Hs0 by apply fmap_insert.
  rewrite (obind_Some (load_next (Node i) f0) _ _ (load_next_links _ _ _ _ HL0 Hni)).
  destruct (decide (i ∈ l)) as [Hil|Hil].
  - rewrite decide_True by (by rewrite nxt_of_Node_None; intros []).
    destruct (unlink_links f0 l i Hr0 Hil)
      as (fa & f1 & N & P & HA & HB & HL1 & Hag & Hd1 & Hc1).
    rewrite (obind_Some _ _ _ HA). cbn beta. rewrite (obind_Some _ _ _ HB).
    cbn beta.
    destruct (store_next_links f1 _ _ (Node i) None HL1)
      as (f2 & -> & HL2 & Hd2 & Hc2); [by apply (same_data_live f0) |].
    obind.
    pose proof (same_data_trans _ _ _ Hd1 Hd2) as Hd02.
    destruct (store_prev_links f2 _ _ (Node i) None HL2)
      as (f3 & -> & HL3 & Hd3 & Hc3); [by apply (same_data_live f0) |].
    obind.
    pose proof (same_data_trans _ _ _ Hd02 Hd3) as Hd03.
    eexists. split; [done |].
    assert (recently_used_count f3 = Z.of_nat (length l)) as Hc by congruence.
    pose proof (length_del i l Hnd Hil) as Hlen.
    rewrite Hc, wrap32_small by (unfold ICON_CACHE_COUNT in *; lia).
    split.
    + eapply ring_delete; [exact HL3 | | by apply NoDup_del | | | lia | lia].
      * intros p Hp. unfold upd. rewrite !decide_False by done. by apply Hag.
      * rewrite elem_of_del. tauto.
      * intros j [_ Hj]%elem_of_del. apply (same_data_is_Some f0); auto.
    + destruct Hd03 as [E1 E2 E3 E4 E5]. split; try done. fields.
      rewrite fmap_delete, E5, Hs0. apply delete_insert_eq.
  - rewrite decide_False by (by rewrite nxt_of_Node_None; intros H; apply H).
    obind. eexists. split; [done |]. rewrite del_notin by done. split.
    + rewrite <- (set_count_id f0).
      eapply ring_delete; [exact HL0 | done | done | done | done | done | lia].
    + split; try done. fields.
      rewrite fmap_delete, Hs0. apply delete_insert_eq.
Qed.

(** ** The reference counts *)

Lemma rc_of_store_icon f i ic' j :
  rc_of (store_icon i ic' f) j =
    if decide (j = i) then Some (ref_count ic') else rc_of f j.
Proof.
  unfold rc_of. fields. case_decide as H.
  - subst. by rewrite lookup_insert_eq.
  - by rewrite lookup_insert_ne.
Qed.

Lemma rc_of_strip f f' j :
  strip <$> icons f' !! j = strip <$> icons f !! j -> rc_of f' j = rc_of f j.
Proof.
  unfold rc_of. intros H.
  destruct (icons f' !! j) as [a|], (icons f !! j) as [b|]; try done.
  injection H as H _ _ _ _. simpl. by f_equal.
Qed.

Lemma rc_of_same_data f f' j : same_data f f' -> rc_of f' j = rc_of f j.
Proof. intros H. apply rc_of_strip. by apply same_data_lookup. Qed.

Lemma rc_of_touched i f f' j : touched i f f' -> j <> i -> rc_of f' j = rc_of f j.
Proof. intros H Hj. apply rc_of_strip. by apply H. Qed.

Lemma freed_lookup i f f' j :
  freed i f f' ->
  strip <$> icons f' !! j =
    if decide (j = i) then None else strip <$> icons f !! j.
Proof.
  intros [_ _ _ _ H]. rewrite <- !lookup_fmap, H. case_decide.
  - subst. apply lookup_delete_eq.
  - by apply lookup_delete_ne.
Qed.

Lemma rc_of_freed i f f' j :
  freed i f f' -> rc_of f' j = if decide (j = i) then None else rc_of f j.
Proof.
  intros H. pose proof (freed_lookup i f f' j H) as Hl. case_decide.
  - unfold rc_of. by destruct (icons f' !! j).
  - by apply rc_of_strip.
Qed.

Lemma freed_touched i f f' : freed i f f' -> touched i f f'.
Proof.
  intros H. pose proof H as []. split; try done.
  intros j Hj. rewrite (freed_lookup i f f' j H). by rewrite decide_False.
Qed.

Lemma same_data_touched i f f' : same_data f f' -> touched i f f'.
Proof.
  intros H. pose proof H as []. split; try done.
  intros j _. by apply same_data_lookup.
Qed.

Lemma touched_store_icon f i ic' : touched i f (store_icon i ic' f).
Proof.
  split; try done. intros j Hj. fields. by rewrite lookup_insert_ne.
Qed.

Lemma touched_refl i f : touched i f f.
Proof. by split. Qed.

Lemma touched_trans i f1 f2 f3 :
  touched i f1 f2 -> touched i f2 f3 -> touched i f1 f3.
Proof.
  intros [A1 A2 A3 A4 A5] [B1 B2 B3 B4 B5]. split; try congruence.
  intros j Hj. rewrite B5 by done. by apply A5.
Qed.

Lemma touched_is_Some i f f' j :
  touched i f f' -> j <> i -> is_Some (icons f' !! j) <-> is_Some (icons f !! j).
Proof.
  intros H Hj.
  rewrite <- (fmap_is_Some strip (icons f' !! j)).
  rewrite <- (fmap_is_Some strip (icons f !! j)).
  by rewrite (touched_others _ _ _ H j Hj).
Qed.

Lemma rc_of_is_Some f i : is_Some (rc_of f i) <-> is_Some (icons f !! i).
Proof. unfold rc_of. apply fmap_is_Some. Qed.

Lemma rc_of_Some f i rc :
  rc_of f i = Some rc -> exists ic, icons f !! i = Some ic /\ ref_count ic = rc.
Proof.
  unfold rc_of. destruct (icons f !! i) as [ic|]; [| done].
  intros [= <-]. eauto.
Qed.

(** ** The accounting *)

Lemma count_refs_nonneg T i : 0 <= count_refs T i.
Proof.
  induction T as [|[k v] T IH]; simpl; [done |]. case_decide; lia.
Qed.

Lemma fallback_ref_nonneg f i : 0 <= fallback_ref f i.
Proof. unfold fallback_ref. case_decide; lia. Qed.

Lemma accounted_for_store T ext f i ic ic' :
  accounted_for T ext f -> icons f !! i = Some ic ->
  1 <= ref_count ic' < 2 ^ 32 ->
  accounted_for T (ext_add i (ref_count ic' - ref_count ic) ext)
    (store_icon i ic' f).
Proof.
  intros Hacc Hi Hrc j. specialize (Hacc j).
  rewrite rc_of_store_icon. unfold ext_add.
  change (fallback_ref (store_icon i ic' f) j) with (fallback_ref f j).
  case_decide as Hj; [| done].
  subst. unfold rc_of in Hacc. rewrite Hi in Hacc. simpl in Hacc. lia.
Qed.

Lemma accounted_for_freed T ext f f' i :
  accounted_for T ext f -> rc_of f i = Some 1 -> 1 <= ext i ->
  freed i f f' ->
  accounted_for T (ext_add i (-1) ext) f'.
Proof.
  intros Hacc Hi Hext Hfr j. specialize (Hacc j).
  rewrite (rc_of_freed i f f' j Hfr). unfold ext_add.
  replace (fallback_ref f' j) with (fallback_ref f j)
    by (unfold fallback_ref; by rewrite (freed_fallback_icon _ _ _ Hfr)).
  case_decide as Hj; [| done].
  subst. rewrite Hi in Hacc.
  pose proof (count_refs_nonneg T i). pose proof (fallback_ref_nonneg f i). lia.
Qed.

Lemma accounted_for_touched_rc T ext f f' :
  accounted_for T ext f -> fallback_icon f' = fallback_icon f ->
  (forall j, rc_of f' j = rc_of f j) ->
  accounted_for T ext f'.
Proof.
  intros Hacc Hfb Hrc j. specialize (Hacc j). rewrite Hrc.
  replace (fallback_ref f' j) with (fallback_ref f j)
    by (unfold fallback_ref; by rewrite Hfb).
  done.
Qed.

Lemma accounted_for_same_data T ext f f' :
  same_data f f' -> accounted_for T ext f -> accounted_for T ext f'.
Proof.
  intros H Hacc. eapply accounted_for_touched_rc; [done | apply H |].
  intros j. by apply rc_of_same_data.
Qed.

Lemma accounted_for_shift T ext T' ext' f :
  accounted_for T ext f ->
  (forall j, count_refs T' j + ext' j = count_refs T j + ext j) ->
  (forall j, rc_of f j = None -> ext' j = 0 /\ count_refs T' j = 0) ->
  accounted_for T' ext' f.
Proof.
  intros Hacc Hsh Hnone j. specialize (Hacc j). specialize (Hsh j).
  destruct (rc_of f j) as [rc|] eqn:E.
  - lia.
  - destruct (Hnone j E). lia.
Qed.

Lemma accounted_for_ext T ext ext' f :
  (forall j, ext j = ext' j) -> accounted_for T ext f -> accounted_for T ext' f.
Proof.
  intros He Hacc j. specialize (Hacc j). rewrite <- He. done.
Qed.

Lemma accounted_for_alloc T ext f i ic :
  accounted_for T ext f -> icons f !! i = None -> ref_count ic = 1 ->
  accounted_for T (ext_add i 1 ext) (store_icon i ic f).
Proof.
  intros Hacc Hi Hrc j. specialize (Hacc j).
  rewrite rc_of_store_icon. unfold ext_add.
  change (fallback_ref (store_icon i ic f) j) with (fallback_ref f j).
  case_decide as Hj; [| done].
  subst. unfold rc_of in Hacc. rewrite Hi in Hacc. simpl in Hacc. lia.
Qed.

Lemma accounted_for_live T ext f i :
  accounted_for T ext f -> 1 <= count_refs T i + fallback_ref f i + ext i ->
  is_Some (rc_of f i).
Proof.
  intros Hacc H. specialize (Hacc i). destruct (rc_of f i); [eauto | lia].
Qed.

(** ** Dropping a reference *)

Lemma cache_icon_unref_spec T ext f l i :
  ring f l -> accounted_for T ext f -> 1 <= ext i ->
  exists f', cache_icon_unref i f = Some f' /\
    ring f' (after_unref f i l) /\
    accounted_for T (ext_add i (-1) ext) f' /\
    touched i f f' /\
    icons f' !! i =
      (if decide (rc_of f i = Some 1) then None
       else (fun ic => set_ref_count (ref_count ic - 1) ic) <$> icons f !! i).
Proof.
  intros Hr Hacc Hext.
  destruct (accounted_for_live T ext f i Hacc) as [rc Hrc].
  { pose proof (count_refs_nonneg T i). pose proof (fallback_ref_nonneg f i). lia. }
  destruct (rc_of_Some _ _ _ Hrc) as (ic & Hi & Hic).
  pose proof (Hacc i) as Hb. rewrite Hrc in Hb.
  unfold after_unref. rewrite Hrc.
  destruct (decide (rc = 1)) as [->|Hne].
  - rewrite decide_True by done.
    destruct (cache_icon_unref_free f l i ic Hr Hi Hic) as (f' & E & Hr' & Hfr).
    exists f'. split; [done |]. split; [done |].
    split; [by eapply accounted_for_freed |].
    split; [by apply freed_touched |].
    pose proof (freed_lookup i f f' i Hfr) as Hl.
    rewrite decide_True in Hl by done.
    by destruct (icons f' !! i).
  - rewrite decide_False by congruence.
    rewrite (cache_icon_unref_dec f i ic Hi) by lia.
    eexists. split; [done |].
    split; [by apply (ring_store_icon f l i ic) |].
    split.
    + replace (-1) with (ref_count (set_ref_count (ref_count ic - 1) ic) - ref_count ic)
        by (simpl; lia).
      apply accounted_for_store; [done | done | simpl; lia].
    + split; [apply touched_store_icon |].
      rewrite decide_False by congruence. fields.
      by rewrite lookup_insert_eq, Hi.
Qed.

Lemma cache_icon_ref_spec T ext f l i rc :
  ring f l -> accounted_for T ext f -> rc_of f i = Some rc ->
  rc + 1 < 2 ^ 32 ->
  exists f', cache_icon_ref i f = Some f' /\
    ring f' l /\
    accounted_for T (ext_add i 1 ext) f' /\
    touched i f f' /\
    rc_of f' i = Some (rc + 1).
Proof.
  intros Hr Hacc Hrc Hroom.
  destruct (rc_of_Some _ _ _ Hrc) as (ic & Hi & Hic).
  pose proof (Hacc i) as Hb. rewrite Hrc in Hb.
  rewrite (cache_icon_ref_eq f i ic Hi) by lia.
  eexists. split; [done |].
  split; [by apply (ring_store_icon f l i ic) |].
  split.
  - replace 1 with (ref_count (set_ref_count (ref_count ic + 1) ic) - ref_count ic)
      at 1 by (simpl; lia).
    apply accounted_for_store; [done | done | simpl; lia].
  - split; [apply touched_store_icon |].
    rewrite rc_of_store_icon, decide_True by done. simpl. by rewrite Hic.
Qed.

(** * The keys *)

Lemma strcmp_eq a b : strcmp a b = 0 <-> a = b.
Proof.
  revert b. induction a as [|c a IH]; intros [|d b]; simpl; try done.
  destruct (N.compare_spec (N_of_ascii c) (N_of_ascii d)) as [E|E|E].
  - assert (c = d) as ->.
    { rewrite <- (ascii_N_embedding c), <- (ascii_N_embedding d). by rewrite E. }
    rewrite IH. split; [by intros -> | by intros [= ->]].
  - split; [done |]. intros [= -> _]. lia.
  - split; [done |]. intros [= -> _]. lia.
Qed.

(** Two keys compare equal when their fields are the same, a null modifier
    counting as the empty one. *)
Lemma cache_key_equal_fields a b :
  cache_key_equal a b = true <-> key_fields a = key_fields b.
Proof.
  unfold cache_key_equal, key_fields, eel_strcmp.
  rewrite !andb_true_iff, !Z.eqb_eq, !strcmp_eq. simpl.
  split.
  - intros [[[-> ->] ->] ->]. done.
  - intros [= -> -> -> ->]. done.
Qed.

Lemma cache_key_equal_refl a : cache_key_equal a a = true.
Proof. by apply cache_key_equal_fields. Qed.

Lemma cache_key_equal_sym a b : cache_key_equal a b = cache_key_equal b a.
Proof.
  destruct (cache_key_equal a b) eqn:E1, (cache_key_equal b a) eqn:E2; try done.
  - apply cache_key_equal_fields in E1.
    symmetry in E1. apply cache_key_equal_fields in E1. congruence.
  - apply cache_key_equal_fields in E2.
    symmetry in E2. apply cache_key_equal_fields in E2. congruence.
Qed.

Lemma cache_key_equal_trans a b c :
  cache_key_equal a b = true -> cache_key_equal b c = true ->
  cache_key_equal a c = true.
Proof. rewrite !cache_key_equal_fields. congruence. Qed.

Lemma cache_key_equal_congr a b c :
  cache_key_equal a b = true -> cache_key_equal c a = cache_key_equal c b.
Proof.
  intros Hab.
  destruct (cache_key_equal c a) eqn:E1, (cache_key_equal c b) eqn:E2; try done.
  - rewrite (cache_key_equal_trans c a b) in E2; done.
  - rewrite cache_key_equal_sym in Hab.
    rewrite (cache_key_equal_trans c b a) in E1; done.
Qed.

(** * The table *)

Lemma lookup_equal_keys T a b :
  cache_key_equal a b = true ->
  g_hash_table_lookup T a = g_hash_table_lookup T b.
Proof.
  intros Hab. induction T as [|[k v] T IH]; simpl; [done |].
  rewrite (cache_key_equal_congr a b k Hab). by rewrite IH.
Qed.

Lemma lookup_replace_value T k v k' :
  is_Some (g_hash_table_lookup T k) ->
  g_hash_table_lookup (replace_value T k v) k' =
    if cache_key_equal k k' then Some v else g_hash_table_lookup T k'.
Proof.
  induction T as [|[s w] T IH]; simpl; [by intros [? ?] |].
  destruct (cache_key_equal s k) eqn:Esk.
  - intros _. simpl.
    rewrite (cache_key_equal_sym s k'), (cache_key_equal_sym k k').
    rewrite (cache_key_equal_congr s k k' Esk).
    by destruct (cache_key_equal k' k).
  - intros H. simpl. destruct (cache_key_equal s k') eqn:Esk'.
    + destruct (cache_key_equal k k') eqn:Ekk'; [| done].
      rewrite (cache_key_equal_sym k k') in Ekk'.
      rewrite (cache_key_equal_trans s k' k) in Esk; done.
    + by apply IH.
Qed.

Lemma lookup_unlink_node T k k' :
  cache_key_equal k k' = false ->
  g_hash_table_lookup (unlink_node T k) k' = g_hash_table_lookup T k'.
Proof.
  intros Hkk'. induction T as [|[s w] T IH]; simpl; [done |].
  destruct (cache_key_equal s k) eqn:Esk; simpl.
  - destruct (cache_key_equal s k') eqn:Esk'; [| done].
    rewrite (cache_key_equal_sym s k) in Esk.
    rewrite (cache_key_equal_trans k s k') in Hkk'; done.
  - by rewrite IH.
Qed.

Lemma lookup_unlink_node_eq T k k' :
  keys_distinct T -> cache_key_equal k k' = true ->
  g_hash_table_lookup (unlink_node T k) k' = None.
Proof.
  intros Hd Hkk'. rewrite <- (lookup_equal_keys _ k k' Hkk').
  induction T as [|[s w] T IH]; simpl; [done |].
  destruct Hd as [Hs Hd].
  destruct (cache_key_equal s k) eqn:Esk; simpl.
  - by rewrite <- (lookup_equal_keys _ s k Esk).
  - rewrite Esk. auto.
Qed.

Lemma count_refs_app T1 T2 i :
  count_refs (T1 ++ T2) i = count_refs T1 i + count_refs T2 i.
Proof.
  induction T1 as [|[k v] T1 IH]; simpl; [done |]. rewrite IH. lia.
Qed.

Lemma count_refs_replace_value T k old v i :
  g_hash_table_lookup T k = Some old ->
  count_refs (replace_value T k v) i =
    count_refs T i - (if decide (old = i) then 1 else 0)
                   + (if decide (v = i) then 1 else 0).
Proof.
  induction T as [|[s w] T IH]; simpl; [done |].
  destruct (cache_key_equal s k).
  - intros [= ->]. simpl. lia.
  - intros H. simpl. rewrite IH by done. lia.
Qed.

Lemma count_refs_unlink_node T k v i :
  g_hash_table_lookup T k = Some v ->
  count_refs (unlink_node T k) i =
    count_refs T i - (if decide (v = i) then 1 else 0).
Proof.
  induction T as [|[s w] T IH]; simpl; [done |].
  destruct (cache_key_equal s k).
  - intros [= ->]. lia.
  - intros H. simpl. rewrite IH by done. lia.
Qed.

Lemma count_refs_lookup T k v :
  g_hash_table_lookup T k = Some v -> 1 <= count_refs T v.
Proof.
  induction T as [|[s w] T IH]; simpl; [done |].
  destruct (cache_key_equal s k).
  - intros [= ->]. rewrite decide_True by done.
    pose proof (count_refs_nonneg T v). lia.
  - intros H%IH. case_decide; lia.
Qed.

Lemma count_refs_elem_of T k v : (k, v) ∈ T -> 1 <= count_refs T v.
Proof.
  induction T as [|[s w] T IH]; [by intros ?%elem_of_nil |].
  simpl. intros [[= -> ->]|H]%elem_of_cons.
  - rewrite decide_True by done. pose proof (count_refs_nonneg T w). lia.
  - apply IH in H. case_decide; lia.
Qed.

Lemma count_refs_filter (P : CacheKey * icon_ptr -> Prop)
    `{!forall x, Decision (P x)} T i :
  count_refs (filter P T) i <= count_refs T i.
Proof.
  induction T as [|[s w] T IH]; [done |].
  rewrite filter_cons. case_decide; simpl; [lia |].
  case_decide; lia.
Qed.

Lemma lookup_filter_None (P : CacheKey * icon_ptr -> Prop)
    `{!forall x, Decision (P x)} T k :
  g_hash_table_lookup T k = None -> g_hash_table_lookup (filter P T) k = None.
Proof.
  induction T as [|[s w] T IH]; [done |].
  rewrite filter_cons. simpl.
  destruct (cache_key_equal s k) eqn:E; [done |].
  intros Hl. case_decide; simpl; [rewrite E |]; auto.
Qed.

Lemma keys_distinct_filter (P : CacheKey * icon_ptr -> Prop)
    `{!forall x, Decision (P x)} T :
  keys_distinct T -> keys_distinct (filter P T).
Proof.
  induction T as [|[s w] T IH]; [done |].
  intros [Hs Hd]. rewrite filter_cons. case_decide; simpl; auto.
  split; [by apply lookup_filter_None | auto].
Qed.

Lemma lookup_replace_value_None T k v k' :
  g_hash_table_lookup T k' = None ->
  g_hash_table_lookup (replace_value T k v) k' = None.
Proof.
  induction T as [|[s w] T IH]; simpl; [done |].
  destruct (cache_key_equal s k') eqn:E; [done |].
  intros H. destruct (cache_key_equal s k); simpl; rewrite E; auto.
Qed.

Lemma keys_distinct_replace_value T k v :
  keys_distinct T -> keys_distinct (replace_value T k v).
Proof.
  induction T as [|[s w] T IH]; simpl; [done |].
  intros [Hs Hd]. destruct (cache_key_equal s k); simpl; [done |].
  split; [by apply lookup_replace_value_None | auto].
Qed.

Lemma lookup_unlink_node_None T k k' :
  g_hash_table_lookup T k' = None ->
  g_hash_table_lookup (unlink_node T k) k' = None.
Proof.
  induction T as [|[s w] T IH]; simpl; [done |].
  destruct (cache_key_equal s k') eqn:E; [done |].
  intros H. destruct (cache_key_equal s k); simpl; [done |]. rewrite E; auto.
Qed.

Lemma keys_distinct_unlink_node T k :
  keys_distinct T -> keys_distinct (unlink_node T k).
Proof.
  induction T as [|[s w] T IH]; simpl; [done |].
  intros [Hs Hd]. destruct (cache_key_equal s k); simpl; [done |].
  split; [by apply lookup_unlink_node_None | auto].
Qed.

Lemma lookup_elem_of T k v :
  g_hash_table_lookup T k = Some v ->
  exists s, (s, v) ∈ T /\ cache_key_equal s k = true.
Proof.
  induction T as [|[s w] T IH]; simpl; [done |].
  destruct (cache_key_equal s k) eqn:E.
  - intros [= ->]. exists s. split; [left | done].
  - intros (s' & H & E')%IH. exists s'. split; [by right | done].
Qed.

(** * Removing nodes from the table *)

Lemma ring_set_icon_cache f l T : ring f l -> ring (set_icon_cache T f) l.
Proof. intros []. by split. Qed.

Lemma ext_add_cancel i ext j : ext_add i (-1) (ext_add i 1 ext) j = ext j.
Proof. unfold ext_add. case_decide; lia. Qed.

Lemma after_unref_subseteq f i l : after_unref f i l ⊆ l.
Proof.
  unfold after_unref. case_decide; [| done].
  intros j [_ Hj]%elem_of_del. done.
Qed.

(** A node is unlinked from the table and its value destroyed. *)
Lemma unref_unlinked ext f l kept k v rest :
  ring f l -> accounted_for (kept ++ (k, v) :: rest) ext f -> 0 <= ext v ->
  exists f', cache_icon_unref v (set_icon_cache (kept ++ rest) f) = Some f' /\
    ring f' (after_unref f v l) /\
    accounted_for (kept ++ rest) ext f' /\
    touched v (set_icon_cache (kept ++ rest) f) f' /\
    icons f' !! v =
      (if decide (rc_of f v = Some 1) then None
       else (fun ic => set_ref_count (ref_count ic - 1) ic) <$> icons f !! v).
Proof.
  intros Hr Hacc Hext.
  set (g := set_icon_cache (kept ++ rest) f).
  assert (accounted_for (kept ++ rest) (ext_add v 1 ext) g) as Hacc'.
  { apply (accounted_for_shift (kept ++ (k, v) :: rest) ext); [exact Hacc | |].
    - intros j. rewrite !count_refs_app. simpl. unfold ext_add.
      repeat case_decide; simplify_eq; lia.
    - intros j Hj. specialize (Hacc j).
      change (rc_of g j) with (rc_of f j) in Hj. rewrite Hj in Hacc.
      rewrite !count_refs_app in *. simpl in Hacc. unfold ext_add.
      pose proof (count_refs_nonneg kept j).
      pose proof (count_refs_nonneg rest j).
      pose proof (fallback_ref_nonneg f j).
      repeat case_decide; simplify_eq; lia. }
  destruct (cache_icon_unref_spec (kept ++ rest) (ext_add v 1 ext) g l v)
    as (f' & E & Hr' & Hacc'' & Ht & Hv).
  { by apply ring_set_icon_cache. }
  { done. }
  { unfold ext_add. rewrite decide_True by done. lia. }
  exists f'. split; [done |]. split; [done |].
  split; [| done].
  eapply accounted_for_ext; [| exact Hacc'']. apply ext_add_cancel.
Qed.

Section foreach_remove.

(** The function called on every node answers [d key value], whatever the
    state, and keeps [J], the list and the accounting; [J] stands the
    destruction of a value. *)
Variable func :
  CacheKey -> icon_ptr -> NautilusIconFactory -> option (NautilusIconFactory * bool).
Variable d : CacheKey -> icon_ptr -> bool.
Variable J : list icon_ptr -> NautilusIconFactory -> Prop.

Hypothesis func_spec : forall k v f l T ext,
  J l f -> ring f l -> accounted_for T ext f -> is_Some (icons f !! v) ->
  exists f1, func k v f = Some (f1, d k v) /\
    ring f1 l /\ accounted_for T ext f1 /\ touched v f f1 /\ J l f1 /\
    rc_of f1 v = rc_of f v.

Hypothesis J_set_icon_cache : forall l f T, J l f -> J l (set_icon_cache T f).

Hypothesis J_unref : forall k v f f' l,
  J l f -> d k v = true -> ring f l -> touched v f f' ->
  icons f' !! v =
    (if decide (rc_of f v = Some 1) then None
     else (fun ic => set_ref_count (ref_count ic - 1) ic) <$> icons f !! v) ->
  J (after_unref f v l) f'.

Lemma foreach_remove_nodes_spec ext todo : forall kept f l,
  (forall i, 0 <= ext i) ->
  J l f -> ring f l -> accounted_for (kept ++ todo) ext f ->
  icon_cache f = kept ++ todo ->
  exists f' l', foreach_remove_nodes func kept todo f = Some f' /\
    icon_cache f' = kept ++ filter (fun kv => d kv.1 kv.2 = false) todo /\
    ring f' l' /\ J l' f' /\ accounted ext f' /\
    fallback_icon f' = fallback_icon f /\
    next_alloc f' = next_alloc f /\
    sweep_timer f' = sweep_timer f /\
    (forall j, is_Some (icons f' !! j) -> is_Some (icons f !! j)) /\
    l' ⊆ l.
Proof.
  induction todo as [|[k v] rest IH]; intros kept f l Hext HJ Hr Hacc Htab.
  { exists f, l. rewrite filter_nil. cbn [foreach_remove_nodes].
    split; [done |]. split; [done |]. split; [done |]. split; [done |].
    split; [unfold accounted; by rewrite Htab |]. done. }
  cbn [foreach_remove_nodes].
  assert (is_Some (icons f !! v)) as Hv.
  { apply rc_of_is_Some. eapply accounted_for_live; [exact Hacc |].
    rewrite count_refs_app. simpl. rewrite decide_True by done.
    pose proof (count_refs_nonneg kept v). pose proof (count_refs_nonneg rest v).
    pose proof (fallback_ref_nonneg f v). specialize (Hext v). lia. }
  destruct (func_spec k v f l _ ext HJ Hr Hacc Hv)
    as (f1 & -> & Hr1 & Hacc1 & Ht1 & HJ1 & Hrc1).
  cbn [mbind option_bind]. rewrite filter_cons. cbn [fst snd].
  destruct (d k v) eqn:Ed.
  - (* the node is removed *)
    destruct (unref_unlinked ext f1 l kept k v rest Hr1 Hacc1 (Hext v))
      as (f2 & -> & Hr2 & Hacc2 & Ht2 & Hv2).
    cbn [mbind option_bind].
    destruct (IH kept f2 (after_unref f1 v l)) as
      (f' & l' & -> & Htab' & Hr' & HJ' & Hacc' & Hfb & Hna & Hsw & Hlive & Hsub);
      try done.
    { eapply (J_unref k v (set_icon_cache (kept ++ rest) f1)); try done.
      - by apply J_set_icon_cache.
      - by apply ring_set_icon_cache. }
    { by rewrite (touched_icon_cache _ _ _ Ht2). }
    exists f', l'. rewrite decide_False by done.
    split; [done |]. split; [done |]. split; [done |]. split; [done |].
    split; [done |].
    split; [rewrite Hfb, (touched_fallback_icon _ _ _ Ht2);
            exact (touched_fallback_icon _ _ _ Ht1) |].
    split; [rewrite Hna, (touched_next_alloc _ _ _ Ht2);
            exact (touched_next_alloc _ _ _ Ht1) |].
    split; [rewrite Hsw, (touched_sweep_timer _ _ _ Ht2);
            exact (touched_sweep_timer _ _ _ Ht1) |].
    split.
    + intros j Hj%Hlive. destruct (decide (j = v)) as [->|Hjv]; [done |].
      apply (touched_is_Some v f f1 j Ht1 Hjv).
      by apply (touched_is_Some v _ f2 j Ht2 Hjv).
    + intros j Hj%Hsub. by eapply after_unref_subseteq.
  - (* the node is kept *)
    destruct (IH (kept ++ [(k, v)]) f1 l) as
      (f' & l' & -> & Htab' & Hr' & HJ' & Hacc' & Hfb & Hna & Hsw & Hlive & Hsub);
      try done.
    { by rewrite <- app_assoc. }
    { rewrite <- app_assoc. by rewrite (touched_icon_cache _ _ _ Ht1). }
    exists f', l'. rewrite decide_True by done.
    split; [done |]. split; [by rewrite Htab', <- app_assoc |].
    split; [done |]. split; [done |]. split; [done |].
    split; [by rewrite Hfb, (touched_fallback_icon _ _ _ Ht1) |].
    split; [by rewrite Hna, (touched_next_alloc _ _ _ Ht1) |].
    split; [by rewrite Hsw, (touched_sweep_timer _ _ _ Ht1) |].
    split; [| done].
    intros j Hj%Hlive. destruct (decide (j = v)) as [->|Hjv]; [done |].
    by apply (touched_is_Some v f f1 j Ht1 Hjv).
Qed.

End foreach_remove.

(** * The sweep *)

Lemma descends_refl f : descends f f.
Proof. intros j ic H. eauto. Qed.

Lemma strip_fields a b :
  strip a = strip b ->
  pixbuf a = pixbuf b /\ mtime a = mtime b /\ display_name a = display_name b /\
  ref_count a = ref_count b /\ age a = age b.
Proof. intros [= ? ? ? ? ?]. done. Qed.

Lemma descends_step f0 f f' v :
  descends f0 f -> touched v f f' ->
  (forall ic', icons f' !! v = Some ic' ->
     exists ic, icons f !! v = Some ic /\ pixbuf ic' = pixbuf ic /\
       mtime ic' = mtime ic /\ display_name ic' = display_name ic) ->
  descends f0 f'.
Proof.
  intros Hd Ht Hv j ic' Hj. destruct (decide (j = v)) as [->|Hjv].
  - destruct (Hv ic' Hj) as (ic & Hic & -> & -> & ->). eauto.
  - pose proof (touched_others _ _ _ Ht j Hjv) as Hs. rewrite Hj in Hs.
    destruct (icons f !! j) as [ic|] eqn:E; [| done].
    simpl in Hs. assert (strip ic' = strip ic) as Hs' by congruence.
    apply strip_fields in Hs' as (-> & -> & -> & _).
    by apply Hd.
Qed.

Lemma ring_node_eq f l i ic :
  ring f l -> icons f !! i = Some ic ->
  recently_used_node ic = {| next := nxt_of l (Node i); prev := prv_of l (Node i) |}.
Proof.
  intros Hr Hi. apply (ring_links f l Hr (Node i)).
  unfold load_node. by rewrite Hi.
Qed.

Lemma accounted_for_store_same_rc T ext f i ic ic' :
  accounted_for T ext f -> icons f !! i = Some ic ->
  ref_count ic' = ref_count ic ->
  accounted_for T ext (store_icon i ic' f).
Proof.
  intros Hacc Hi Hrc.
  pose proof (Hacc i) as Hb. unfold rc_of in Hb. rewrite Hi in Hb. simpl in Hb.
  eapply accounted_for_ext;
    [| apply (accounted_for_store T ext f i ic ic' Hacc Hi); lia].
  intros j. unfold ext_add. case_decide; lia.
Qed.

Lemma possibly_free_spec f0 l0 k v f l T ext :
  sweeping f0 l0 l f -> ring f l -> accounted_for T ext f ->
  is_Some (icons f !! v) ->
  exists f1,
    nautilus_icon_factory_possibly_free_cached_icon k v f
      = Some (f1, evictable f0 v) /\
    ring f1 l /\ accounted_for T ext f1 /\ touched v f f1 /\
    sweeping f0 l0 l f1 /\ rc_of f1 v = rc_of f v.
Proof.
  intros Hsw Hr Hacc [ic Hic]. pose proof Hsw as (-> & Hr0 & Hd).
  destruct (Hd v ic Hic) as (ic0 & Hic0 & Hpx & _).
  pose proof (ring_node_eq _ _ _ _ Hr Hic) as Hn.
  pose proof (ring_node_eq _ _ _ _ Hr0 Hic0) as Hn0.
  unfold nautilus_icon_factory_possibly_free_cached_icon, evictable.
  rewrite Hic, Hic0. cbn [mbind option_bind].
  rewrite Hn, Hn0, <- Hpx. cbn [next].
  destruct (decide (nxt_of l0 (Node v) <> None)) as [Hin|Hout].
  { rewrite bool_decide_eq_false_2 by done.
    exists f. split; [done |]. split; [done |]. split; [done |].
    split; [apply touched_refl | done]. }
  rewrite bool_decide_eq_true_2 by (by destruct (nxt_of l0 (Node v)); [destruct Hout|]).
  destruct (decide (g_ref_count (pixbuf ic) > 1)) as [Hheld|Hfree].
  { rewrite bool_decide_eq_false_2 by lia.
    exists f. split; [done |]. split; [done |]. split; [done |].
    split; [apply touched_refl | done]. }
  rewrite bool_decide_eq_true_2 by lia.
  exists (store_icon v (set_age (age ic + 1) ic) f).
  split; [by case_decide |].
  split; [by apply (ring_store_icon f l0 v ic) |].
  split; [by apply (accounted_for_store_same_rc T ext f v ic) |].
  split; [apply touched_store_icon |].
  split.
  - split; [done |]. split; [done |].
    eapply descends_step; [exact Hd | apply touched_store_icon |].
    intros ic'. fields. rewrite lookup_insert_eq. intros [= <-]. eauto.
  - rewrite rc_of_store_icon, decide_True by done. simpl.
    unfold rc_of. by rewrite Hic.
Qed.

Lemma sweeping_unref f0 l0 (k : CacheKey) v f f' l :
  sweeping f0 l0 l f -> evictable f0 v = true -> ring f l ->
  touched v f f' ->
  icons f' !! v =
    (if decide (rc_of f v = Some 1) then None
     else (fun ic => set_ref_count (ref_count ic - 1) ic) <$> icons f !! v) ->
  sweeping f0 l0 (after_unref f v l) f'.
Proof.
  intros (-> & Hr0 & Hd) Hev Hr Ht Hv.
  split; [| split; [done |]].
  - unfold after_unref. case_decide; [| done].
    apply del_notin. apply nxt_of_Node_None.
    unfold evictable in Hev.
    destruct (icons f0 !! v) as [ic0|] eqn:Hic0; [| done].
    apply andb_true_iff in Hev as [Hev _]. apply bool_decide_eq_true in Hev.
    by rewrite (ring_node_eq _ _ _ _ Hr0 Hic0) in Hev.
  - eapply descends_step; [exact Hd | exact Ht |].
    intros ic'. rewrite Hv. case_decide; [done |].
    destruct (icons f !! v) as [ic|]; [| done].
    intros [= <-]. eauto.
Qed.

(** The sweep removes the nodes of the entries that are outside the list and
    whose pixbuf nobody else holds, whatever their age, and keeps the
    others; the list stays as it is. *)
Lemma nautilus_icon_factory_sweep_spec ext f l :
  (forall i, 0 <= ext i) -> ring f l -> accounted ext f ->
  exists f', nautilus_icon_factory_sweep f = Some f' /\
    icon_cache f' = filter (fun kv => evictable f kv.2 = false) (icon_cache f) /\
    ring f' l /\ accounted ext f' /\ descends f f' /\
    fallback_icon f' = fallback_icon f /\
    next_alloc f' = next_alloc f /\
    sweep_timer f' = 0 /\
    (forall j, is_Some (icons f' !! j) -> is_Some (icons f !! j)).
Proof.
  intros Hext Hr Hacc.
  unfold nautilus_icon_factory_sweep, g_hash_table_foreach_remove.
  destruct (foreach_remove_nodes_spec
              nautilus_icon_factory_possibly_free_cached_icon
              (fun _ v => evictable f v) (sweeping f l)
              (possibly_free_spec f l)
              (fun l' f' T H => H)
              (sweeping_unref f l)
              ext (icon_cache f) [] f l Hext)
    as (f' & l' & -> & Htab & Hr' & (-> & _ & Hd) & Hacc' & Hfb & Hna & _ & Hlive & _);
    try done.
  { split; [done |]. split; [done | apply descends_refl]. }
  cbn [mbind option_bind]. eexists. split; [done |].
  repeat split; try done.
  - by apply Hr'.
  - by apply Hr'.
  - by apply Hr'.
  - by apply Hr'.
  - intros p c Hc. by apply (ring_links _ _ Hr' p c).
Qed.

(** * Clearing *)

(** A function that answers from the key alone and leaves the state. *)
Lemma foreach_remove_by_key func (d : CacheKey -> bool) ext f l :
  (forall k v f, func k v f = Some (f, d k)) ->
  (forall i, 0 <= ext i) -> ring f l -> accounted ext f ->
  exists f' l', g_hash_table_foreach_remove func f = Some f' /\
    icon_cache f' = filter (fun kv => d kv.1 = false) (icon_cache f) /\
    ring f' l' /\ accounted ext f' /\
    fallback_icon f' = fallback_icon f /\
    next_alloc f' = next_alloc f /\
    sweep_timer f' = sweep_timer f /\
    (forall j, is_Some (icons f' !! j) -> is_Some (icons f !! j)) /\
    l' ⊆ l.
Proof.
  intros Hfunc Hext Hr Hacc. unfold g_hash_table_foreach_remove.
  destruct (foreach_remove_nodes_spec func (fun k _ => d k) (fun _ _ => True))
    with (ext := ext) (todo := icon_cache f) (kept := @nil (CacheKey * icon_ptr))
         (f := f) (l := l)
    as (f' & l' & E & Htab & Hr' & _ & Hacc' & Hrest); try done.
  - intros k v f0 l0 T ext0 _ Hr0 Hacc0 Hv. exists f0.
    rewrite Hfunc. split; [done |]. split; [done |]. split; [done |].
    split; [apply touched_refl | done].
  - exists f', l'. done.
Qed.

Lemma remove_all_by_key k v f : remove_all k v f = Some (f, true).
Proof. done. Qed.

Lemma remove_non_pathnames_by_key k v f :
  remove_non_pathnames k v f = Some (f, negb (first_char_is_slash (name k))).
Proof. unfold remove_non_pathnames. by destruct (first_char_is_slash (name k)). Qed.

(** With no reference held by a caller, what is live once the table is empty
    is the fallback entry. *)
Lemma ring_of_empty_table f l :
  ring f l -> accounted no_ext f -> icon_cache f = [] ->
  l = [] \/ l = [fallback_icon f].
Proof.
  intros Hr Hacc Htab.
  assert (forall i, i ∈ l -> i = fallback_icon f) as Hall.
  { intros i Hi. apply (ring_live _ _ Hr) in Hi. apply rc_of_is_Some in Hi as [rc Hrc].
    specialize (Hacc i). rewrite Hrc, Htab in Hacc. simpl in Hacc.
    unfold fallback_ref, no_ext in Hacc. case_decide; [done | lia]. }
  pose proof (ring_nodup _ _ Hr) as Hnd.
  destruct l as [|a [|b t]]; [by left | right | exfalso].
  - f_equal. apply Hall. left.
  - apply NoDup_cons in Hnd as [Hab _]. apply Hab.
    rewrite (Hall a), (Hall b); [left | right; left | left].
Qed.

(** Clearing everything: with no reference held by a caller the assertions
    of the source hold, the table is empty and the list is empty or holds
    the fallback entry alone. *)
Lemma nautilus_icon_factory_clear_all clear_pathnames f l :
  clear_pathnames <> 0 -> ring f l -> accounted no_ext f ->
  exists f' l', nautilus_icon_factory_clear clear_pathnames f = Some f' /\
    icon_cache f' = [] /\ ring f' l' /\
    (l' = [] \/ l' = [fallback_icon f]) /\
    accounted no_ext f' /\
    fallback_icon f' = fallback_icon f /\
    next_alloc f' = next_alloc f /\
    sweep_timer f' = sweep_timer f /\
    (forall j, is_Some (icons f' !! j) -> is_Some (icons f !! j)).
Proof.
  intros Hc Hr Hacc. unfold nautilus_icon_factory_clear.
  rewrite !(decide_True (P := clear_pathnames <> 0)) by done.
  destruct (foreach_remove_by_key remove_all (fun _ => true) no_ext f l)
    as (f' & l' & -> & Htab & Hr' & Hacc' & Hfb & Hna & Hsw & Hlive & Hsub);
    try done.
  assert (icon_cache f' = []) as Htab'.
  { rewrite Htab. clear. induction (icon_cache f) as [|kv T IH]; [done |].
    by rewrite filter_cons_False. }
  cbn [mbind option_bind].
  rewrite (decide_True (P := clear_pathnames <> 0)) by done.
  pose proof (ring_of_empty_table f' l' Hr' Hacc' Htab') as Hl'.
  pose proof (ring_links_are _ _ Hr') as HL.
  exists f', l'. rewrite (ring_count _ _ Hr').
  split.
  - destruct Hl' as [->| ->].
    + change (Z.of_nat (length [])) with 0.
      rewrite decide_True by (by left). by rewrite decide_False.
    + change (Z.of_nat (length [fallback_icon f'])) with 1.
      rewrite decide_True by (by right). rewrite decide_True by done.
      rewrite (obind_Some _ _ _ (load_next_links _ _ _ Head HL (live_Head f'))).
      rewrite (obind_Some _ _ _ (load_prev_links _ _ _ Head HL (live_Head f'))).
      rewrite decide_True by done. by rewrite decide_True.
  - rewrite <- Hfb. done.
Qed.

(** Clearing but the pathnames: the nodes whose name starts with a slash
    stay, the others go. *)
Lemma nautilus_icon_factory_clear_names ext f l :
  (forall i, 0 <= ext i) -> ring f l -> accounted ext f ->
  exists f' l', nautilus_icon_factory_clear 0 f = Some f' /\
    icon_cache f' =
      filter (fun kv => first_char_is_slash (name kv.1) = true) (icon_cache f) /\
    ring f' l' /\ accounted ext f' /\
    fallback_icon f' = fallback_icon f /\
    next_alloc f' = next_alloc f /\
    sweep_timer f' = sweep_timer f /\
    (forall j, is_Some (icons f' !! j) -> is_Some (icons f !! j)) /\
    l' ⊆ l.
Proof.
  intros Hext Hr Hacc. unfold nautilus_icon_factory_clear.
  rewrite (decide_False (P := 0 <> 0)) by (intros H; by apply H).
  destruct (foreach_remove_by_key remove_non_pathnames
              (fun k => negb (first_char_is_slash (name k))) ext f l)
    as (f' & l' & -> & Htab & Hrest); try done.
  { apply remove_non_pathnames_by_key. }
  cbn [mbind option_bind].
  rewrite (decide_False (P := 0 <> 0)) by (intros H; by apply H).
  exists f', l'. split; [done |].
  split; [| done]. rewrite Htab. apply list_filter_iff.
  intros [k v]. simpl. destruct (first_char_is_slash (name k)); by split.
Qed.

(** * Making and publishing an entry *)

Lemma g_object_unref_ref px :
  g_object_unref (g_object_ref (new_pixbuf px)) = {| pixels := px; g_ref_count := 1 |}.
Proof. done. Qed.

Lemma create_normal_cache_icon_eq env icon m s fn f :
  create_normal_cache_icon env icon m s fn f =
    Some (match synthesized env icon m s fn with
          | Some ic => (with_new_entry ic f, Some (next_alloc f))
          | None => (f, None)
          end).
Proof.
  unfold create_normal_cache_icon, synthesized.
  assert (forall info filename base_size t,
    match load_icon_file env filename base_size s fn with
    | Some loaded =>
        let '(f0, cache_icon) := cache_icon_new loaded info f in
        update_icon cache_icon (set_mtime t) f0
        ≫= (fun f1 =>
              update_icon cache_icon
                (fun ic => set_pixbuf (g_object_unref (pixbuf ic)) ic) f1
              ≫= fun f2 => Some (f2, Some cache_icon))
    | None => Some (f, None)
    end =
    Some match
      load_icon_file env filename base_size s fn
      ≫= (fun loaded =>
            Some {| ref_count := 1;
                    pixbuf := {| pixels := pixels loaded; g_ref_count := 1 |};
                    display_name := info ≫= gtk_icon_info_get_display_name;
                    mtime := t;
                    recently_used_node := {| next := None; prev := None |};
                    age := 0 |})
    with
    | Some ic => (with_new_entry ic f, Some (next_alloc f))
    | None => (f, None)
    end) as Hload.
  { intros info filename base_size t. unfold load_icon_file.
    destruct (if path_represents_svg_image (Some filename)
              then rsvg_pixbuf_from_file env filename s
                     (if decide (fn <> 0) then 0 else base_size)
              else nautilus_thumbnail_load_image env filename base_size s fn)
      as [px|]; [| done].
    cbn [fmap option_fmap option_map mbind option_bind cache_icon_new].
    unfold update_icon. fields.
    rewrite lookup_insert_eq. cbn [mbind option_bind]. fields.
    rewrite lookup_insert_eq. cbn [mbind option_bind].
    unfold with_new_entry, store_icon, set_icons, set_next_alloc. fields.
    rewrite !insert_insert_eq. done. }
  destruct (first_char_is_slash icon).
  - destruct (stat env icon) as [sb|]; [| done].
    cbn [mbind option_bind]. destruct (S_ISREG sb); [| done].
    cbn [mbind option_bind]. apply Hload.
  - destruct (gtk_icon_theme_lookup_icon env _ s) as [info|]; [| done].
    cbn [mbind option_bind].
    destruct (gtk_icon_info_get_filename info) as [filename|]; [| done].
    cbn [mbind option_bind]. apply Hload.
Qed.

(** The two attempts of a miss. *)
Lemma create_with_fallback_to_no_modifier env icon m s fn f :
  ('(f, cached_icon) ← create_normal_cache_icon env icon m s fn f;
   if decide (cached_icon = None /\ m <> None) then
     create_normal_cache_icon env icon None s fn f
   else Some (f, cached_icon)) =
  Some (match chosen env icon m s fn with
        | Some ic => (with_new_entry ic f, Some (next_alloc f))
        | None => (f, None)
        end).
Proof.
  rewrite create_normal_cache_icon_eq. cbn [mbind option_bind]. unfold chosen.
  destruct (synthesized env icon m s fn) as [ic|].
  - rewrite decide_False by (by intros [? _]). done.
  - destruct m as [m|].
    + rewrite decide_True by done. apply create_normal_cache_icon_eq.
    + rewrite decide_False by (by intros [_ ?]). done.
Qed.

(** * One node more, one node less *)

Lemma descends_others f0 f f' v :
  descends f0 f ->
  (forall j, j <> v -> strip <$> icons f' !! j = strip <$> icons f !! j) ->
  icons f' !! v =
    (if decide (rc_of f v = Some 1) then None
     else (fun ic => set_ref_count (ref_count ic - 1) ic) <$> icons f !! v) ->
  descends f0 f'.
Proof.
  intros Hd Ho Hv j ic' Hj. destruct (decide (j = v)) as [->|Hjv].
  - rewrite Hv in Hj. case_decide; [done |].
    destruct (icons f !! v) as [ic|] eqn:E; [| done].
    injection Hj as <-.
    destruct (Hd v ic E) as (ic0 & ? & ? & ? & ?). by exists ic0.
  - pose proof (Ho j Hjv) as Hs. rewrite Hj in Hs.
    destruct (icons f !! j) as [ic|] eqn:E; [| done].
    simpl in Hs. assert (strip ic' = strip ic) as Hs' by congruence.
    apply strip_fields in Hs' as (-> & -> & -> & _).
    by apply Hd.
Qed.

Lemma descends_trans f0 f1 f2 : descends f0 f1 -> descends f1 f2 -> descends f0 f2.
Proof.
  intros H1 H2 j ic2 Hj.
  destruct (H2 j ic2 Hj) as (ic1 & Hj1 & -> & -> & ->). by apply H1.
Qed.

Lemma descends_is_Some f0 f j :
  descends f0 f -> is_Some (icons f !! j) -> is_Some (icons f0 !! j).
Proof. intros Hd [ic Hic]. destruct (Hd j ic Hic) as (ic0 & -> & _). eauto. Qed.

Lemma unlink_node_split T key v :
  g_hash_table_lookup T key = Some v ->
  exists kept k rest,
    T = kept ++ (k, v) :: rest /\ unlink_node T key = kept ++ rest /\
    cache_key_equal k key = true.
Proof.
  induction T as [|[s w] T IH]; simpl; [done |].
  destruct (cache_key_equal s key) eqn:E.
  - intros [= ->]. exists [], s, T. done.
  - intros (kept & k & rest & -> & -> & Hk)%IH.
    exists ((s, w) :: kept), k, rest. done.
Qed.

Lemma g_hash_table_remove_None key f :
  g_hash_table_lookup (icon_cache f) key = None ->
  g_hash_table_remove key f = Some (f, false).
Proof. intros H. unfold g_hash_table_remove. by rewrite H. Qed.

Lemma g_hash_table_remove_Some ext f l key v :
  (forall i, 0 <= ext i) -> ring f l -> accounted ext f ->
  g_hash_table_lookup (icon_cache f) key = Some v ->
  exists f', g_hash_table_remove key f = Some (f', true) /\
    icon_cache f' = unlink_node (icon_cache f) key /\
    ring f' (after_unref f v l) /\ accounted ext f' /\
    fallback_icon f' = fallback_icon f /\
    next_alloc f' = next_alloc f /\
    sweep_timer f' = sweep_timer f /\
    descends f f'.
Proof.
  intros Hext Hr Hacc Hl. unfold g_hash_table_remove. rewrite Hl.
  destruct (unlink_node_split _ _ _ Hl) as (kept & k & rest & HT & -> & Hk).
  unfold accounted in Hacc. rewrite HT in Hacc.
  destruct (unref_unlinked ext f l kept k v rest Hr Hacc (Hext v))
    as (f' & -> & Hr' & Hacc' & Ht & Hv).
  cbn [mbind option_bind]. exists f'. split; [done |].
  pose proof (touched_icon_cache _ _ _ Ht) as Htab. fields.
  split; [done |]. split; [done |].
  split; [unfold accounted; by rewrite Htab |].
  split; [exact (touched_fallback_icon _ _ _ Ht) |].
  split; [exact (touched_next_alloc _ _ _ Ht) |].
  split; [exact (touched_sweep_timer _ _ _ Ht) |].
  eapply descends_others; [apply descends_refl | | exact Hv].
  exact (touched_others _ _ _ Ht).
Qed.

Lemma g_hash_table_insert_spec ext f l key v :
  (forall i, 0 <= ext i) -> ring f l -> accounted ext f -> 1 <= ext v ->
  exists f', g_hash_table_insert key v f = Some f' /\
    icon_cache f' =
      match g_hash_table_lookup (icon_cache f) key with
      | Some _ => replace_value (icon_cache f) key v
      | None => (key, v) :: icon_cache f
      end /\
    ring f'
      match g_hash_table_lookup (icon_cache f) key with
      | Some old => after_unref f old l
      | None => l
      end /\
    accounted (ext_add v (-1) ext) f' /\
    fallback_icon f' = fallback_icon f /\
    next_alloc f' = next_alloc f /\
    sweep_timer f' = sweep_timer f /\
    descends f f'.
Proof.
  intros Hext Hr Hacc Hv. unfold g_hash_table_insert.
  destruct (g_hash_table_lookup (icon_cache f) key) as [old|] eqn:Hl.
  - (* the key is there: the old value is destroyed *)
    set (T' := replace_value (icon_cache f) key v).
    set (ext' := ext_add old 1 (ext_add v (-1) ext)).
    assert (accounted_for T' ext' f) as Hacc'.
    { apply (accounted_for_shift (icon_cache f) ext); [exact Hacc | |].
      - intros j. unfold T', ext', ext_add.
        rewrite (count_refs_replace_value _ _ old) by done.
        repeat case_decide; simplify_eq; lia.
      - intros j Hj. specialize (Hacc j). rewrite Hj in Hacc.
        pose proof (count_refs_nonneg (icon_cache f) j).
        pose proof (fallback_ref_nonneg f j).
        pose proof (count_refs_lookup _ _ _ Hl).
        unfold T', ext', ext_add.
        rewrite (count_refs_replace_value _ _ old) by done.
        repeat case_decide; simplify_eq; lia. }
    destruct (cache_icon_unref_spec T' ext' f l old Hr Hacc')
      as (f1 & -> & Hr1 & Hacc1 & Ht1 & Hold).
    { unfold ext', ext_add. rewrite decide_True by done.
      specialize (Hext old). case_decide; simplify_eq; lia. }
    cbn [mbind option_bind]. eexists. split; [done |].
    rewrite (touched_icon_cache _ _ _ Ht1). fields.
    split; [done |].
    split; [by apply ring_set_icon_cache |].
    split.
    { eapply (accounted_for_ext T' _ _ f1); [| exact Hacc1].
      intros j. unfold ext', ext_add. repeat case_decide; simplify_eq; lia. }
    split; [exact (touched_fallback_icon _ _ _ Ht1) |].
    split; [exact (touched_next_alloc _ _ _ Ht1) |].
    split; [exact (touched_sweep_timer _ _ _ Ht1) |].
    eapply (descends_others f f f1 old); [apply descends_refl | | exact Hold].
    exact (touched_others _ _ _ Ht1).
  - (* a new node *)
    eexists. split; [done |]. fields. split; [done |].
    split; [by apply ring_set_icon_cache |].
    split.
    { apply (accounted_for_shift (icon_cache f) ext); [exact Hacc | |].
      - intros j. simpl. unfold ext_add. repeat case_decide; simplify_eq; lia.
      - intros j Hj. specialize (Hacc j).
        change (rc_of (set_icon_cache _ f) j) with (rc_of f j) in Hj.
        rewrite Hj in Hacc.
        pose proof (count_refs_nonneg (icon_cache f) j).
        pose proof (fallback_ref_nonneg f j).
        simpl. unfold ext_add. repeat case_decide; simplify_eq; lia. }
    split; [done |]. split; [done |]. split; [done |].
    exact (descends_refl f).
Qed.

(** * Using an entry *)

Lemma descends_store_icon f i ic ic' :
  icons f !! i = Some ic ->
  pixbuf ic' = pixbuf ic -> mtime ic' = mtime ic ->
  display_name ic' = display_name ic ->
  descends f (store_icon i ic' f).
Proof.
  intros Hi Hp Hm Hd j c. fields. destruct (decide (j = i)) as [->|Hji].
  - rewrite lookup_insert_eq. intros [= <-]. eauto.
  - rewrite lookup_insert_ne by done. eauto.
Qed.

Lemma descends_same_data f f' : same_data f f' -> descends f f'.
Proof.
  intros H j ic' Hj. pose proof (same_data_lookup f f' j H) as Hs.
  rewrite Hj in Hs. destruct (icons f !! j) as [ic|]; [| done].
  simpl in Hs. assert (strip ic' = strip ic) as Hs' by congruence.
  apply strip_fields in Hs' as (-> & -> & -> & _). eauto.
Qed.

Lemma ring_set_sweep_timer f l v : ring f l -> ring (set_sweep_timer v f) l.
Proof. intros []. by split. Qed.

Lemma ring_schedule_sweep f l :
  ring f l -> ring (nautilus_icon_factory_schedule_sweep f) l.
Proof.
  intros H. unfold nautilus_icon_factory_schedule_sweep.
  case_decide; [done | by apply ring_set_sweep_timer].
Qed.

Lemma schedule_sweep_fields f :
  let f' := nautilus_icon_factory_schedule_sweep f in
  icon_cache f' = icon_cache f /\ fallback_icon f' = fallback_icon f /\
  next_alloc f' = next_alloc f /\ icons f' = icons f /\ sweep_timer f' <> 0.
Proof.
  unfold nautilus_icon_factory_schedule_sweep.
  case_decide; [done |]. by repeat split.
Qed.

Lemma accounted_for_icons T ext f f' :
  icons f' = icons f -> fallback_icon f' = fallback_icon f ->
  accounted_for T ext f -> accounted_for T ext f'.
Proof.
  intros Hi Hfb Hacc. eapply accounted_for_touched_rc; [done | done |].
  intros j. unfold rc_of. by rewrite Hi.
Qed.

Lemma descends_icons f f' : icons f' = icons f -> descends f f'.
Proof. intros Hi j ic. rewrite Hi. eauto. Qed.

(** The end of [get_icon_from_cache]: a reference for the caller, the entry
    at the head of the list, its age zero, a sweep scheduled. *)
Lemma use_entry_spec T ext f l c rc :
  ring f l -> accounted_for T ext f -> rc_of f c = Some rc ->
  rc + 1 < 2 ^ 32 ->
  exists f',
    (f ← cache_icon_ref c f;
     f ← mark_recently_used (Node c) f;
     f ← update_icon c (set_age 0) f;
     let f := nautilus_icon_factory_schedule_sweep f in
     Some (f, Some c)) = Some (f', Some c) /\
    ring f' (promote c l) /\
    accounted_for T (ext_add c 1 ext) f' /\
    icon_cache f' = icon_cache f /\
    fallback_icon f' = fallback_icon f /\
    next_alloc f' = next_alloc f /\
    sweep_timer f' <> 0 /\
    descends f f' /\
    age <$> icons f' !! c = Some 0.
Proof.
  intros Hr Hacc Hrc Hroom.
  destruct (rc_of_Some _ _ _ Hrc) as (ic & Hi & Hic).
  pose proof (Hacc c) as Hb. rewrite Hrc in Hb.
  rewrite (cache_icon_ref_eq f c ic Hi) by lia. cbn [mbind option_bind].
  set (f1 := store_icon c (set_ref_count (ref_count ic + 1) ic) f).
  assert (ring f1 l) as Hr1 by by apply (ring_store_icon f l c ic).
  assert (accounted_for T (ext_add c 1 ext) f1) as Hacc1.
  { replace 1 with (ref_count (set_ref_count (ref_count ic + 1) ic) - ref_count ic)
      at 1 by (simpl; lia).
    apply accounted_for_store; [done | done | simpl; lia]. }
  assert (descends f f1) as Hd1 by by apply (descends_store_icon f c ic).
  assert (is_Some (icons f1 !! c)) as Hl1
    by (apply (is_Some_store_icon f c ic); eauto).
  destruct (mark_recently_used_ring f1 l c Hr1 Hl1) as (f2 & -> & Hr2 & Hsd).
  cbn [mbind option_bind].
  assert (is_Some (icons f2 !! c)) as [ic2 Hi2] by by apply (same_data_is_Some f1).
  unfold update_icon. rewrite Hi2. cbn [mbind option_bind].
  set (f3 := store_icon c (set_age 0 ic2) f2).
  cbv zeta.
  destruct (schedule_sweep_fields f3) as (E1 & E2 & E3 & E4 & E5).
  eexists. split; [done |].
  split; [apply ring_schedule_sweep; by apply (ring_store_icon f2 _ c ic2) |].
  split.
  { eapply accounted_for_icons; [exact E4 | exact E2 |].
    apply (accounted_for_store_same_rc T _ f2 c ic2); [| done | done].
    by apply (accounted_for_same_data T _ f1). }
  split; [rewrite E1; exact (same_icon_cache _ _ Hsd) |].
  split; [rewrite E2; exact (same_fallback_icon _ _ Hsd) |].
  split; [rewrite E3; exact (same_next_alloc _ _ Hsd) |].
  split; [done |].
  split.
  - eapply descends_trans; [exact Hd1 |].
    eapply descends_trans; [by apply descends_same_data |].
    eapply descends_trans; [| by apply descends_icons].
    by apply (descends_store_icon f2 c ic2).
  - rewrite E4. unfold f3. fields. by rewrite lookup_insert_eq.
Qed.

(** * A new entry *)

Lemma ring_with_new_entry f l ic :
  ring f l -> icons f !! next_alloc f = None ->
  recently_used_node ic = {| next := None; prev := None |} ->
  ring (with_new_entry ic f) l.
Proof.
  intros [Hnd Hc Hb Hl HL] Hfree Hnode. split; try done.
  - intros j Hj. unfold with_new_entry. fields.
    destruct (decide (j = next_alloc f)) as [->|Hne].
    + by rewrite lookup_insert_eq.
    + rewrite lookup_insert_ne by done. auto.
  - intros p c. destruct p as [|j]; [apply (HL Head) |].
    unfold load_node, with_new_entry. fields.
    destruct (decide (j = next_alloc f)) as [->|Hne].
    + rewrite lookup_insert_eq. intros [= <-]. rewrite Hnode.
      assert (next_alloc f ∉ l) as Hnl.
      { intros H%Hl. rewrite Hfree in H. by destruct H. }
      f_equal; symmetry.
      * by apply nxt_of_Node_None.
      * by apply prv_of_Node_None.
    + rewrite lookup_insert_ne by done. apply (HL (Node j)).
Qed.

Lemma accounted_for_with_new_entry T ext f ic :
  accounted_for T ext f -> icons f !! next_alloc f = None ->
  ref_count ic = 1 ->
  accounted_for T (ext_add (next_alloc f) 1 ext) (with_new_entry ic f).
Proof.
  intros Hacc Hfree Hrc.
  exact (accounted_for_alloc T ext f (next_alloc f) ic Hacc Hfree Hrc).
Qed.

Lemma synthesized_fields env icon m s fn ic :
  synthesized env icon m s fn = Some ic ->
  ref_count ic = 1 /\ recently_used_node ic = {| next := None; prev := None |} /\
  age ic = 0 /\ g_ref_count (pixbuf ic) = 1.
Proof.
  unfold synthesized.
  destruct (if first_char_is_slash icon then _ else _) as [[[[info fl] b] t]|];
    [| done].
  cbn [mbind option_bind].
  destruct (load_icon_file env fl b s fn); [| done].
  cbn [mbind option_bind]. intros [= <-]. done.
Qed.

Lemma chosen_fields env icon m s fn ic :
  chosen env icon m s fn = Some ic ->
  ref_count ic = 1 /\ recently_used_node ic = {| next := None; prev := None |} /\
  age ic = 0 /\ g_ref_count (pixbuf ic) = 1.
Proof.
  unfold chosen.
  destruct (synthesized env icon m s fn) eqn:E1.
  - intros [= <-]. by eapply synthesized_fields.
  - destruct m; [| done]. apply synthesized_fields.
Qed.

(** * The table after an insertion *)

Lemma uniq_insert T key c fb :
  (forall i, i <> fb -> count_refs T i <= 1) ->
  (c <> fb -> count_refs T c = 0) ->
  forall i, i <> fb ->
    count_refs
      match g_hash_table_lookup T key with
      | Some _ => replace_value T key c
      | None => (key, c) :: T
      end i <= 1.
Proof.
  intros Hu Hc i Hi. specialize (Hu i Hi).
  destruct (g_hash_table_lookup T key) as [old|] eqn:Hl.
  - rewrite (count_refs_replace_value _ _ old) by done.
    repeat case_decide; simplify_eq; try lia.
    all: specialize (Hc Hi); lia.
  - simpl. case_decide; [| lia]. subst. specialize (Hc Hi). lia.
Qed.

Lemma keys_distinct_insert T key c :
  keys_distinct T ->
  keys_distinct
    match g_hash_table_lookup T key with
    | Some _ => replace_value T key c
    | None => (key, c) :: T
    end.
Proof.
  intros Hd. destruct (g_hash_table_lookup T key) eqn:Hl.
  - by apply keys_distinct_replace_value.
  - done.
Qed.

Lemma lookup_insert_table T key c k' :
  g_hash_table_lookup
    match g_hash_table_lookup T key with
    | Some _ => replace_value T key c
    | None => (key, c) :: T
    end k' =
  if cache_key_equal key k' then Some c else g_hash_table_lookup T k'.
Proof.
  destruct (g_hash_table_lookup T key) eqn:Hl.
  - apply lookup_replace_value. by rewrite Hl.
  - done.
Qed.

(** * [get_icon_from_cache] *)

Lemma accounted_lookup_live ext f key c :
  accounted ext f -> (forall i, 0 <= ext i) ->
  g_hash_table_lookup (icon_cache f) key = Some c ->
  exists ic, icons f !! c = Some ic.
Proof.
  intros Hacc Hext Hl. apply rc_of_is_Some.
  eapply accounted_for_live; [exact Hacc |].
  pose proof (count_refs_lookup _ _ _ Hl).
  pose proof (fallback_ref_nonneg f c). specialize (Hext c). lia.
Qed.

(** The check of the entry found in the table. *)
Lemma hit_check_eq env icon m s fn ext f :
  accounted ext f -> (forall i, 0 <= ext i) ->
  match lookup_icon_from_cache icon m s fn f with
  | Some c =>
      if first_char_is_slash icon then
        match stat env icon with
        | None => Some None
        | Some statbuf =>
            if negb (S_ISREG statbuf) then Some None
            else
              ic ← icons f !! c;
              if decide (st_mtime statbuf <> mtime ic) then Some None
              else Some (Some c)
        end
      else Some (Some c)
  | None => Some None
  end = Some (cache_hit env icon m s fn f).
Proof.
  intros Hacc Hext. unfold cache_hit.
  destruct (lookup_icon_from_cache icon m s fn f) as [c|] eqn:Hl; [| done].
  destruct (accounted_lookup_live ext f _ c Hacc Hext Hl) as [ic Hic].
  cbn [mbind option_bind]. rewrite Hic. cbn [mbind option_bind].
  destruct (first_char_is_slash icon); [| done].
  destruct (decide (stale env icon ic)) as [Hs|Hs]; unfold stale in Hs;
    destruct (stat env icon) as [sb|]; try done.
  - destruct (S_ISREG sb); simpl; [| done].
    destruct Hs as [Hs|Hs]; [done |]. by rewrite decide_True.
  - destruct (S_ISREG sb); simpl.
    + rewrite decide_False; [done |]. intros H. apply Hs. by right.
    + exfalso. apply Hs. by left.
Qed.

(** The entry goes into the table and is handed to the caller. *)
Lemma publish_spec ext g l key c :
  (forall i, 0 <= ext i) -> ring g l -> accounted ext g -> 1 <= ext c ->
  (forall rc, rc_of g c = Some rc -> rc + 1 < 2 ^ 32) ->
  exists f4 f',
    g_hash_table_insert key c g = Some f4 /\
    (f ← cache_icon_ref c f4;
     f ← mark_recently_used (Node c) f;
     f ← update_icon c (set_age 0) f;
     let f := nautilus_icon_factory_schedule_sweep f in
     Some (f, Some c)) = Some (f', Some c) /\
    ring f'
      (promote c
         match g_hash_table_lookup (icon_cache g) key with
         | Some old => after_unref g old l
         | None => l
         end) /\
    accounted ext f' /\
    icon_cache f' =
      match g_hash_table_lookup (icon_cache g) key with
      | Some _ => replace_value (icon_cache g) key c
      | None => (key, c) :: icon_cache g
      end /\
    fallback_icon f' = fallback_icon g /\
    next_alloc f' = next_alloc g /\
    sweep_timer f' <> 0 /\
    descends g f' /\
    age <$> icons f' !! c = Some 0.
Proof.
  intros Hext Hr Hacc Hc Hroom.
  destruct (g_hash_table_insert_spec ext g l key c Hext Hr Hacc Hc)
    as (f4 & E4 & Htab4 & Hr4 & Hacc4 & Hfb4 & Hna4 & Hsw4 & Hd4).
  assert (exists rc, rc_of f4 c = Some rc /\ rc + 1 < 2 ^ 32) as (rc & Hrc & Hrc').
  { pose proof (Hacc4 c) as H4. pose proof (Hacc c) as Hg.
    destruct (rc_of g c) as [rg|] eqn:Eg; [| lia].
    specialize (Hroom rg eq_refl).
    unfold fallback_ref in *. rewrite Hfb4, Htab4 in H4. unfold ext_add in H4.
    pose proof (count_refs_nonneg (icon_cache g) c).
    destruct (rc_of f4 c) as [r4|] eqn:E; [exists r4; split; [done |] |].
    - destruct (g_hash_table_lookup (icon_cache g) key) as [old|] eqn:Hl.
      + rewrite (count_refs_replace_value _ _ old) in H4 by done.
        repeat case_decide; simplify_eq; lia.
      + simpl in H4. repeat case_decide; simplify_eq; lia.
    - exfalso.
      destruct (g_hash_table_lookup (icon_cache g) key) as [old|] eqn:Hl.
      + rewrite (count_refs_replace_value _ _ old) in H4 by done.
        pose proof (count_refs_lookup _ _ _ Hl).
        repeat case_decide; simplify_eq; lia.
      + simpl in H4. repeat case_decide; simplify_eq; lia. }
  destruct (use_entry_spec (icon_cache f4) (ext_add c (-1) ext) f4 _ c rc Hr4 Hacc4 Hrc Hrc')
    as (f' & E & Hr' & Hacc' & Htab' & Hfb' & Hna' & Hsw' & Hd' & Hage).
  exists f4, f'. split; [done |]. split; [exact E |].
  split; [done |].
  split.
  { unfold accounted. rewrite Htab'.
    eapply accounted_for_ext; [| exact Hacc'].
    intros j. unfold ext_add. case_decide; lia. }
  split; [congruence |]. split; [congruence |]. split; [congruence |].
  split; [done |].
  split; [by eapply descends_trans | done].
Qed.

Lemma ext_add_nonneg i ext :
  (forall j, 0 <= ext j) -> forall j, 0 <= ext_add i 1 ext j.
Proof. intros H j. unfold ext_add. specialize (H j). case_decide; lia. Qed.

Lemma after_unref_eq f g old l :
  rc_of g old = rc_of f old -> after_unref g old l = after_unref f old l.
Proof. unfold after_unref. by intros ->. Qed.

Lemma after_unref_not_last f g old l :
  rc_of g old <> Some 1 -> rc_of f old <> Some 1 ->
  after_unref g old l = after_unref f old l.
Proof. intros Hg Hf. unfold after_unref. by rewrite !decide_False. Qed.

(** A miss that makes a new entry. *)
Lemma miss_new_entry ext f l key ic :
  inv ext f -> ring f l ->
  ref_count ic = 1 ->
  recently_used_node ic = {| next := None; prev := None |} ->
  let g := with_new_entry ic f in
  let c := next_alloc f in
  exists f4 f',
    g_hash_table_insert key c g = Some f4 /\
    (f ← cache_icon_ref c f4;
     f ← mark_recently_used (Node c) f;
     f ← update_icon c (set_age 0) f;
     let f := nautilus_icon_factory_schedule_sweep f in
     Some (f, Some c)) = Some (f', Some c) /\
    inv (ext_add c 1 ext) f' /\
    fallback_icon f' = fallback_icon f /\
    sweep_timer f' <> 0 /\
    age <$> icons f' !! c = Some 0 /\
    icon_cache f' =
      match g_hash_table_lookup (icon_cache f) key with
      | Some _ => replace_value (icon_cache f) key c
      | None => (key, c) :: icon_cache f
      end /\
    next_alloc f' = S (next_alloc f) /\
    ring f'
      (promote c
         match g_hash_table_lookup (icon_cache f) key with
         | Some old => after_unref f old l
         | None => l
         end) /\
    descends g f'.
Proof.
  intros [_ Hacc Hext Halloc Huniq Hkeys] Hr Hrc Hnode g c.
  assert (icons f !! c = None) as Hfree.
  { destruct (icons f !! c) eqn:E; [| done].
    assert (c < next_alloc f)%nat by (apply Halloc; eauto). unfold c in *. lia. }
  assert (ring g l) as Hrg by by apply ring_with_new_entry.
  assert (accounted (ext_add c 1 ext) g) as Haccg
    by by apply accounted_for_with_new_entry.
  destruct (publish_spec (ext_add c 1 ext) g l key c)
    as (f4 & f' & E4 & E & Hr' & Hacc' & Htab' & Hfb' & Hna' & Hsw' & Hd' & Hage);
    try done.
  { by apply ext_add_nonneg. }
  { unfold ext_add. rewrite decide_True by done. specialize (Hext c). lia. }
  { intros rc. unfold g, with_new_entry.
    change (rc_of (set_next_alloc _ ?h) c) with (rc_of h c).
    rewrite rc_of_store_icon, decide_True by done. rewrite Hrc.
    intros [= <-]. done. }
  change (icon_cache g) with (icon_cache f) in *.
  change (fallback_icon g) with (fallback_icon f) in *.
  change (next_alloc g) with (S (next_alloc f)) in *.
  assert (forall old, g_hash_table_lookup (icon_cache f) key = Some old ->
            after_unref g old l = after_unref f old l) as Hau.
  { intros old Hl. apply after_unref_eq.
    destruct (accounted_lookup_live ext f key old Hacc Hext Hl) as [ico Hico].
    unfold g, with_new_entry.
    change (rc_of (set_next_alloc _ ?h) old) with (rc_of h old).
    rewrite rc_of_store_icon, decide_False; [done |].
    intros ->. unfold c in *. congruence. }
  exists f4, f'. split; [done |]. split; [done |].
  split.
  { split.
    - eauto.
    - done.
    - by apply ext_add_nonneg.
    - intros i Hi%(descends_is_Some _ _ _ Hd'). rewrite Hna'.
      unfold g, with_new_entry in Hi. fields.
      destruct (decide (i = next_alloc f)) as [->|Hne]; [lia |].
      rewrite lookup_insert_ne in Hi by done. apply Halloc in Hi. lia.
    - rewrite Htab', Hfb'. apply uniq_insert; [done |].
      intros _. specialize (Hacc c). unfold rc_of in Hacc.
      rewrite Hfree in Hacc. simpl in Hacc.
      pose proof (count_refs_nonneg (icon_cache f) c).
      pose proof (fallback_ref_nonneg f c). lia.
    - rewrite Htab'. by apply keys_distinct_insert. }
  split; [done |]. split; [done |]. split; [done |]. split; [done |].
  split; [done |].
  split; [| done].
  destruct (g_hash_table_lookup (icon_cache f) key) as [old|] eqn:Hl; [| done].
  by rewrite <- (Hau old).
Qed.

(** A miss that falls back on the default icon. *)
Lemma miss_fallback ext f l key :
  inv ext f -> ring f l -> room 2 f ->
  let c := fallback_icon f in
  exists g f4 f',
    cache_icon_ref c f = Some g /\
    fallback_icon g = c /\
    g_hash_table_insert key c g = Some f4 /\
    (f ← cache_icon_ref c f4;
     f ← mark_recently_used (Node c) f;
     f ← update_icon c (set_age 0) f;
     let f := nautilus_icon_factory_schedule_sweep f in
     Some (f, Some c)) = Some (f', Some c) /\
    inv (ext_add c 1 ext) f' /\
    fallback_icon f' = fallback_icon f /\
    sweep_timer f' <> 0 /\
    age <$> icons f' !! c = Some 0 /\
    icon_cache f' =
      match g_hash_table_lookup (icon_cache f) key with
      | Some _ => replace_value (icon_cache f) key c
      | None => (key, c) :: icon_cache f
      end /\
    next_alloc f' = next_alloc f /\
    ring f'
      (promote c
         match g_hash_table_lookup (icon_cache f) key with
         | Some old => after_unref f old l
         | None => l
         end) /\
    descends f f'.
Proof.
  intros [_ Hacc Hext Halloc Huniq Hkeys] Hr Hroom c.
  destruct (rc_of f c) as [rc|] eqn:Hrc.
  2:{ specialize (Hacc c). rewrite Hrc in Hacc. unfold fallback_ref in Hacc.
      rewrite decide_True in Hacc by done.
      pose proof (count_refs_nonneg (icon_cache f) c). lia. }
  destruct (rc_of_Some _ _ _ Hrc) as (ic & Hi & Hic).
  pose proof (Hacc c) as Hb. rewrite Hrc in Hb.
  pose proof (Hroom c rc Hrc) as Hroomc.
  rewrite (cache_icon_ref_eq f c ic Hi) by lia.
  set (g := store_icon c (set_ref_count (ref_count ic + 1) ic) f).
  assert (ring g l) as Hrg by by apply (ring_store_icon f l c ic).
  assert (accounted (ext_add c 1 ext) g) as Haccg.
  { unfold accounted.
    replace 1 with (ref_count (set_ref_count (ref_count ic + 1) ic) - ref_count ic)
      at 1 by (simpl; lia).
    apply (accounted_for_store (icon_cache f) ext f c ic); [done | done |].
    simpl; lia. }
  assert (rc_of g c = Some (rc + 1)) as Hrcg.
  { unfold g. rewrite rc_of_store_icon, decide_True by done. simpl. by rewrite Hic. }
  assert (descends f g) as Hdg by by apply (descends_store_icon f c ic).
  destruct (publish_spec (ext_add c 1 ext) g l key c)
    as (f4 & f' & E4 & E & Hr' & Hacc' & Htab' & Hfb' & Hna' & Hsw' & Hd' & Hage);
    try done.
  { by apply ext_add_nonneg. }
  { unfold ext_add. rewrite decide_True by done. specialize (Hext c). lia. }
  { intros r. rewrite Hrcg. intros [= <-]. lia. }
  change (icon_cache g) with (icon_cache f) in *.
  change (fallback_icon g) with (fallback_icon f) in *.
  change (next_alloc g) with (next_alloc f) in *.
  assert (forall old, g_hash_table_lookup (icon_cache f) key = Some old ->
            after_unref g old l = after_unref f old l) as Hau.
  { intros old Hl. destruct (decide (old = c)) as [->|Hne].
    - apply after_unref_not_last.
      + rewrite Hrcg. intros [= ?]. lia.
      + rewrite Hrc. intros [= ->].
        pose proof (count_refs_lookup _ _ _ Hl).
        unfold fallback_ref in Hb. rewrite decide_True in Hb by done.
        specialize (Hext c). lia.
    - apply after_unref_eq. unfold g.
      by rewrite rc_of_store_icon, decide_False. }
  exists g, f4, f'. split; [done |]. split; [done |]. split; [done |].
  split; [done |].
  split.
  { split.
    - eauto.
    - done.
    - by apply ext_add_nonneg.
    - intros i Hli%(descends_is_Some _ _ _ Hd')%(descends_is_Some _ _ _ Hdg).
      rewrite Hna'. by apply Halloc.
    - rewrite Htab', Hfb'. apply uniq_insert; [done |]. done.
    - rewrite Htab'. by apply keys_distinct_insert. }
  split; [done |]. split; [done |]. split; [done |]. split; [done |].
  split; [done |].
  split; [| by eapply descends_trans].
  destruct (g_hash_table_lookup (icon_cache f) key) as [old|] eqn:Hl; [| done].
  by rewrite <- (Hau old).
Qed.

Lemma cache_hit_Some env icon m s fn f h :
  cache_hit env icon m s fn f = Some h ->
  lookup_icon_from_cache icon m s fn f = Some h /\
  exists ic, icons f !! h = Some ic /\
    (first_char_is_slash icon = true -> ~ stale env icon ic).
Proof.
  unfold cache_hit.
  destruct (lookup_icon_from_cache icon m s fn f) as [c|]; [| done].
  cbn [mbind option_bind].
  destruct (icons f !! c) as [ic|] eqn:Hic; [| done].
  cbn [mbind option_bind].
  destruct (first_char_is_slash icon).
  - case_decide; [done |]. intros [= ->]. eauto.
  - intros [= ->]. split; [done |]. exists ic. by split.
Qed.

(** What a call of [get_icon_from_cache] with a name does: it returns an
    entry, with one more reference for the caller, and keeps the invariant. *)
Lemma get_icon_from_cache_spec env icon m s fn ext f l :
  inv ext f -> ring f l -> room 2 f ->
  let key := {| name := icon; modifier := m;
                nominal_size := s; force_nominal := fn |} in
  exists f' c,
    get_icon_from_cache env (Some icon) m s fn f = Some (f', Some c) /\
    inv (ext_add c 1 ext) f' /\
    fallback_icon f' = fallback_icon f /\
    sweep_timer f' <> 0 /\
    age <$> icons f' !! c = Some 0 /\
    match cache_hit env icon m s fn f with
    | Some h =>
        c = h /\ icon_cache f' = icon_cache f /\
        next_alloc f' = next_alloc f /\
        ring f' (promote c l) /\ descends f f'
    | None =>
        c = match chosen env icon m s fn with
            | Some _ => next_alloc f
            | None => fallback_icon f
            end /\
        icon_cache f' =
          match g_hash_table_lookup (icon_cache f) key with
          | Some _ => replace_value (icon_cache f) key c
          | None => (key, c) :: icon_cache f
          end /\
        next_alloc f' =
          match chosen env icon m s fn with
          | Some _ => S (next_alloc f)
          | None => next_alloc f
          end /\
        ring f'
          (promote c
             match g_hash_table_lookup (icon_cache f) key with
             | Some old => after_unref f old l
             | None => l
             end) /\
        descends
          match chosen env icon m s fn with
          | Some ic => with_new_entry ic f
          | None => f
          end f'
    end.
Proof.
  intros Hinv Hr Hroom key.
  pose proof Hinv as [_ Hacc Hext Halloc Huniq Hkeys].
  unfold get_icon_from_cache.
  rewrite (obind_Some _ _ _ (hit_check_eq env icon m s fn ext f Hacc Hext)).
  destruct (cache_hit env icon m s fn f) as [h|] eqn:Hhit.
  - (* a hit *)
    cbn [mbind option_bind].
    destruct (cache_hit_Some _ _ _ _ _ _ _ Hhit) as (Hl & ic & Hic & _).
    assert (rc_of f h = Some (ref_count ic)) as Hrc by (unfold rc_of; by rewrite Hic).
    destruct (use_entry_spec (icon_cache f) ext f l h (ref_count ic) Hr Hacc Hrc)
      as (f' & E & Hr' & Hacc' & Htab' & Hfb' & Hna' & Hsw' & Hd' & Hage).
    { specialize (Hroom h _ Hrc). lia. }
    exists f', h. split; [exact E |].
    split.
    { split.
      - eauto.
      - unfold accounted. by rewrite Htab'.
      - by apply ext_add_nonneg.
      - intros i Hli%(descends_is_Some _ _ _ Hd'). rewrite Hna'. by apply Halloc.
      - by rewrite Htab', Hfb'.
      - by rewrite Htab'. }
    done.
  - (* a miss *)
    cbn [mbind option_bind].
    rewrite (obind_Some _ _ _ (create_normal_cache_icon_eq env icon m s fn f)).
    unfold chosen.
    destruct (synthesized env icon m s fn) as [ic|] eqn:Hsyn.
    + (* made with the modifier *)
      cbn [mbind option_bind].
      rewrite decide_False by (by intros [? _]). cbn [mbind option_bind].
      destruct (synthesized_fields _ _ _ _ _ _ Hsyn) as (Hrc & Hnode & _).
      destruct (miss_new_entry ext f l key ic Hinv Hr Hrc Hnode)
        as (f4 & f' & E4 & E & Hrest).
      rewrite (obind_Some _ _ _ E4). cbn [mbind option_bind].
      exists f', (next_alloc f). split; [exact E |]. tauto.
    + cbn [mbind option_bind]. destruct m as [mm|].
      * rewrite decide_True by done.
        rewrite (obind_Some _ _ _ (create_normal_cache_icon_eq env icon None s fn f)).
        destruct (synthesized env icon None s fn) as [ic|] eqn:Hsyn'.
        -- (* made without the modifier *)
           cbn [mbind option_bind].
           destruct (synthesized_fields _ _ _ _ _ _ Hsyn') as (Hrc & Hnode & _).
           destruct (miss_new_entry ext f l key ic Hinv Hr Hrc Hnode)
             as (f4 & f' & E4 & E & Hrest).
           rewrite (obind_Some _ _ _ E4). cbn [mbind option_bind].
           exists f', (next_alloc f). split; [exact E |]. tauto.
        -- (* the fallback *)
           cbn [mbind option_bind].
           destruct (miss_fallback ext f l key Hinv Hr Hroom)
             as (g & f4 & f' & Eg & Hfbg & E4 & E & Hrest).
           rewrite (obind_Some _ _ _ Eg). cbn [mbind option_bind].
           rewrite Hfbg. rewrite (obind_Some _ _ _ E4). cbn [mbind option_bind].
           exists f', (fallback_icon f). split; [exact E |]. tauto.
      * rewrite decide_False by (by intros [_ ?]). cbn [mbind option_bind].
        destruct (miss_fallback ext f l key Hinv Hr Hroom)
          as (g & f4 & f' & Eg & Hfbg & E4 & E & Hrest).
        rewrite (obind_Some _ _ _ Eg). cbn [mbind option_bind].
        rewrite Hfbg. rewrite (obind_Some _ _ _ E4). cbn [mbind option_bind].
        exists f', (fallback_icon f). split; [exact E |]. tauto.
Qed.
Lemma inv_ext_eq ext ext' f :
  (forall j, ext j = ext' j) -> inv ext f -> inv ext' f.
Proof.
  intros He [Hr Ha Hx Hl Hu Hk]. split; try done.
  - by apply (accounted_for_ext _ ext).
  - intros i. rewrite <- He. apply Hx.
Qed.

Lemma instance_init_inv :
  exists f, nautilus_icon_factory_instance_init = Some f /\
    inv no_ext f /\ ring f [] /\ icon_cache f = [] /\ sweep_timer f = 0 /\
    fallback_icon f = 0%nat /\ next_alloc f = 1%nat /\
    forall i rc, rc_of f i = Some rc -> rc = 1.
Proof.
  exists
    {| icon_cache := []; recently_used_dummy_head := {| next := Some Head; prev := Some Head |};
       recently_used_count := 0; sweep_timer := 0; fallback_icon := 0%nat;
       icons := <[0%nat := {| ref_count := 1; pixbuf := {| pixels := 0; g_ref_count := 1 |};
                    display_name := None; mtime := 0;
                    recently_used_node := {| next := None; prev := None |}; age := 0 |}]> ∅;
       next_alloc := 1%nat |}.
  split; [reflexivity|].
  match goal with |- inv _ ?f /\ _ => assert (Hring : ring f []) end.
  { split; [constructor | done | done | |].
    - intros i Hi. by apply elem_of_nil in Hi.
    - intros [|i] c; unfold load_node; simpl.
      + by intros [= <-].
      + destruct (decide (i = 0%nat)) as [->|Hn].
        * rewrite lookup_insert_eq. simpl. by intros [= <-].
        * rewrite lookup_insert_ne, lookup_empty by done. done. }
  split; [|split; [exact Hring|]].
  - split; [by exists [] | | done | | | done].
    + intros i. unfold rc_of, fallback_ref. simpl.
      destruct (decide (i = 0%nat)) as [->|Hn].
      * rewrite lookup_insert_eq. simpl. unfold no_ext. split; [lia|done].
      * rewrite lookup_insert_ne, lookup_empty by done. done.
    + intros i. simpl. destruct (decide (i = 0%nat)) as [->|Hn].
      * lia.
      * rewrite lookup_insert_ne, lookup_empty by done. by intros [? ?].
    + intros i _. simpl. lia.
  - repeat split; try done.
    intros i rc. unfold rc_of. simpl.
    destruct (decide (i = 0%nat)) as [->|Hn].
    + rewrite lookup_insert_eq. simpl. congruence.
    + rewrite lookup_insert_ne, lookup_empty by done. done.
Qed.
Lemma cache_icon_unref_inv ext f i :
  inv ext f -> 1 <= ext i ->
  exists f', cache_icon_unref i f = Some f' /\
    inv (ext_add i (-1) ext) f' /\
    touched i f f' /\
    (forall l, ring f l -> ring f' (after_unref f i l)) /\
    (forall j, is_Some (icons f' !! j) -> is_Some (icons f !! j)) /\
    (forall j rc', rc_of f' j = Some rc' ->
       exists rc, rc_of f j = Some rc /\ rc' <= rc).
Proof.
  intros [[l Hl] Ha Hx Hal Hu Hk] Hi.
  destruct (cache_icon_unref_spec (icon_cache f) ext f l i Hl Ha Hi)
    as (f' & E & Hl' & Ha' & Ht & Hic).
  assert (Hlive : forall j, is_Some (icons f' !! j) -> is_Some (icons f !! j)).
  { intros j Hj. destruct (decide (j = i)) as [->|Hn].
    - rewrite Hic in Hj. case_decide; [by destruct Hj|].
      by apply fmap_is_Some in Hj.
    - by apply (touched_is_Some i f f' j Ht Hn). }
  exists f'. split; [done|]. split; [|split; [done|split; [|split; [done|]]]].
  - split.
    + by eexists.
    + unfold accounted. by rewrite (touched_icon_cache _ _ _ Ht).
    + intros j. unfold ext_add. pose proof (Hx j).
      destruct (decide (j = i)) as [->|?]; lia.
    + intros j Hj. rewrite (touched_next_alloc _ _ _ Ht). auto.
    + rewrite (touched_icon_cache _ _ _ Ht), (touched_fallback_icon _ _ _ Ht). done.
    + by rewrite (touched_icon_cache _ _ _ Ht).
  - intros l0 Hl0.
    destruct (cache_icon_unref_spec (icon_cache f) ext f l0 i Hl0 Ha Hi)
      as (f2 & E2 & Hl2 & _). congruence.
  - intros j rc' Hj. destruct (decide (j = i)) as [->|Hn].
    + unfold rc_of in *. rewrite Hic in Hj. case_decide; [done|].
      destruct (icons f !! i); [|done]. simpl in *.
      eexists. split; [done|]. injection Hj as <-. lia.
    + rewrite (rc_of_touched i f f' j Ht Hn) in Hj. eexists. split; [done|lia].
Qed.

Lemma room_le n m f : room n f -> m <= n -> room m f.
Proof. intros Hr Hm i rc Hi. specialize (Hr i rc Hi). lia. Qed.

Lemma room_shrinks n f f' :
  room n f ->
  (forall j rc', rc_of f' j = Some rc' -> exists rc, rc_of f j = Some rc /\ rc' <= rc) ->
  room n f'.
Proof.
  intros Hr H i rc' Hi. destruct (H i rc' Hi) as (rc & Hrc & Hle).
  specialize (Hr i rc Hrc). lia.
Qed.

Lemma fallback_live ext f : inv ext f -> exists rc, rc_of f (fallback_icon f) = Some rc /\ 1 <= rc.
Proof.
  intros Hinv. pose proof (inv_accounted _ _ Hinv (fallback_icon f)) as H.
  destruct (rc_of f (fallback_icon f)) as [rc|].
  - exists rc. split; [done|lia].
  - unfold fallback_ref in H. rewrite decide_True in H by done.
    pose proof (count_refs_nonneg (icon_cache f) (fallback_icon f)). lia.
Qed.

Lemma count_refs_insert_le T key c i :
  count_refs
    match g_hash_table_lookup T key with
    | Some _ => replace_value T key c
    | None => (key, c) :: T
    end i <= count_refs T i + 1.
Proof.
  destruct (g_hash_table_lookup T key) as [old|] eqn:E.
  - rewrite (count_refs_replace_value T key old c i E). repeat case_decide; lia.
  - simpl. case_decide; lia.
Qed.

(** The reference counts after a call are at most two above those before. *)
Lemma rc_grows_by_two ext f f' c T' i rc' :
  inv ext f -> accounted_for T' (ext_add c 1 ext) f' ->
  fallback_icon f' = fallback_icon f ->
  (forall j, count_refs T' j <= count_refs (icon_cache f) j + 1) ->
  rc_of f' i = Some rc' ->
  match rc_of f i with Some rc => rc' <= rc + 2 | None => rc' <= 2 end.
Proof.
  intros Hinv Ha' Hfb Hc Hi.
  pose proof (inv_accounted _ _ Hinv i) as H.
  specialize (Ha' i). rewrite Hi in Ha'. specialize (Hc i).
  assert (fallback_ref f' i = fallback_ref f i) as Hf
    by (unfold fallback_ref; by rewrite Hfb).
  assert (ext_add c 1 ext i <= ext i + 1) by (unfold ext_add; case_decide; lia).
  destruct (rc_of f i); lia.
Qed.

Lemma room_after_call n ext f f' c T' :
  inv ext f -> accounted_for T' (ext_add c 1 ext) f' ->
  fallback_icon f' = fallback_icon f ->
  (forall j, count_refs T' j <= count_refs (icon_cache f) j + 1) ->
  0 <= n -> room (n + 2) f -> room n f'.
Proof.
  intros Hinv Ha' Hfb Hc Hn Hr i rc' Hi.
  pose proof (rc_grows_by_two ext f f' c T' i rc' Hinv Ha' Hfb Hc Hi) as H.
  destruct (rc_of f i) as [rc|] eqn:E.
  - specialize (Hr i rc E). lia.
  - destruct (fallback_live ext f Hinv) as (rc & Hrc & Hge).
    specialize (Hr _ _ Hrc). lia.
Qed.

Lemma table_after_call env icon m s fn ext f l f' c :
  inv ext f -> ring f l -> room 2 f ->
  get_icon_from_cache env (Some icon) m s fn f = Some (f', Some c) ->
  forall j, count_refs (icon_cache f') j <= count_refs (icon_cache f) j + 1.
Proof.
  intros Hinv Hl Hr E j.
  destruct (get_icon_from_cache_spec env icon m s fn ext f l Hinv Hl Hr)
    as (f2 & c2 & E2 & _ & _ & _ & _ & H).
  rewrite E in E2. injection E2 as <- <-.
  destruct (cache_hit env icon m s fn f).
  - destruct H as (_ & -> & _). lia.
  - destruct H as (_ & -> & _). apply count_refs_insert_le.
Qed.

Lemma get_icon_from_cache_room n env icon m s fn ext f f' c :
  inv ext f -> 0 <= n -> room (n + 2) f ->
  get_icon_from_cache env (Some icon) m s fn f = Some (f', Some c) ->
  inv (ext_add c 1 ext) f' /\ room n f'.
Proof.
  intros Hinv Hn Hr E. destruct (inv_ring _ _ Hinv) as [l Hl].
  assert (Hr2 : room 2 f) by (apply (room_le (n + 2)); [done|lia]).
  destruct (get_icon_from_cache_spec env icon m s fn ext f l Hinv Hl Hr2)
    as (f2 & c2 & E2 & Hinv' & Hfb & _).
  pose proof (table_after_call env icon m s fn ext f l f' c Hinv Hl Hr2 E) as Hc.
  rewrite E in E2. injection E2 as <- <-.
  split; [done|].
  apply (room_after_call n ext f f' c (icon_cache f') Hinv
           (inv_accounted _ _ Hinv') Hfb Hc Hn Hr).
Qed.
Lemma inv_shrink ext f f' l' :
  inv ext f -> ring f' l' -> accounted ext f' ->
  fallback_icon f' = fallback_icon f -> next_alloc f' = next_alloc f ->
  (forall j, is_Some (icons f' !! j) -> is_Some (icons f !! j)) ->
  (forall j, count_refs (icon_cache f') j <= count_refs (icon_cache f) j) ->
  keys_distinct (icon_cache f') ->
  inv ext f' /\
  forall j rc', rc_of f' j = Some rc' ->
    exists rc, rc_of f j = Some rc /\ rc' <= rc.
Proof.
  intros Hinv Hl' Ha' Hfb Hna Hlive Hc Hk. split.
  - split; [by eexists | done | apply (inv_ext _ _ Hinv) | | | done].
    + intros j Hj. rewrite Hna. apply (inv_alloc _ _ Hinv). auto.
    + intros j Hj. rewrite Hfb in Hj.
      pose proof (inv_uniq _ _ Hinv j Hj). specialize (Hc j). lia.
  - intros j rc' Hj.
    assert (is_Some (rc_of f j)) as [rc Hrc].
    { apply rc_of_is_Some, Hlive, rc_of_is_Some. by eexists. }
    exists rc. split; [done|].
    pose proof (inv_accounted _ _ Hinv j) as H. rewrite Hrc in H.
    specialize (Ha' j). rewrite Hj in Ha'. specialize (Hc j).
    assert (fallback_ref f' j = fallback_ref f j) as Hf
      by (unfold fallback_ref; by rewrite Hfb).
    lia.
Qed.

Lemma nautilus_icon_factory_sweep_inv ext f :
  inv ext f ->
  exists f', nautilus_icon_factory_sweep f = Some f' /\
    inv ext f' /\
    icon_cache f' = filter (fun kv => evictable f kv.2 = false) (icon_cache f) /\
    (forall l, ring f l -> ring f' l) /\
    descends f f' /\ fallback_icon f' = fallback_icon f /\
    next_alloc f' = next_alloc f /\ sweep_timer f' = 0 /\
    (forall j rc', rc_of f' j = Some rc' ->
       exists rc, rc_of f j = Some rc /\ rc' <= rc).
Proof.
  intros Hinv. destruct (inv_ring _ _ Hinv) as [l Hl].
  destruct (nautilus_icon_factory_sweep_spec ext f l (inv_ext _ _ Hinv) Hl
              (inv_accounted _ _ Hinv))
    as (f' & E & HT & Hl' & Ha' & Hd & Hfb & Hna & Hst & Hlive).
  destruct (inv_shrink ext f f' l Hinv Hl' Ha' Hfb Hna Hlive) as [Hinv' Hrc].
  { intros j. rewrite HT. apply count_refs_filter. }
  { rewrite HT. apply keys_distinct_filter, (inv_keys _ _ Hinv). }
  exists f'. repeat (split; [done|]). split; [|done].
  intros l0 Hl0.
  destruct (nautilus_icon_factory_sweep_spec ext f l0 (inv_ext _ _ Hinv) Hl0
              (inv_accounted _ _ Hinv)) as (f2 & E2 & _ & Hl2 & _).
  congruence.
Qed.

Lemma count_refs_unlink_node_le T k i :
  count_refs (unlink_node T k) i <= count_refs T i.
Proof.
  destruct (g_hash_table_lookup T k) as [v|] eqn:E.
  - rewrite (count_refs_unlink_node T k v i E). case_decide; lia.
  - assert (unlink_node T k = T) as ->; [|lia].
    induction T as [|[k0 v0] T IH]; [done|]. simpl in *.
    destruct (cache_key_equal k0 k); [done|]. by rewrite IH.
Qed.

Lemma g_hash_table_remove_inv ext f key :
  inv ext f ->
  exists f' removed, g_hash_table_remove key f = Some (f', removed) /\
    inv ext f' /\
    removed = bool_decide (is_Some (g_hash_table_lookup (icon_cache f) key)) /\
    icon_cache f' = unlink_node (icon_cache f) key /\
    fallback_icon f' = fallback_icon f /\
    next_alloc f' = next_alloc f /\ sweep_timer f' = sweep_timer f /\
    descends f f' /\
    (forall j rc', rc_of f' j = Some rc' ->
       exists rc, rc_of f j = Some rc /\ rc' <= rc).
Proof.
  intros Hinv. destruct (inv_ring _ _ Hinv) as [l Hl].
  destruct (g_hash_table_lookup (icon_cache f) key) as [v|] eqn:E.
  - destruct (g_hash_table_remove_Some ext f l key v (inv_ext _ _ Hinv) Hl
                (inv_accounted _ _ Hinv) E)
      as (f' & E' & HT & Hl' & Ha' & Hfb & Hna & Hst & Hd).
    destruct (inv_shrink ext f f' _ Hinv Hl' Ha' Hfb Hna) as [Hinv' Hrc].
    { intros j. apply descends_is_Some, Hd. }
    { intros j. rewrite HT. apply count_refs_unlink_node_le. }
    { rewrite HT. apply keys_distinct_unlink_node, (inv_keys _ _ Hinv). }
    exists f', true. repeat (split; [done|]). done.
  - exists f, false. rewrite (g_hash_table_remove_None key f E).
    split; [done|]. split; [done|]. split; [done|].
    split.
    { clear Hinv Hl. induction (icon_cache f) as [|[k0 v0] T IH]; [done|].
      simpl in *. destruct (cache_key_equal k0 key); [done|]. by rewrite <- IH. }
    repeat (split; [done|]). split.
    + intros j ic Hj. by exists ic.
    + intros j rc' Hj. exists rc'. split; [done|lia].
Qed.

Lemma nautilus_icon_factory_clear_inv clear_pathnames f :
  inv no_ext f ->
  exists f', nautilus_icon_factory_clear clear_pathnames f = Some f' /\
    inv no_ext f' /\
    icon_cache f' =
      (if decide (clear_pathnames = 0)
       then filter (fun kv => first_char_is_slash (name kv.1) = true) (icon_cache f)
       else []) /\
    fallback_icon f' = fallback_icon f /\
    next_alloc f' = next_alloc f /\ sweep_timer f' = sweep_timer f /\
    (forall j rc', rc_of f' j = Some rc' ->
       exists rc, rc_of f j = Some rc /\ rc' <= rc).
Proof.
  intros Hinv. destruct (inv_ring _ _ Hinv) as [l Hl].
  destruct (decide (clear_pathnames = 0)) as [->|Hn].
  - destruct (nautilus_icon_factory_clear_names no_ext f l (inv_ext _ _ Hinv) Hl
                (inv_accounted _ _ Hinv))
      as (f' & l' & E & HT & Hl' & Ha' & Hfb & Hna & Hst & Hlive & _).
    destruct (inv_shrink no_ext f f' l' Hinv Hl' Ha' Hfb Hna Hlive) as [Hinv' Hrc].
    { intros j. rewrite HT. apply count_refs_filter. }
    { rewrite HT. apply keys_distinct_filter, (inv_keys _ _ Hinv). }
    exists f'. repeat (split; [done|]). done.
  - destruct (nautilus_icon_factory_clear_all clear_pathnames f l Hn Hl
                (inv_accounted _ _ Hinv))
      as (f' & l' & E & HT & Hl' & _ & Ha' & Hfb & Hna & Hst & Hlive).
    destruct (inv_shrink no_ext f f' l' Hinv Hl' Ha' Hfb Hna Hlive) as [Hinv' Hrc].
    { intros j. rewrite HT. simpl. apply count_refs_nonneg. }
    { by rewrite HT. }
    exists f'. repeat (split; [done|]). done.
Qed.
Lemma elem_of_lookup_is_Some T k v k' :
  (k, v) ∈ T -> cache_key_equal k k' = true ->
  is_Some (g_hash_table_lookup T k').
Proof.
  induction T as [|[k0 v0] T IH]; intros Hin Hk.
  - by apply elem_of_nil in Hin.
  - simpl. destruct (cache_key_equal k0 k') eqn:E; [by eexists|].
    apply elem_of_cons in Hin as [[= -> ->]|Hin]; [congruence|auto].
Qed.

Lemma lookup_of_elem_of T k v :
  keys_distinct T -> (k, v) ∈ T -> g_hash_table_lookup T k = Some v.
Proof.
  induction T as [|[k0 v0] T IH]; intros Hd Hin.
  - by apply elem_of_nil in Hin.
  - simpl in *. destruct Hd as [Hnone Hd].
    apply elem_of_cons in Hin as [[= -> ->]|Hin].
    + by rewrite cache_key_equal_refl.
    + destruct (cache_key_equal k0 k) eqn:E; [|auto].
      destruct (elem_of_lookup_is_Some T k v k0 Hin) as [? ?]; [|congruence].
      by rewrite cache_key_equal_sym.
Qed.

Lemma count_refs_pos_elem_of T v :
  1 <= count_refs T v -> exists k, (k, v) ∈ T.
Proof.
  induction T as [|[k0 v0] T IH]; simpl; [lia|].
  intros H. destruct (decide (v0 = v)) as [->|Hn].
  - exists k0. apply elem_of_cons. by left.
  - destruct IH as [k Hk]; [lia|]. exists k. apply elem_of_cons. by right.
Qed.

Lemma lookup_Some_elem_of T k v :
  g_hash_table_lookup T k = Some v ->
  exists s, (s, v) ∈ T /\ cache_key_equal s k = true.
Proof. apply lookup_elem_of. Qed.

(** Two keys that do not compare equal and have the same value make two
    nodes with that value. *)
Lemma count_refs_two_keys T k1 k2 v :
  g_hash_table_lookup T k1 = Some v -> g_hash_table_lookup T k2 = Some v ->
  cache_key_equal k1 k2 = false -> 2 <= count_refs T v.
Proof.
  induction T as [|[k0 v0] T IH]; simpl; [done|].
  intros H1 H2 Hne.
  destruct (cache_key_equal k0 k1) eqn:E1, (cache_key_equal k0 k2) eqn:E2.
  - rewrite cache_key_equal_sym in E1.
    rewrite (cache_key_equal_trans k1 k0 k2 E1 E2) in Hne. done.
  - injection H1 as ->. rewrite decide_True by done.
    pose proof (count_refs_lookup T k2 v H2). lia.
  - injection H2 as ->. rewrite decide_True by done.
    pose proof (count_refs_lookup T k1 v H1). lia.
  - specialize (IH H1 H2 Hne). case_decide; lia.
Qed.

Lemma get_then_release env icon m s fn f :
  inv no_ext f -> room 2 f ->
  exists f1 c f2,
    get_icon_from_cache env (Some icon) m s fn f = Some (f1, Some c) /\
    cache_icon_unref c f1 = Some f2 /\
    inv (ext_add c 1 no_ext) f1 /\
    inv no_ext f2 /\ touched c f1 f2 /\
    (forall n, 0 <= n -> room (n + 2) f -> room n f2).
Proof.
  intros Hinv Hr. destruct (inv_ring _ _ Hinv) as [l Hl].
  destruct (get_icon_from_cache_spec env icon m s fn no_ext f l Hinv Hl Hr)
    as (f1 & c & E & Hinv1 & _).
  destruct (cache_icon_unref_inv _ f1 c Hinv1) as (f2 & E2 & Hinv2 & Ht & _ & _ & Hrc).
  { unfold ext_add, no_ext. rewrite decide_True by done. lia. }
  exists f1, c, f2. repeat (split; [done|]). split.
  - apply (inv_ext_eq _ _ _ (ext_add_cancel c no_ext) Hinv2).
  - split; [done|]. intros n Hn Hrn.
    apply (room_shrinks n f1); [|done].
    by apply (get_icon_from_cache_room n env icon m s fn no_ext f f1 c).
Qed.

Lemma gets_released_inv reqs f :
  inv no_ext f -> room (2 * Z.of_nat (length reqs)) f ->
  exists f', gets_released reqs f = Some f' /\ inv no_ext f' /\
    forall n, 0 <= n -> room (n + 2 * Z.of_nat (length reqs)) f -> room n f'.
Proof.
  revert f. induction reqs as [|r reqs IH]; intros f Hinv Hr.
  - exists f. split; [done|]. split; [done|]. intros n _ H.
    apply (room_le _ _ _ H). simpl. lia.
  - assert (Hr2 : room 2 f) by (apply (room_le _ _ _ Hr); simpl length; lia).
    destruct (get_then_release (req_env r) (req_icon r) (req_modifier r)
                (req_size r) (req_force r) f Hinv Hr2)
      as (f1 & c & f2 & E1 & E2 & _ & Hinv2 & _ & Hroom).
    destruct (IH f2 Hinv2) as (f' & E' & Hinv' & Hroom').
    { apply Hroom; [lia|]. apply (room_le _ _ _ Hr). simpl length. lia. }
    exists f'. split.
    + cbn [gets_released]. rewrite E1. cbn [mbind option_bind]. rewrite E2. done.
    + split; [done|]. intros n Hn H. apply Hroom'; [done|].
      apply Hroom; [lia|]. apply (room_le _ _ _ H). simpl length. lia.
Qed.

Lemma room_instance_init f n :
  nautilus_icon_factory_instance_init = Some f -> n < 2 ^ 32 - 1 -> room n f.
Proof.
  destruct instance_init_inv as (f0 & E & _ & _ & _ & _ & _ & _ & H).
  intros E' Hn. assert (f = f0) as -> by congruence.
  intros i rc Hi. rewrite (H i rc Hi). lia.
Qed.

Lemma lookup_filter_name (d : string -> bool) T k :
  g_hash_table_lookup (filter (fun kv => d (name kv.1) = true) T) k =
    if d (name k) then g_hash_table_lookup T k else None.
Proof.
  induction T as [|[k0 v0] T IH]; [by destruct (d (name k))|].
  rewrite filter_cons. simpl.
  destruct (cache_key_equal k0 k) eqn:E.
  - assert (name k0 = name k) as Hn.
    { apply cache_key_equal_fields in E. unfold key_fields in E. congruence. }
    rewrite Hn. destruct (decide (d (name k) = true)) as [Hd|Hd].
    + simpl. by rewrite E, Hd.
    + rewrite IH. by destruct (d (name k)).
  - destruct (decide (d (name k0) = true)) as [Hd|Hd].
    + simpl. by rewrite E.
    + done.
Qed.
Lemma del_app x l k : del x (l ++ k) = del x l ++ del x k.
Proof. unfold del. apply filter_app. Qed.

Lemma length_del_le x l : (length (del x l) <= length l)%nat.
Proof. unfold del. apply length_filter. Qed.

Lemma promote_take x l :
  NoDup l -> Z.of_nat (length l) <= ICON_CACHE_COUNT ->
  promote x l = take 20 (x :: del x l).
Proof.
  intros Hnd Hlen. unfold promote, ICON_CACHE_COUNT in *.
  destruct (decide (hd_ptr l = Node x)) as [Hh|Hh].
  { destruct l as [|y t]; [done|]. simpl in Hh. injection Hh as ->.
    apply NoDup_cons in Hnd as [Hx _].
    rewrite del_cons, decide_True by done. rewrite (del_notin x t Hx).
    rewrite take_ge; [done|]. simpl in *. lia. }
  destruct (decide (x ∈ l)) as [Hin|Hin].
  { rewrite take_ge; [done|]. simpl.
    pose proof (length_del x l Hnd Hin). lia. }
  rewrite (del_notin x l Hin).
  destruct (decide (Z.of_nat (length l) < 20)) as [Hlt|Hlt].
  { rewrite take_ge; [done|]. simpl. lia. }
  assert (length l = 20%nat) as Hl20 by lia.
  destruct (last l) as [y|] eqn:Hlast.
  - apply last_Some in Hlast as [l' ->].
    rewrite length_app in Hl20. simpl in Hl20.
    apply NoDup_app in Hnd as (_ & Hdis & _).
    rewrite del_app, del_notin.
    2:{ intros Hy. apply (Hdis y Hy). apply list_elem_of_singleton. done. }
    rewrite del_cons, decide_True by done.
    change (take 20 (x :: l' ++ [y])) with (x :: take 19 (l' ++ [y])).
    rewrite take_app_le by lia. rewrite take_ge by lia.
    by rewrite app_nil_r.
  - apply last_None in Hlast. subst l. done.
Qed.

(** The list after a call starts with the entry returned, before those that
    it started with. *)
Lemma promote_prefix c acc rest :
  NoDup (take 20 acc ++ rest) ->
  Z.of_nat (length (take 20 acc ++ rest)) <= ICON_CACHE_COUNT ->
  c ∉ acc ->
  exists rest', promote c (take 20 acc ++ rest) = take 20 (c :: acc) ++ rest'.
Proof.
  intros Hnd Hlen Hc.
  rewrite (promote_take c _ Hnd Hlen).
  rewrite del_app, del_notin.
  2:{ intros H. apply Hc. by apply (subseteq_take 20 acc). }
  change (take 20 (c :: take 20 acc ++ del c rest))
    with (c :: take 19 (take 20 acc ++ del c rest)).
  rewrite take_app, take_take.
  change (take 20 (c :: acc)) with (c :: take 19 acc).
  replace (19 `min` 20)%nat with 19%nat by lia.
  eexists. rewrite <- app_comm_cons. reflexivity.
Qed.

Lemma gets_suffix reqs f acc f' cs :
  gets reqs f acc = Some (f', cs) ->
  exists new, cs = new ++ acc /\ length new = length reqs.
Proof.
  revert f acc. induction reqs as [|r reqs IH]; intros f acc E.
  - injection E as <- <-. by exists [].
  - cbn [gets] in E.
    destruct (get_icon_from_cache _ _ _ _ _ f) as [[f1 [c|]]|]; try done.
    cbn [mbind option_bind] in E.
    destruct (IH _ _ E) as (new & -> & Hlen).
    exists (new ++ [c]). rewrite <- app_assoc. split; [done|].
    rewrite length_app. simpl. lia.
Qed.

Lemma gets_total reqs ext f acc :
  inv ext f -> room (2 * Z.of_nat (length reqs)) f ->
  exists f' cs ext' l',
    gets reqs f acc = Some (f', cs) /\ inv ext' f' /\
    fallback_icon f' = fallback_icon f /\
    ring f' l' /\ (length l' <= 20)%nat /\
    recently_used_count f' = Z.of_nat (length l').
Proof.
  revert ext f acc. induction reqs as [|r reqs IH]; intros ext f acc Hinv Hr.
  - destruct (inv_ring _ _ Hinv) as [l Hl].
    exists f, acc, ext, l. repeat (split; [done|]). split.
    + pose proof (ring_bound _ _ Hl). unfold ICON_CACHE_COUNT in *. lia.
    + apply (ring_count _ _ Hl).
  - destruct (inv_ring _ _ Hinv) as [l Hl].
    assert (Hr2 : room 2 f) by (apply (room_le _ _ _ Hr); simpl length; lia).
    destruct (get_icon_from_cache_spec (req_env r) (req_icon r) (req_modifier r)
                (req_size r) (req_force r) ext f l Hinv Hl Hr2)
      as (f1 & c & E1 & Hinv1 & Hfb1 & _).
    destruct (get_icon_from_cache_room (2 * Z.of_nat (length reqs))
                (req_env r) (req_icon r) (req_modifier r)
                (req_size r) (req_force r) ext f f1 c Hinv) as [_ Hr1];
      [lia| |done|].
    { apply (room_le _ _ _ Hr). simpl length. lia. }
    destruct (IH _ f1 (c :: acc) Hinv1 Hr1)
      as (f' & cs & ext' & l' & E & Hinv' & Hfb' & Hl').
    exists f', cs, ext', l'. split.
    + cbn [gets]. rewrite E1. cbn [mbind option_bind]. done.
    + split; [done|]. split; [congruence|done].
Qed.
Lemma tracked_key (T : list (CacheKey * icon_ptr)) keys acc x :
  Forall2 (fun k c => g_hash_table_lookup T k = Some c) keys acc ->
  x ∈ acc -> exists k, k ∈ keys /\ g_hash_table_lookup T k = Some x.
Proof.
  intros HF Hx. apply list_elem_of_lookup in Hx as [i Hi].
  destruct (Forall2_lookup_r _ _ _ _ _ HF Hi) as (k & Hk & Hlook).
  exists k. split; [|done]. by apply list_elem_of_lookup_2 in Hk.
Qed.

Lemma tracked_not_returned ext f acc keys key x :
  inv ext f -> tracked f acc keys ->
  Forall (fun k => cache_key_equal key k = false) keys ->
  g_hash_table_lookup (icon_cache f) key = Some x ->
  x ∉ acc.
Proof.
  intros Hinv [Hnd Hfb HT _] Hkeys Hlook Hx.
  destruct (tracked_key _ _ _ _ HT Hx) as (k & Hk & Hlk).
  pose proof (proj1 (Forall_forall _ _) Hkeys k Hk) as Hne. simpl in Hne.
  pose proof (count_refs_two_keys _ _ _ _ Hlook Hlk Hne) as H2.
  destruct (decide (x = fallback_icon f)) as [->|Hn]; [done|].
  pose proof (inv_uniq _ _ Hinv x Hn). lia.
Qed.

Lemma tracked_step env icon m s fn ext f acc keys f1 c :
  inv ext f -> room 2 f -> tracked f acc keys ->
  Forall (fun k => cache_key_equal
            {| name := icon; modifier := m; nominal_size := s;
               force_nominal := fn |} k = false) keys ->
  get_icon_from_cache env (Some icon) m s fn f = Some (f1, Some c) ->
  c <> fallback_icon f ->
  tracked f1 (c :: acc)
    ({| name := icon; modifier := m; nominal_size := s;
        force_nominal := fn |} :: keys).
Proof.
  intros Hinv Hr Htr Hkeys E Hcfb.
  pose proof Htr as [Hnd Hfb HT (l & rest & Hl & Hlr)].
  destruct (get_icon_from_cache_spec env icon m s fn ext f l Hinv Hl Hr)
    as (f' & c' & E' & Hinv' & Hfb' & _ & _ & H).
  rewrite E in E'. injection E' as <- <-.
  pose proof (ring_nodup _ _ Hl) as Hndl.
  pose proof (ring_bound _ _ Hl) as Hbl.
  set (key := {| name := icon; modifier := m; nominal_size := s;
                 force_nominal := fn |}) in *.
  destruct (cache_hit env icon m s fn f) as [h|] eqn:Hhit.
  - destruct H as (-> & HT1 & _ & Hl1 & _).
    destruct (cache_hit_Some _ _ _ _ _ _ _ Hhit) as [Hlook _].
    unfold lookup_icon_from_cache in Hlook. fold key in Hlook.
    assert (Hnin : h ∉ acc)
      by apply (tracked_not_returned ext f acc keys key h Hinv Htr Hkeys Hlook).
    split.
    + by apply NoDup_cons.
    + rewrite Hfb'. intros [?|?]%elem_of_cons; done.
    + rewrite HT1. by constructor.
    + subst l. destruct (promote_prefix h acc rest Hndl Hbl Hnin) as [rest' Hp].
      exists (promote h (take 20 acc ++ rest)), rest'. done.
  - destruct H as (Hc & HT1 & _ & Hl1 & _).
    destruct (chosen env icon m s fn) as [made|]; [|done].
    assert (Hnin : c ∉ acc).
    { intros Hx. destruct (tracked_key _ _ _ _ HT Hx) as (k & _ & Hlk).
      destruct (accounted_lookup_live ext f k c (inv_accounted _ _ Hinv)
                  (inv_ext _ _ Hinv) Hlk) as [ic Hic].
      assert (c < next_alloc f)%nat by (apply (inv_alloc _ _ Hinv); by eexists).
      lia. }
    split.
    + by apply NoDup_cons.
    + rewrite Hfb'. intros [?|?]%elem_of_cons; done.
    + rewrite HT1. constructor.
      * rewrite lookup_insert_table. by rewrite cache_key_equal_refl.
      * clear -HT Hkeys. induction HT as [|k x keys acc Hkx HT IH]; [constructor|].
        apply Forall_cons in Hkeys as [Hne Hkeys].
        constructor; [|by apply IH].
        rewrite lookup_insert_table. by rewrite Hne.
    + assert (exists rest0,
        match g_hash_table_lookup (icon_cache f) key with
        | Some old => after_unref f old l
        | None => l
        end = take 20 acc ++ rest0 /\
        NoDup (take 20 acc ++ rest0) /\
        Z.of_nat (length (take 20 acc ++ rest0)) <= ICON_CACHE_COUNT)
        as (rest0 & Heq & Hnd0 & Hb0).
      { destruct (g_hash_table_lookup (icon_cache f) key) as [old|] eqn:Hlook.
        - unfold after_unref. case_decide.
          + exists (del old rest).
            assert (old ∉ acc) as Hold
              by apply (tracked_not_returned ext f acc keys key old Hinv Htr
                          Hkeys Hlook).
            assert (del old l = take 20 acc ++ del old rest) as Hd.
            { rewrite Hlr, del_app, del_notin; [done|].
              intros Ho. apply Hold. by apply (subseteq_take 20 acc). }
            rewrite <- Hd. split; [done|]. split; [by apply NoDup_del|].
            pose proof (length_del_le old l). lia.
          + exists rest. by rewrite <- Hlr.
        - exists rest. by rewrite <- Hlr. }
      rewrite Heq in Hl1.
      destruct (promote_prefix c acc rest0 Hnd0 Hb0 Hnin) as [rest' Hp].
      exists (promote c (take 20 acc ++ rest0)), rest'. done.
Qed.
Lemma gets_tracked reqs ext f acc keys f' cs :
  inv ext f -> room (2 * Z.of_nat (length reqs)) f ->
  tracked f acc keys ->
  distinct_keys (req_key <$> reqs) ->
  Forall (fun r => Forall (fun k => cache_key_equal (req_key r) k = false) keys)
    reqs ->
  gets reqs f acc = Some (f', cs) ->
  fallback_icon f ∉ cs ->
  tracked f' cs (reverse (req_key <$> reqs) ++ keys).
Proof.
  revert ext f acc keys.
  induction reqs as [|r reqs IH]; intros ext f acc keys Hinv Hr Htr Hd Hk E Hfb.
  - injection E as <- <-. done.
  - cbn [gets] in E.
    destruct (get_icon_from_cache (req_env r) (Some (req_icon r)) (req_modifier r)
                (req_size r) (req_force r) f) as [[f1 [c|]]|] eqn:E1; try done.
    cbn [mbind option_bind] in E.
    destruct (gets_suffix _ _ _ _ _ E) as (new & Hcs & _).
    assert (Hc : c <> fallback_icon f).
    { intros ->. apply Hfb. rewrite Hcs. apply elem_of_app. right.
      apply elem_of_cons. by left. }
    assert (Hr2 : room 2 f) by (apply (room_le _ _ _ Hr); simpl length; lia).
    apply Forall_cons in Hk as [Hkr Hk].
    pose proof (tracked_step _ _ _ _ _ ext f acc keys f1 c Hinv Hr2 Htr Hkr E1 Hc)
      as Htr1.
    destruct (get_icon_from_cache_room (2 * Z.of_nat (length reqs))
                (req_env r) (req_icon r) (req_modifier r)
                (req_size r) (req_force r) ext f f1 c Hinv) as [Hinv1 Hr1];
      [lia| |done|].
    { apply (room_le _ _ _ Hr). simpl length. lia. }
    destruct (inv_ring _ _ Hinv) as [l Hl].
    destruct (get_icon_from_cache_spec (req_env r) (req_icon r) (req_modifier r)
                (req_size r) (req_force r) ext f l Hinv Hl Hr2)
      as (f2 & c2 & E2 & _ & Hfb1 & _).
    rewrite E1 in E2. injection E2 as <- <-.
    rewrite fmap_cons in Hd. destruct Hd as [Hdr Hd].
    rewrite fmap_cons, reverse_cons, <- app_assoc.
    apply (IH _ f1 (c :: acc) _ Hinv1 Hr1 Htr1 Hd); [|done|by rewrite Hfb1].
    apply Forall_forall. intros r' Hr'. apply Forall_cons. split.
    + rewrite cache_key_equal_sym.
      apply (proj1 (Forall_forall _ _) Hdr (req_key r')).
      apply list_elem_of_fmap. by exists r'.
    + apply (proj1 (Forall_forall _ _) Hk r' Hr').
Qed.
Lemma get_icon_from_cache_lookup env icon m s fn ext f f1 c :
  inv ext f -> room 2 f ->
  get_icon_from_cache env (Some icon) m s fn f = Some (f1, Some c) ->
  lookup_icon_from_cache icon m s fn f1 = Some c.
Proof.
  intros Hinv Hr E. destruct (inv_ring _ _ Hinv) as [l Hl].
  destruct (get_icon_from_cache_spec env icon m s fn ext f l Hinv Hl Hr)
    as (f1' & c' & E' & _ & _ & _ & _ & H).
  rewrite E in E'. injection E' as <- <-.
  unfold lookup_icon_from_cache.
  destruct (cache_hit env icon m s fn f) eqn:Hhit.
  - destruct H as (-> & -> & _).
    by destruct (cache_hit_Some _ _ _ _ _ _ _ Hhit) as [? _].
  - destruct H as (_ & -> & _). rewrite lookup_insert_table.
    by rewrite cache_key_equal_refl.
Qed.

Lemma inv_store_icon ext f i ic ic' :
  inv ext f -> icons f !! i = Some ic ->
  recently_used_node ic' = recently_used_node ic ->
  ref_count ic' = ref_count ic ->
  inv ext (store_icon i ic' f).
Proof.
  intros [[l Hl] Ha Hx Hal Hu Hk] Hic Hnode Hrc. split.
  - exists l. by apply (ring_store_icon f l i ic ic').
  - by apply (accounted_for_store_same_rc _ _ f i ic ic').
  - done.
  - intros j Hj. apply Hal. simpl in Hj.
    destruct (decide (j = i)) as [->|Hn]; [by eexists|].
    by rewrite lookup_insert_ne in Hj.
  - done.
  - done.
Qed.
Lemma g_list_remove_head b rest : g_list_remove (b :: rest) b = rest.
Proof. simpl. by rewrite decide_True. Qed.

Lemma move_links_spec n from to :
  (n <= length from)%nat ->
  move_links n from to = Some (drop n from, reverse (take n from) ++ to).
Proof.
  revert from to. induction n as [|n IH]; intros from to Hn; [done|].
  destruct from as [|b rest]; [simpl in Hn; lia|].
  cbn [move_links]. rewrite g_list_remove_head, IH by (simpl in Hn; lia).
  simpl. by rewrite reverse_cons, <- app_assoc.
Qed.

Lemma handle_go_back_eq w location_arg :
  is_navigation_window w = true -> location w <> None ->
  0 <= location_change_distance w ->
  let d := Z.to_nat (location_change_distance w) in
  handle_go_back w location_arg =
    if decide (d < length (back_list w))%nat then
      Some (set_lists (drop (S d) (back_list w))
              (reverse (take d (back_list w))
                 ++ last_location_bookmark w :: forward_list w) w)
    else None.
Proof.
  intros Hnav Hloc Hd d. unfold handle_go_back. rewrite Hnav. simpl.
  destruct (decide (d < length (back_list w))%nat) as [Hlt|Hge].
  - rewrite decide_True by (unfold d in Hlt; lia).
    rewrite decide_True by done. fold d.
    rewrite move_links_spec by lia. cbn [mbind option_bind].
    destruct (lookup_lt_is_Some_2 (back_list w) d Hlt) as [x Hx].
    by rewrite (drop_S _ _ _ Hx).
  - rewrite decide_False by (unfold d in Hge; lia). done.
Qed.

Lemma handle_go_forward_eq w location_arg :
  is_navigation_window w = true -> location w <> None ->
  0 <= location_change_distance w ->
  let d := Z.to_nat (location_change_distance w) in
  handle_go_forward w location_arg =
    if decide (d < length (forward_list w))%nat then
      Some (set_lists
              (reverse (take d (forward_list w))
                 ++ last_location_bookmark w :: back_list w)
              (drop (S d) (forward_list w)) w)
    else None.
Proof.
  intros Hnav Hloc Hd d. unfold handle_go_forward. rewrite Hnav. simpl.
  destruct (decide (d < length (forward_list w))%nat) as [Hlt|Hge].
  - rewrite decide_True by (unfold d in Hlt; lia).
    rewrite decide_True by done. fold d.
    rewrite move_links_spec by lia. cbn [mbind option_bind].
    destruct (lookup_lt_is_Some_2 (forward_list w) d Hlt) as [x Hx].
    by rewrite (drop_S _ _ _ Hx).
  - rewrite decide_False by (unfold d in Hge; lia). done.
Qed.

(** A navigation back that completes. *)
Lemma navigate_back_spec m w distance b cur L :
  is_navigation_window w = true ->
  location w = Some L -> current_location_bookmark w = Some cur ->
  bookmark_uri cur = L ->
  0 <= distance ->
  let len := Z.of_nat (length (back_list w)) in
  let d := Z.to_nat (if decide (distance >= len) then len - 1 else distance) in
  back_list w !! d = Some (Some b) ->
  m L (bookmark_uri b) = false ->
  (w1 ← nautilus_navigation_window_back_or_forward w true distance;
   location_has_really_changed m w1) =
  Some {| is_navigation_window := true;
          location := Some (bookmark_uri b);
          pending_location := None;
          location_change_type := NAUTILUS_LOCATION_CHANGE_BACK;
          location_change_distance := Z.of_nat d;
          current_location_bookmark :=
            Some (nautilus_bookmark_new (bookmark_uri b) (bookmark_uri b));
          last_location_bookmark := Some cur;
          back_list := drop (S d) (back_list w);
          forward_list :=
            reverse (take d (back_list w)) ++ Some cur :: forward_list w |}.
Proof.
  intros Hnav Hloc Hcur Huri Hdist len d Hb Hm.
  assert (Hlt : (d < length (back_list w))%nat) by (by apply lookup_lt_Some in Hb).
  assert (Hd : (if decide (distance >= len) then len - 1 else distance)
               = Z.of_nat d).
  { unfold d. rewrite Z2Nat.id; [done|]. case_decide; unfold len; lia. }
  unfold nautilus_navigation_window_back_or_forward.
  fold len. rewrite decide_False by (unfold len; lia).
  fold d. rewrite Hb. simpl mjoin. cbn [fmap option_fmap option_map].
  unfold begin_location_change. cbn [mbind option_bind].
  rewrite decide_True by (by left). cbn [mbind option_bind].
  rewrite Hd.
  unfold location_has_really_changed. cbn [pending_location set_pending].
  rewrite decide_True by done.
  unfold update_for_new_location.
  cbn [pending_location set_pending mbind option_bind].
  unfold set_displayed_location.
  cbn [current_location_bookmark set_pending free_location_change].
  rewrite Hcur, Huri, Hm. cbn [negb].
  cbn [location_change_type set_bookmarks set_pending].
  cbn [update_history].
  rewrite handle_go_back_eq; cbn; try done; [|by rewrite Hloc|lia].
  rewrite Nat2Z.id. rewrite decide_True by done.
  cbn [mbind option_bind]. unfold free_location_change, set_location, set_lists,
    set_pending. cbn. by rewrite Hnav.
Qed.

(** A navigation forward that completes. *)
Lemma navigate_forward_spec m w distance b cur L :
  is_navigation_window w = true ->
  location w = Some L -> current_location_bookmark w = Some cur ->
  bookmark_uri cur = L ->
  0 <= distance ->
  let len := Z.of_nat (length (forward_list w)) in
  let d := Z.to_nat (if decide (distance >= len) then len - 1 else distance) in
  forward_list w !! d = Some (Some b) ->
  m L (bookmark_uri b) = false ->
  (w1 ← nautilus_navigation_window_back_or_forward w false distance;
   location_has_really_changed m w1) =
  Some {| is_navigation_window := true;
          location := Some (bookmark_uri b);
          pending_location := None;
          location_change_type := NAUTILUS_LOCATION_CHANGE_FORWARD;
          location_change_distance := Z.of_nat d;
          current_location_bookmark :=
            Some (nautilus_bookmark_new (bookmark_uri b) (bookmark_uri b));
          last_location_bookmark := Some cur;
          back_list :=
            reverse (take d (forward_list w)) ++ Some cur :: back_list w;
          forward_list := drop (S d) (forward_list w) |}.
Proof.
  intros Hnav Hloc Hcur Huri Hdist len d Hb Hm.
  assert (Hlt : (d < length (forward_list w))%nat)
    by (by apply lookup_lt_Some in Hb).
  assert (Hd : (if decide (distance >= len) then len - 1 else distance)
               = Z.of_nat d).
  { unfold d. rewrite Z2Nat.id; [done|]. case_decide; unfold len; lia. }
  unfold nautilus_navigation_window_back_or_forward.
  fold len. rewrite decide_False by (unfold len; lia).
  fold d. rewrite Hb. simpl mjoin. cbn [fmap option_fmap option_map].
  unfold begin_location_change. cbn [mbind option_bind].
  rewrite decide_True by (right; by left). cbn [mbind option_bind].
  rewrite Hd.
  unfold location_has_really_changed. cbn [pending_location set_pending].
  rewrite decide_True by done.
  unfold update_for_new_location.
  cbn [pending_location set_pending mbind option_bind].
  unfold set_displayed_location.
  cbn [current_location_bookmark set_pending free_location_change].
  rewrite Hcur, Huri, Hm. cbn [negb].
  cbn [location_change_type set_bookmarks set_pending].
  cbn [update_history].
  rewrite handle_go_forward_eq; cbn; try done; [|by rewrite Hloc|lia].
  rewrite Nat2Z.id. rewrite decide_True by done.
  cbn [mbind option_bind]. unfold free_location_change, set_location, set_lists,
    set_pending. cbn. by rewrite Hnav.
Qed.
Lemma room_store_icon n f i ic ic' :
  room n f -> icons f !! i = Some ic -> ref_count ic' = ref_count ic ->
  room n (store_icon i ic' f).
Proof.
  intros Hr Hic Hrc j rc Hj. rewrite rc_of_store_icon in Hj.
  case_decide as Hd.
  - subst j. injection Hj as <-. apply (Hr i). unfold rc_of.
    by rewrite Hic, Hrc.
  - by apply (Hr j).
Qed.

Lemma get_pixbuf_for_icon_spec
    env icon modifier nominal_size force_size wants_default f :
  inv no_ext f -> room 2 f ->
  exists f1 c f' r,
    get_icon_from_cache env (Some icon) modifier nominal_size force_size f
      = Some (f1, Some c) /\
    nautilus_icon_factory_get_pixbuf_for_icon env (Some icon) modifier
      nominal_size force_size wants_default f = Some (f', r) /\
    inv no_ext f' /\
    (r = None <-> wants_default = 0 /\ c = fallback_icon f) /\
    (forall p, r = Some p ->
       exists ic, icons f1 !! c = Some ic /\ p = g_object_ref (pixbuf ic) /\
         pixbuf <$> icons f' !! c = Some p) /\
    fallback_icon f' = fallback_icon f /\
    (forall n, 0 <= n -> room (n + 2) f -> room n f').
Proof.
  intros Hinv Hr.
  destruct (get_then_release env icon modifier nominal_size force_size f Hinv Hr)
    as (f1 & c & f2 & E1 & E2 & Hinv1 & Hinv2 & Ht2 & Hroom2).
  destruct (inv_ring _ _ Hinv) as [l Hl].
  destruct (get_icon_from_cache_spec env icon modifier nominal_size
              force_size no_ext f l Hinv Hl Hr)
    as (f1' & c' & E1' & _ & Hfb & _ & Hage & _).
  rewrite E1 in E1'. injection E1' as <- <-.
  pose proof (get_icon_from_cache_lookup _ _ _ _ _ _ _ _ _ Hinv Hr E1) as Hlook.
  unfold nautilus_icon_factory_get_pixbuf_for_icon. rewrite E1.
  cbn [mbind option_bind].
  destruct (decide (wants_default = 0 /\ c = fallback_icon f1)) as [Hd|Hd].
  - exists f1, c, f2, None. rewrite E2. cbn [mbind option_bind].
    split; [done|]. split; [done|]. split; [done|].
    split; [by rewrite <- Hfb|]. split; [done|].
    split; [by rewrite (touched_fallback_icon _ _ _ Ht2)|done].
  - destruct (icons f1 !! c) as [ic|] eqn:Hic; [|done].
    cbn [mbind option_bind].
    set (ic' := set_pixbuf (g_object_ref (pixbuf ic)) ic).
    pose proof (inv_store_icon _ f1 c ic ic' Hinv1 Hic eq_refl eq_refl) as Hinv1'.
    assert (Hext : 1 <= ext_add c 1 no_ext c).
    { unfold ext_add, no_ext. rewrite decide_True by done. lia. }
    destruct (cache_icon_unref_inv _ _ c Hinv1' Hext)
      as (f3 & E3 & Hinv3 & Ht & _ & _ & Hshrink).
    destruct (inv_ring _ _ Hinv1') as [l1 Hl1].
    destruct (cache_icon_unref_spec _ _ _ l1 c Hl1 (inv_accounted _ _ Hinv1') Hext)
      as (f3' & E3' & _ & _ & _ & Hic3).
    rewrite E3 in E3'. injection E3' as <-.
    exists f1, c, f3, (Some (g_object_ref (pixbuf ic))).
    rewrite E3. cbn [mbind option_bind].
    split; [done|]. split; [done|].
    split; [apply (inv_ext_eq _ _ _ (ext_add_cancel c no_ext) Hinv3)|].
    split; [|split; [|split]].
    + split; [done|]. intros [H1 H2]. rewrite <- Hfb in H2. by destruct Hd.
    + intros p [= <-]. exists ic. split; [done|]. split; [done|].
      rewrite Hic3.
      pose proof (inv_accounted _ _ Hinv1' c) as A.
      unfold rc_of in A |- *. simpl in A |- *.
      rewrite lookup_insert_eq in A |- *. simpl in A.
      unfold lookup_icon_from_cache in Hlook.
      pose proof (count_refs_lookup _ _ _ Hlook).
      pose proof (fallback_ref_nonneg (store_icon c ic' f1) c).
      rewrite decide_False; [done|].
      simpl. intros [= Hone]. lia.
    + by rewrite (touched_fallback_icon _ _ _ Ht).
    + intros n Hn Hrn.
      apply (room_shrinks n (store_icon c ic' f1)); [|done].
      apply (room_store_icon n f1 c ic ic'); [|done|done].
      by apply (get_icon_from_cache_room n env icon modifier nominal_size
                  force_size no_ext f f1 c).
Qed.
Lemma room_after_insert n ext f f' :
  inv ext f -> accounted ext f' ->
  fallback_icon f' = fallback_icon f ->
  (forall j, count_refs (icon_cache f') j <= count_refs (icon_cache f) j + 1) ->
  0 <= n -> room (n + 2) f -> room n f'.
Proof.
  intros Hinv Ha' Hfb Hc Hn Hr i rc' Hi.
  pose proof (inv_accounted _ _ Hinv i) as A.
  specialize (Ha' i). rewrite Hi in Ha'. specialize (Hc i).
  assert (fallback_ref f' i = fallback_ref f i) as Hf
    by (unfold fallback_ref; by rewrite Hfb).
  destruct (rc_of f i) as [rc|] eqn:E.
  - specialize (Hr i rc E). lia.
  - destruct (fallback_live ext f Hinv) as (rc & Hrc & Hge).
    specialize (Hr _ _ Hrc). lia.
Qed.

Lemma async_thumbnail_load_func_spec
    env has_alpha frame path loaded modifier nominal_size force_nominal ext f :
  inv ext f ->
  exists f',
    async_thumbnail_load_func env has_alpha frame path loaded modifier
      nominal_size force_nominal f = Some f' /\
    inv ext f' /\
    match stat env path with
    | Some statbuf =>
        if S_ISREG statbuf then
          lookup_icon_from_cache path modifier nominal_size force_nominal f'
            = Some (next_alloc f) /\
          mtime <$> icons f' !! next_alloc f = Some (st_mtime statbuf) /\
          rc_of f' (next_alloc f) = Some (1 + ext (next_alloc f)) /\
          icons f !! next_alloc f = None /\
          pixbuf <$> icons f' !! next_alloc f =
            Some (if has_alpha (pixels loaded) then g_object_ref loaded
                  else {| pixels := frame (pixels loaded);
                          g_ref_count :=
                            if has_alpha (frame (pixels loaded)) then 2
                            else 1 |})
        else f' = f
    | None => f' = f
    end /\
    fallback_icon f' = fallback_icon f /\
    (forall n, 0 <= n -> room (n + 2) f -> room n f').
Proof.
  intros Hinv. unfold async_thumbnail_load_func.
  assert (Hsame : forall n, 0 <= n -> room (n + 2) f -> room n f).
  { intros n Hn H. apply (room_le _ _ _ H). lia. }
  destruct (stat env path) as [sb|]; [|by exists f].
  destruct (S_ISREG sb); simpl; [|by exists f].
  set (key := {| name := path; modifier := modifier;
                 nominal_size := nominal_size; force_nominal := force_nominal |}).
  set (c := next_alloc f).
  set (ic := {| ref_count := 1;
                pixbuf := if has_alpha (pixels loaded) then g_object_ref loaded
                          else {| pixels := frame (pixels loaded);
                                  g_ref_count :=
                                    if has_alpha (frame (pixels loaded)) then 2
                                    else 1 |};
                display_name := None; mtime := st_mtime sb;
                recently_used_node := {| next := None; prev := None |};
                age := 0 |}).
  assert (Hfree : icons f !! c = None).
  { destruct (icons f !! c) eqn:E; [|done].
    assert (c < next_alloc f)%nat by (apply (inv_alloc _ _ Hinv); eauto).
    unfold c in *. lia. }
  fold c.
  match goal with |- exists f', ?lhs = Some f' /\ _ =>
    assert (Hg : lhs = g_hash_table_insert key c (with_new_entry ic f))
  end.
  { unfold update_icon. simpl. rewrite lookup_insert_eq. simpl.
    unfold with_new_entry, ic, store_icon, set_next_alloc, set_icons. simpl.
    destruct (has_alpha (pixels loaded)) eqn:Ea; simpl.
    - rewrite Ea. simpl. by rewrite insert_insert_eq.
    - destruct (has_alpha (frame (pixels loaded))) eqn:Eb; simpl.
      + by rewrite insert_insert_eq.
      + rewrite lookup_insert_eq. simpl. by rewrite !insert_insert_eq. }
  rewrite Hg.
  destruct (inv_ring _ _ Hinv) as [l Hl].
  set (g := with_new_entry ic f).
  assert (Hrg : ring g l) by by apply ring_with_new_entry.
  assert (Hag : accounted (ext_add c 1 ext) g)
    by by apply (accounted_for_with_new_entry _ _ f ic (inv_accounted _ _ Hinv)).
  destruct (g_hash_table_insert_spec (ext_add c 1 ext) g l key c)
    as (f' & E & HT & Hl' & Ha' & Hfb & Hna & _ & Hd); try done.
  { apply ext_add_nonneg, (inv_ext _ _ Hinv). }
  { unfold ext_add. rewrite decide_True by done.
    pose proof (inv_ext _ _ Hinv c). lia. }
  change (icon_cache g) with (icon_cache f) in *.
  change (fallback_icon g) with (fallback_icon f) in *.
  change (next_alloc g) with (S (next_alloc f)) in *.
  assert (Ha'' : accounted ext f').
  { apply (accounted_for_ext _ _ _ _ (ext_add_cancel c ext) Ha'). }
  assert (Hinv' : inv ext f').
  { split.
    - eauto.
    - done.
    - apply (inv_ext _ _ Hinv).
    - intros i Hi%(descends_is_Some _ _ _ Hd). rewrite Hna.
      unfold g, with_new_entry in Hi. simpl in Hi.
      destruct (decide (i = next_alloc f)) as [->|Hne]; [lia|].
      rewrite lookup_insert_ne in Hi by done.
      apply (inv_alloc _ _ Hinv) in Hi. lia.
    - rewrite HT, Hfb. apply uniq_insert; [apply (inv_uniq _ _ Hinv)|].
      intros _. pose proof (inv_accounted _ _ Hinv c) as A. unfold rc_of in A.
      rewrite Hfree in A. simpl in A.
      pose proof (count_refs_nonneg (icon_cache f) c).
      pose proof (fallback_ref_nonneg f c). lia.
    - rewrite HT. apply keys_distinct_insert, (inv_keys _ _ Hinv). }
  exists f'. split; [done|]. split; [done|].
  assert (Hroom : forall n, 0 <= n -> room (n + 2) f -> room n f').
  { intros n Hn Hrn. apply (room_after_insert n ext f f' Hinv Ha'' Hfb); [|done|done].
    intros j. rewrite HT. apply count_refs_insert_le. }
  split; [|done].
  assert (Hlook : g_hash_table_lookup (icon_cache f') key = Some c).
  { rewrite HT, lookup_insert_table. by rewrite cache_key_equal_refl. }
  split; [done|].
  destruct (accounted_lookup_live ext f' key c Ha'' (inv_ext _ _ Hinv) Hlook)
    as [ic' Hic'].
  destruct (Hd c ic' Hic') as (ic0 & Hic0 & Hp & Hm & _).
  unfold g, with_new_entry in Hic0. simpl in Hic0.
  rewrite lookup_insert_eq in Hic0. injection Hic0 as <-.
  split; [rewrite Hic'; simpl; by rewrite Hm|].
  cut (rc_of f' c = Some (1 + ext c)).
  { intros Hrc. split; [done|]. split; [done|].
    rewrite Hic'. simpl. by rewrite Hp. }
  pose proof (Ha'' c) as A. unfold rc_of in A |- *. rewrite Hic' in A |- *.
  simpl in A |- *. f_equal.
  assert (count_refs (icon_cache f') c = 1) as Hc1.
  { pose proof (count_refs_lookup _ _ _ Hlook).
    assert (c <> fallback_icon f') as Hnf.
    { rewrite Hfb. intros Heq.
      destruct (fallback_live _ _ Hinv) as (rc & Hrc & _).
      unfold rc_of in Hrc. rewrite <- Heq, Hfree in Hrc. done. }
    pose proof (inv_uniq _ _ Hinv' c Hnf). lia. }
  assert (fallback_ref f' c = 0) as Hf0.
  { unfold fallback_ref. rewrite decide_False; [done|].
    rewrite Hfb. intros Heq.
    destruct (fallback_live _ _ Hinv) as (rc & Hrc & _).
    unfold rc_of in Hrc. rewrite <- Heq, Hfree in Hrc. done. }
  lia.
Qed.

Lemma nxt_of_app_Node pre x t :
  NoDup (pre ++ x :: t) ->
  nxt_of (pre ++ x :: t) (Node x) = Some (hd_ptr t).
Proof.
  induction pre as [|p pre IH]; intros Hnd; simpl.
  - by rewrite decide_True.
  - apply NoDup_cons in Hnd as [Hp Hnd].
    rewrite decide_False.
    2:{ intros ->. apply Hp. apply elem_of_app. right. by left. }
    by apply IH.
Qed.

Lemma check_from_spec f l :
  ring f l ->
  forall t pre fuel,
    l = pre ++ t -> (length t < fuel)%nat ->
    check_from fuel
      (match last pre with Some x => Node x | None => Head end)
      (Z.of_nat (length pre)) f
    = Some (Z.of_nat (length l)).
Proof.
  intros Hl. pose proof (ring_nodup _ _ Hl) as Hnd.
  pose proof (ring_bound _ _ Hl) as Hb. unfold ICON_CACHE_COUNT in Hb.
  induction t as [|y t IH]; intros pre fuel Hpre Hfuel.
  - rewrite app_nil_r in Hpre. subst pre.
    destruct fuel as [|fuel]; [simpl in Hfuel; lia|]. cbn [check_from].
    set (node := match last l with Some x => Node x | None => Head end).
    assert (Hlive : is_Some (load_node node f)).
    { unfold node. destruct (last l) as [x|] eqn:Hlast; [|by eexists].
      apply (ring_live_node f l x Hl).
      apply last_Some in Hlast as [l' ->]. apply elem_of_app. right. by left. }
    assert (Hn : nxt_of l node = Some Head).
    { unfold node. destruct (last l) as [x|] eqn:Hlast.
      - apply last_Some in Hlast as [l' ->].
        by rewrite (nxt_of_app_Node l' x [] Hnd).
      - apply last_None in Hlast. by subst l. }
    rewrite (load_next_links f _ _ node (ring_links_are f l Hl) Hlive), Hn.
    cbn [mbind option_bind].
    rewrite (load_prev_links f _ _ Head (ring_links_are f l Hl)) by by eexists.
    rewrite (nxt_to_prv l node Head Hnd Hn). cbn [mbind option_bind].
    rewrite decide_True by done. by rewrite decide_True.
  - destruct fuel as [|fuel]; [simpl in Hfuel; lia|]. cbn [check_from].
    set (node := match last pre with Some x => Node x | None => Head end).
    assert (Hy : y ∈ l) by (subst l; apply elem_of_app; right; by left).
    assert (Hlive : is_Some (load_node node f)).
    { unfold node. destruct (last pre) as [x|] eqn:Hlast; [|by eexists].
      apply (ring_live_node f l x Hl).
      apply last_Some in Hlast as [l' ->]. subst l.
      apply elem_of_app. left. apply elem_of_app. right. by left. }
    assert (Hn : nxt_of l node = Some (Node y)).
    { unfold node. destruct (last pre) as [x|] eqn:Hlast.
      - apply last_Some in Hlast as [l' ->]. subst l.
        replace ((l' ++ [x]) ++ y :: t) with (l' ++ x :: y :: t) in *
          by (by rewrite <- app_assoc).
        by rewrite (nxt_of_app_Node l' x (y :: t) Hnd).
      - apply last_None in Hlast. subst pre l. done. }
    rewrite (load_next_links f _ _ node (ring_links_are f l Hl) Hlive), Hn.
    cbn [mbind option_bind].
    rewrite (load_prev_links f _ _ (Node y) (ring_links_are f l Hl)
               (ring_live_node f l y Hl Hy)).
    rewrite (nxt_to_prv l node (Node y) Hnd Hn). cbn [mbind option_bind].
    rewrite decide_True by done. rewrite decide_False by done.
    specialize (IH (pre ++ [y]) fuel).
    rewrite last_snoc, length_app in IH. simpl in IH.
    rewrite <- IH.
    + f_equal. unfold wrap32.
      assert (Z.of_nat (length pre) < 20).
      { subst l. rewrite length_app in Hb. simpl in Hb. lia. }
      rewrite Z.mod_small by lia. lia.
    + by rewrite <- app_assoc.
    + simpl in Hfuel. lia.
Qed.


Lemma check_recently_used_list_ok fuel f l :
  ring f l -> (length l < fuel)%nat ->
  check_recently_used_list fuel f = Some tt.
Proof.
  intros Hl Hfuel. unfold check_recently_used_list.
  pose proof (check_from_spec f l Hl l [] fuel eq_refl Hfuel) as H.
  change (check_from fuel Head 0 f = Some (Z.of_nat (length l))) in H.
  rewrite H. cbn [mbind option_bind].
  by rewrite decide_True by (by rewrite (ring_count _ _ Hl)).
Qed.

(** ** Calls that all return the fallback entry *)

Lemma hd_ptr_promote x l : hd_ptr (promote x l) = Node x.
Proof.
  unfold promote. repeat case_decide; try done.
  by destruct (last l).
Qed.

Lemma promote_elem_of x l y : y ∈ promote x l -> y = x \/ y ∈ l.
Proof.
  unfold promote. repeat case_decide.
  - by right.
  - intros [->|Hy]%elem_of_cons; [by left|]. right.
    by apply elem_of_del in Hy as [_ ?].
  - intros [->|Hy]%elem_of_cons; [by left|by right].
  - destruct (last l) as [z|].
    + intros [->|Hy]%elem_of_cons; [by left|]. right.
      by apply elem_of_del in Hy as [_ ?].
    + intros [->|Hy]%elem_of_cons; [by left|by right].
Qed.

Lemma gets_all_fallback reqs ext f l acc f' cs :
  inv ext f -> ring f l -> room (2 * Z.of_nat (length reqs)) f ->
  gets reqs f acc = Some (f', cs) ->
  (forall new c, cs = new ++ acc -> c ∈ new -> c = fallback_icon f) ->
  exists l',
    ring f' l' /\
    (forall x, x ∈ l' -> x = fallback_icon f \/ x ∈ l) /\
    (reqs = [] -> l' = l) /\
    (reqs <> [] -> hd_ptr l' = Node (fallback_icon f)).
Proof.
  revert ext f l acc. induction reqs as [|r reqs IH];
    intros ext f l acc Hinv Hl Hr E Hall.
  - injection E as <- <-. exists l. split; [done|]. split; [by right|]. done.
  - assert (Hr2 : room 2 f) by (apply (room_le _ _ _ Hr); simpl length; lia).
    destruct (get_icon_from_cache_spec (req_env r) (req_icon r) (req_modifier r)
                (req_size r) (req_force r) ext f l Hinv Hl Hr2)
      as (f1 & c & E1 & Hinv1 & Hfb1 & _ & _ & H).
    destruct (get_icon_from_cache_room (2 * Z.of_nat (length reqs))
                (req_env r) (req_icon r) (req_modifier r)
                (req_size r) (req_force r) ext f f1 c Hinv) as [_ Hr1];
      [lia| |done|].
    { apply (room_le _ _ _ Hr). simpl length. lia. }
    cbn [gets] in E. rewrite E1 in E. cbn [mbind option_bind] in E.
    destruct (gets_suffix _ _ _ _ _ E) as (new & Hcs & _).
    assert (Hc : c = fallback_icon f).
    { apply (Hall (new ++ [c]) c).
      - by rewrite <- app_assoc.
      - apply elem_of_app. right. by left. }
    assert (exists l1, ring f1 l1 /\ hd_ptr l1 = Node c /\
              forall x, x ∈ l1 -> x = c \/ x ∈ l) as (l1 & Hl1 & Hhd1 & Hsub1).
    { destruct (cache_hit (req_env r) (req_icon r) (req_modifier r)
                  (req_size r) (req_force r) f).
      - destruct H as (_ & _ & _ & Hring & _).
        exists (promote c l). split; [done|]. split; [apply hd_ptr_promote|].
        apply promote_elem_of.
      - destruct H as (_ & _ & _ & Hring & _).
        eexists. split; [exact Hring|]. split; [apply hd_ptr_promote|].
        intros x [->|Hx]%promote_elem_of; [by left|]. right.
        destruct (g_hash_table_lookup _ _) as [old|]; [|done].
        by apply (after_unref_subseteq f old l). }
    destruct (IH _ f1 l1 (c :: acc) Hinv1 Hl1 Hr1 E)
      as (l' & Hl' & Hsub & Hnil & Hhd).
    { intros new' c' Hcs' Hc'. rewrite Hfb1.
      apply (Hall (new' ++ [c]) c').
      - by rewrite <- app_assoc.
      - apply elem_of_app. by left. }
    exists l'. split; [done|]. split.
    { intros x Hx. destruct (Hsub x Hx) as [->|Hx1]; [left; congruence|].
      destruct (Hsub1 x Hx1) as [->|?]; [by left|by right]. }
    split; [done|]. intros _.
    destruct reqs as [|r' reqs].
    + rewrite (Hnil eq_refl). congruence.
    + rewrite Hhd by done. by rewrite Hfb1.
Qed.

(** * The claims of the specification *)

(** ** C1: the sweep and the age of an entry *)

(** C1 (the code departs from the rule of the maximum age).  The sweep
    removes the node of every entry that is outside the recently-used list
    and whose pixbuf nobody else holds, whatever the age of the entry, so
    also when the age after the increment of this pass is [ICON_MAX_AGE] or
    less: the node is gone from the table, and the entry is freed unless
    somebody else refers to it.  The test of the age in
    [nautilus_icon_factory_possibly_free_cached_icon] is followed by a
    second [return TRUE]. *)
Theorem sweep_evicts_at_any_age ext f key v ic :
  inv ext f ->
  (key, v) ∈ icon_cache f ->
  icons f !! v = Some ic ->
  next (recently_used_node ic) = None ->
  g_ref_count (pixbuf ic) <= 1 ->
  exists f', nautilus_icon_factory_sweep f = Some f' /\
    g_hash_table_lookup (icon_cache f') key = None /\
    (ext v = 0 -> v <> fallback_icon f -> icons f' !! v = None).
Proof.
  intros Hinv Hin Hic Hnext Hpix.
  destruct (nautilus_icon_factory_sweep_inv ext f Hinv)
    as (f' & E & Hinv' & HT & _ & _ & Hfb & _).
  assert (Hev : evictable f v = true).
  { unfold evictable. rewrite Hic.
    rewrite !bool_decide_eq_true_2; done. }
  exists f'. split; [done|]. split.
  - destruct (g_hash_table_lookup (icon_cache f') key) as [v'|] eqn:El; [|done].
    destruct (lookup_elem_of _ _ _ El) as (s & Hs & Heq).
    rewrite HT in Hs. apply list_elem_of_filter in Hs as [Hkeep Hs].
    simpl in Hkeep.
    pose proof (lookup_of_elem_of _ _ _ (inv_keys _ _ Hinv) Hs) as L1.
    pose proof (lookup_of_elem_of _ _ _ (inv_keys _ _ Hinv) Hin) as L2.
    rewrite (lookup_equal_keys _ _ _ Heq) in L1. congruence.
  - intros Hext Hnfb.
    pose proof (inv_accounted _ _ Hinv' v) as Ha. unfold rc_of in Ha.
    destruct (icons f' !! v) as [ic'|]; [|done]. simpl in Ha.
    unfold fallback_ref in Ha. rewrite Hfb, decide_False in Ha by done.
    destruct (count_refs_pos_elem_of (icon_cache f') v) as [k Hk]; [lia|].
    rewrite HT in Hk. apply list_elem_of_filter in Hk as [Hkeep _].
    simpl in Hkeep. congruence.
Qed.

(** The first of twenty-one icons looked up one after the other has left the
    list, at age 0; the next sweep frees it. *)
Lemma sweep_evicts_at_any_age_witness :
  exists f f',
    (f0 ← nautilus_icon_factory_instance_init;
     gets_released (numbered_requests theme_env 21) f0) = Some f /\
    age <$> icons f !! 1%nat = Some 0 /\
    nautilus_icon_factory_sweep f = Some f' /\
    g_hash_table_lookup (icon_cache f')
      (req_key (numbered_request theme_env 0)) = None /\
    icons f' !! 1%nat = None.
Proof.
  destruct instance_init_inv as (f0 & E0 & Hinv0 & _).
  destruct (gets_released_inv (numbered_requests theme_env 21) f0 Hinv0)
    as (f & E & Hinv & _).
  { apply room_instance_init; [done|]. vm_compute. done. }
  exists f. rewrite E0. cbn [mbind option_bind]. rewrite E.
  vm_compute in E0. injection E0 as <-.
  vm_compute in E. injection E as <-.
  pose proof (fun ic => sweep_evicts_at_any_age no_ext _
                (req_key (numbered_request theme_env 0)) 1%nat ic Hinv) as H.
  edestruct H as (f' & E' & Hl & Hfree); try (vm_compute; reflexivity).
  - apply (bool_decide_unpack _). vm_compute. exact I.
  - vm_compute. discriminate.
  - exists f'. split; [done|]. split; [vm_compute; reflexivity|].
    split; [done|]. split; [done|].
    apply Hfree; [done|]. vm_compute. discriminate.
Defined.

(** ** C2: dropping a reference *)

(** C2 (amended).  Dropping a reference that its holder has on the entry [i]
    succeeds and touches no other entry.  When it was the last reference the
    entry is freed at once, whether it is in the recently-used list or not:
    an entry in the list is unlinked first, and the list goes on without
    it, one node shorter; nothing is deferred.  Otherwise the entry stays,
    with one reference less, and the list is as it was. *)
Theorem cache_icon_unref_frees_at_zero ext f l i :
  inv ext f -> ring f l -> 1 <= ext i ->
  exists f' rc,
    cache_icon_unref i f = Some f' /\ rc_of f i = Some rc /\
    (forall j, j <> i -> is_Some (icons f' !! j) <-> is_Some (icons f !! j)) /\
    if decide (rc = 1) then
      icons f' !! i = None /\ ring f' (del i l) /\
      recently_used_count f' =
        recently_used_count f - (if decide (i ∈ l) then 1 else 0)
    else
      rc_of f' i = Some (rc - 1) /\ ring f' l /\
      recently_used_count f' = recently_used_count f.
Proof.
  intros Hinv Hl Hi.
  destruct (cache_icon_unref_spec (icon_cache f) ext f l i Hl
              (inv_accounted _ _ Hinv) Hi) as (f' & E & Hl' & _ & Ht & Hic).
  assert (is_Some (rc_of f i)) as [rc Hrc].
  { apply (accounted_for_live _ _ _ _ (inv_accounted _ _ Hinv)).
    pose proof (count_refs_nonneg (icon_cache f) i).
    pose proof (fallback_ref_nonneg f i). lia. }
  exists f', rc. split; [done|]. split; [done|]. split.
  { intros j Hj. by apply (touched_is_Some i f f' j Ht). }
  unfold after_unref in Hl'.
  destruct (decide (rc_of f i = Some 1)) as [H1|H1];
    destruct (decide (rc = 1)) as [->|Hn]; try congruence.
  - split; [done|]. split; [done|].
    rewrite (ring_count _ _ Hl'), (ring_count _ _ Hl).
    destruct (decide (i ∈ l)) as [Hin|Hin].
    + rewrite (length_del i l (ring_nodup _ _ Hl) Hin). lia.
    + rewrite (del_notin i l Hin). lia.
  - split; [|split; [done|]].
    + unfold rc_of in *. rewrite Hic.
      destruct (icons f !! i); simpl in *; congruence.
    + by rewrite (ring_count _ _ Hl'), (ring_count _ _ Hl).
Qed.

(** A caller drops its reference to an icon that the table keeps. *)
Lemma cache_icon_unref_frees_at_zero_witness :
  exists f f',
    (f0 ← nautilus_icon_factory_instance_init;
     get_icon_from_cache theme_env (Some "icon-A") None 48 FALSE f0)
      = Some (f, Some 1%nat) /\
    cache_icon_unref 1%nat f = Some f' /\
    rc_of f 1%nat = Some 2 /\ rc_of f' 1%nat = Some 1.
Proof.
  destruct instance_init_inv as (f0 & E0 & Hinv0 & Hring0 & _).
  destruct (get_icon_from_cache_spec theme_env "icon-A" None 48 FALSE no_ext f0 []
              Hinv0 Hring0) as (f & c & E & Hinv & _).
  { apply room_instance_init; [done|]. vm_compute. done. }
  rewrite E0. cbn [mbind option_bind].
  vm_compute in E0. injection E0 as <-.
  assert (Hc : c = 1%nat).
  { vm_compute in E. by injection E as _ <-. }
  subst c. destruct (inv_ring _ _ Hinv) as [l Hl].
  destruct (cache_icon_unref_frees_at_zero _ f l 1%nat Hinv Hl)
    as (f' & rc & E' & Hrc & _ & H).
  { vm_compute. discriminate. }
  exists f, f'. split; [exact E|]. split; [done|].
  assert (Hrc2 : rc_of f 1%nat = Some 2).
  { vm_compute in E. injection E as <-. vm_compute. reflexivity. }
  split; [done|].
  assert (rc = 2) as -> by congruence.
  rewrite decide_False in H by done. by destruct H as [-> _].
Defined.

(** The last reference to an entry that is in the list is dropped: the
    entry is freed in that call. *)
Lemma last_unref_frees_a_listed_entry :
  exists f ic f',
    (f0 ← nautilus_icon_factory_instance_init;
     '(f1, _) ← get_icon_from_cache theme_env (Some "icon-A") None 48 FALSE f0;
     '(f2, _) ← nautilus_icon_factory_remove_from_cache FALSE
                  (Some "icon-A") None 48 f1;
     Some f2) = Some f /\
    icons f !! 1%nat = Some ic /\
    ref_count ic = 1 /\
    next (recently_used_node ic) = Some Head /\
    recently_used_count f = 1 /\
    cache_icon_unref 1%nat f = Some f' /\
    icons f' !! 1%nat = None /\
    recently_used_count f' = 0.
Proof.
  eexists _, _, _.
  split; [vm_compute; reflexivity|].
  split; [vm_compute; reflexivity|].
  split; [reflexivity|]. split; [reflexivity|]. split; [reflexivity|].
  split; [vm_compute; reflexivity|].
  split; vm_compute; reflexivity.
Qed.

(** ** C3: the sweep and the recently-used list *)

(** C3.  The sweep leaves alone every entry that is in the recently-used
    list when it runs (the [next] link of its node is not null), whatever its
    age and however many holders its pixbuf has: the node stays in the table,
    a lookup of its key still finds the entry, the entry is live with the
    image it had, and the list is the same. *)
Theorem sweep_keeps_listed_entries ext f l key v ic :
  inv ext f -> ring f l ->
  (key, v) ∈ icon_cache f ->
  icons f !! v = Some ic ->
  next (recently_used_node ic) <> None ->
  exists f' ic',
    nautilus_icon_factory_sweep f = Some f' /\
    (key, v) ∈ icon_cache f' /\
    g_hash_table_lookup (icon_cache f') key = Some v /\
    icons f' !! v = Some ic' /\ pixbuf ic' = pixbuf ic /\
    recently_used_node ic' = recently_used_node ic /\
    v ∈ l /\ ring f' l.
Proof.
  intros Hinv Hl Hin Hic Hnext.
  destruct (nautilus_icon_factory_sweep_inv ext f Hinv)
    as (f' & E & Hinv' & HT & Hring & Hd & _).
  assert (Hev : evictable f v = false).
  { unfold evictable. rewrite Hic.
    by rewrite (bool_decide_eq_false_2 (next (recently_used_node ic) = None)). }
  assert (Hin' : (key, v) ∈ icon_cache f').
  { rewrite HT. apply list_elem_of_filter. done. }
  assert (is_Some (icons f' !! v)) as [ic' Hic'].
  { apply rc_of_is_Some.
    apply (accounted_for_live _ _ _ _ (inv_accounted _ _ Hinv')).
    pose proof (count_refs_elem_of _ _ _ Hin').
    pose proof (fallback_ref_nonneg f' v). pose proof (inv_ext _ _ Hinv' v). lia. }
  exists f', ic'. split; [done|]. split; [done|].
  split; [apply (lookup_of_elem_of _ _ _ (inv_keys _ _ Hinv') Hin')|].
  split; [done|].
  destruct (Hd v ic' Hic') as (ic0 & Hic0 & Hp & _).
  assert (ic0 = ic) as -> by congruence.
  split; [done|].
  pose proof (ring_links _ _ Hl (Node v) (recently_used_node ic)) as L.
  unfold load_node in L. rewrite Hic in L. specialize (L eq_refl).
  pose proof (ring_links _ _ (Hring l Hl) (Node v) (recently_used_node ic')) as L'.
  unfold load_node in L'. rewrite Hic' in L'. specialize (L' eq_refl).
  split; [congruence|]. split; [|auto].
  destruct (decide (v ∈ l)) as [|Hnin]; [done|].
  rewrite L in Hnext. cbn [next] in Hnext.
  by rewrite (proj2 (nxt_of_Node_None l v) Hnin) in Hnext.
Qed.

(** An icon that was just looked up is in the list and survives the sweep. *)
Lemma sweep_keeps_listed_entries_witness :
  exists f f',
    (f0 ← nautilus_icon_factory_instance_init;
     gets_released (numbered_requests theme_env 1) f0) = Some f /\
    nautilus_icon_factory_sweep f = Some f' /\
    g_hash_table_lookup (icon_cache f')
      (req_key (numbered_request theme_env 0)) = Some 1%nat /\
    is_Some (icons f' !! 1%nat).
Proof.
  destruct instance_init_inv as (f0 & E0 & Hinv0 & _).
  destruct (gets_released_inv (numbered_requests theme_env 1) f0 Hinv0)
    as (f & E & Hinv & _).
  { apply room_instance_init; [done|]. vm_compute. done. }
  exists f. rewrite E0. cbn [mbind option_bind]. rewrite E.
  vm_compute in E0. injection E0 as <-.
  vm_compute in E. injection E as <-.
  destruct (inv_ring _ _ Hinv) as [l Hl].
  pose proof (fun ic => sweep_keeps_listed_entries no_ext _ l
                (req_key (numbered_request theme_env 0)) 1%nat ic Hinv Hl) as H.
  edestruct H as (f' & ic' & E' & _ & Hlook & Hic' & _).
  - apply (bool_decide_unpack _). vm_compute. exact I.
  - vm_compute. reflexivity.
  - vm_compute. discriminate.
  - exists f'. split; [done|]. split; [done|]. split; [done|]. by eexists.
Defined.

(** ** C4: a miss with an icon that cannot be made *)

(** C4.  A call with a name and a modifier, for which the table has no entry
    to use and no image can be made with the modifier, makes the image for
    the name without the modifier: that new entry is the result.  When this
    fails too the result is the fallback entry, the one the factory had
    before the call: no entry is allocated, the image of the fallback entry
    is the same and its reference count has grown.  In both cases the call
    returns, and a lookup of the four fields of the call finds the result
    afterwards. *)
Theorem get_icon_from_cache_falls_back
    env icon modifier nominal_size force_nominal ext f :
  inv ext f -> room 2 f ->
  cache_hit env icon (Some modifier) nominal_size force_nominal f = None ->
  synthesized env icon (Some modifier) nominal_size force_nominal = None ->
  exists f' c,
    get_icon_from_cache env (Some icon) (Some modifier) nominal_size
      force_nominal f = Some (f', Some c) /\
    lookup_icon_from_cache icon (Some modifier) nominal_size force_nominal f'
      = Some c /\
    fallback_icon f' = fallback_icon f /\
    match synthesized env icon None nominal_size force_nominal with
    | Some made =>
        c = next_alloc f /\ icons f !! c = None /\
        exists ic, icons f' !! c = Some ic /\ pixbuf ic = pixbuf made /\
          mtime ic = mtime made /\ display_name ic = display_name made
    | None =>
        c = fallback_icon f /\ next_alloc f' = next_alloc f /\
        exists ic ic', icons f !! c = Some ic /\ icons f' !! c = Some ic' /\
          pixbuf ic' = pixbuf ic /\ ref_count ic < ref_count ic'
    end.
Proof.
  intros Hinv Hr Hhit Hsyn. destruct (inv_ring _ _ Hinv) as [l Hl].
  destruct (get_icon_from_cache_spec env icon (Some modifier) nominal_size
              force_nominal ext f l Hinv Hl Hr)
    as (f' & c & E & Hinv' & Hfb & _ & Hage & H).
  rewrite Hhit in H. unfold chosen in H. rewrite Hsyn in H.
  destruct H as (Hc & HT & Hna & _ & Hd).
  exists f', c. split; [done|]. split; [|split; [done|]].
  { unfold lookup_icon_from_cache. rewrite HT, lookup_insert_table.
    by rewrite cache_key_equal_refl. }
  assert (is_Some (icons f' !! c)) as [ic' Hic'].
  { destruct (icons f' !! c); [by eexists|done]. }
  destruct (Hd c ic' Hic') as (ic0 & Hic0 & Hp & Hm & Hdn).
  destruct (synthesized env icon None nominal_size force_nominal) as [made|].
  - split; [done|]. split.
    + destruct (icons f !! c) eqn:Ei; [|done].
      assert (c < next_alloc f)%nat by (apply (inv_alloc _ _ Hinv); by eexists).
      lia.
    + exists ic'. split; [done|].
      unfold with_new_entry in Hic0. simpl in Hic0.
      rewrite Hc, lookup_insert_eq in Hic0. injection Hic0 as <-. done.
  - split; [done|]. split; [done|].
    exists ic0, ic'. split; [done|]. split; [done|]. split; [done|].
    pose proof (inv_accounted _ _ Hinv c) as A.
    pose proof (inv_accounted _ _ Hinv' c) as A'.
    unfold rc_of in A, A'. rewrite Hic0 in A. rewrite Hic' in A'.
    simpl in A, A'. rewrite HT in A'.
    unfold ext_add in A'. rewrite decide_True in A' by done.
    assert (fallback_ref f' c = fallback_ref f c) as Hf
      by (unfold fallback_ref; by rewrite Hfb).
    assert (count_refs (icon_cache f) c <=
            count_refs
              match g_hash_table_lookup (icon_cache f)
                      {| name := icon; modifier := Some modifier;
                         nominal_size := nominal_size;
                         force_nominal := force_nominal |} with
              | Some _ => replace_value (icon_cache f)
                      {| name := icon; modifier := Some modifier;
                         nominal_size := nominal_size;
                         force_nominal := force_nominal |} c
              | None => ({| name := icon; modifier := Some modifier;
                         nominal_size := nominal_size;
                         force_nominal := force_nominal |}, c) :: icon_cache f
              end c).
    { destruct (g_hash_table_lookup _ _) as [old|] eqn:El.
      - rewrite (count_refs_replace_value _ _ old c c El).
        rewrite (decide_True (P := c = c)) by done. case_decide; lia.
      - simpl. rewrite decide_True by done. lia. }
    lia.
Qed.

(** Neither [folder-accept] nor [folder] can be made in a world without
    icons: the fallback entry of the new factory is the result. *)
Lemma get_icon_from_cache_falls_back_witness :
  exists f f',
    nautilus_icon_factory_instance_init = Some f /\
    get_icon_from_cache bare_env (Some "folder") (Some "accept") 48 FALSE f
      = Some (f', Some (fallback_icon f)) /\
    lookup_icon_from_cache "folder" (Some "accept") 48 FALSE f'
      = Some (fallback_icon f) /\
    next_alloc f' = next_alloc f.
Proof.
  destruct instance_init_inv as (f0 & E0 & Hinv0 & _).
  destruct (get_icon_from_cache_falls_back bare_env "folder" "accept" 48 FALSE
              no_ext f0 Hinv0) as (f' & c & E & Hlook & _ & H).
  { apply room_instance_init; [done|]. vm_compute. done. }
  { vm_compute in E0. injection E0 as <-. reflexivity. }
  { reflexivity. }
  exists f0, f'. split; [done|].
  change (synthesized bare_env "folder" None 48 FALSE) with (@None CacheIcon) in H.
  destruct H as (-> & Hna & _). done.
Defined.

(** ** C5: when the result is null *)

(** C5 (amended).  [get_icon_from_cache] returns, and its result is NULL
    exactly when the name is NULL; the factory is then as it was.  For every
    other name, the empty one among them, the result is a live entry: the
    fallback entry when the table has no entry to use for the key and no
    image can be made for the name.  The caller
    [nautilus_icon_factory_get_pixbuf_for_icon] does not test the result and
    reads through it: with a NULL name it does not return. *)
Theorem get_icon_from_cache_null_result
    env icon modifier nominal_size force_nominal ext f :
  inv ext f -> room 2 f ->
  exists f' r,
    get_icon_from_cache env icon modifier nominal_size force_nominal f
      = Some (f', r) /\
    (r = None <-> icon = None) /\
    (icon = None -> f' = f) /\
    (forall c, r = Some c -> is_Some (icons f' !! c)) /\
    (forall icon_name c,
       icon = Some icon_name -> r = Some c ->
       cache_hit env icon_name modifier nominal_size force_nominal f = None ->
       chosen env icon_name modifier nominal_size force_nominal = None ->
       c = fallback_icon f) /\
    forall wants_default,
      nautilus_icon_factory_get_pixbuf_for_icon env None modifier nominal_size
        force_nominal wants_default f = None.
Proof.
  intros Hinv Hr. destruct (inv_ring _ _ Hinv) as [l Hl].
  destruct icon as [icon_name|].
  - destruct (get_icon_from_cache_spec env icon_name modifier nominal_size
                force_nominal ext f l Hinv Hl Hr)
      as (f' & c & E & Hinv' & _ & _ & Hage & H).
    exists f', (Some c). split; [done|]. split; [done|]. split; [done|].
    split; [|split; [|done]].
    + intros c' [= <-]. destruct (icons f' !! c); [by eexists|done].
    + intros n c' [= <-] [= <-] Hhit Hch. rewrite Hhit, Hch in H.
      by destruct H as [-> _].
  - exists f, None. split; [done|]. split; [done|]. split; [done|].
    split; [done|]. split; [done|]. done.
Qed.

Lemma get_icon_from_cache_null_result_witness :
  exists f f',
    nautilus_icon_factory_instance_init = Some f /\
    get_icon_from_cache bare_env (Some "no-such-icon") None 48 FALSE f
      = Some (f', Some (fallback_icon f)).
Proof.
  destruct instance_init_inv as (f0 & E0 & Hinv0 & _).
  destruct (get_icon_from_cache_null_result bare_env (Some "no-such-icon") None
              48 FALSE no_ext f0 Hinv0) as (f' & r & E & Hnull & _ & _ & Hfb & _).
  { apply room_instance_init; [done|]. vm_compute. done. }
  exists f0, f'. split; [done|].
  destruct r as [c|]; [|pose proof (proj1 Hnull eq_refl); discriminate].
  rewrite E. f_equal. f_equal. f_equal.
  apply (Hfb "no-such-icon" c eq_refl eq_refl); [|reflexivity].
  vm_compute in E0. injection E0 as <-. reflexivity.
Defined.

(** The empty name is not NULL: the result is an entry, the fallback one. *)
Lemma empty_name_gets_an_entry :
  exists f f',
    nautilus_icon_factory_instance_init = Some f /\
    get_icon_from_cache bare_env (Some EmptyString) None 48 FALSE f
      = Some (f', Some (fallback_icon f)) /\
    is_Some (icons f' !! fallback_icon f).
Proof.
  eexists _, _. split; [reflexivity|]. split; [vm_compute; reflexivity|].
  vm_compute. by eexists.
Qed.

(** ** C6: the keys of the table *)

(** C6 (amended).  Two keys compare equal exactly when their names are the
    same string, their sizes and their flags are the same numbers, and their
    modifiers are the same string once a null modifier is read as the empty
    string, as [eel_strcmp] does; so a key with a null modifier and one with
    an empty modifier compare equal.  Two keys that compare equal have the
    same hash when both or none of the modifiers are null, or when
    [g_str_hash] sends the empty string to 0. *)
Theorem cache_key_equal_characterized :
  (forall a b,
     cache_key_equal a b = true <->
     name a = name b /\
     default EmptyString (modifier a) = default EmptyString (modifier b) /\
     nominal_size a = nominal_size b /\
     force_nominal a = force_nominal b) /\
  (forall g_str_hash a b,
     cache_key_equal a b = true ->
     g_str_hash EmptyString = 0 \/ (modifier a = None <-> modifier b = None) ->
     cache_key_hash g_str_hash a = cache_key_hash g_str_hash b).
Proof.
  split.
  - intros a b. rewrite cache_key_equal_fields. unfold key_fields.
    split.
    + intros [= -> -> -> ->]. done.
    + intros (-> & -> & -> & ->). done.
  - intros h a b Heq Hm.
    apply cache_key_equal_fields in Heq. unfold key_fields in Heq.
    injection Heq as Hn Hmod Hs Hf.
    unfold cache_key_hash. rewrite Hn, Hs, Hf.
    destruct (modifier a) as [ma|], (modifier b) as [mb|]; simpl in Hmod.
    + by rewrite Hmod.
    + destruct Hm as [H0|[_ H]]; [|by specialize (H eq_refl)].
      by rewrite Hmod, H0, Z.lxor_0_r.
    + destruct Hm as [H0|[H _]]; [|by specialize (H eq_refl)].
      by rewrite <- Hmod, H0, Z.lxor_0_r.
    + done.
Qed.

Lemma cache_key_equal_characterized_witness :
  cache_key_hash (fun s => Z.of_nat (String.length s))
    {| name := "folder"; modifier := None; nominal_size := 48; force_nominal := 0 |} =
  cache_key_hash (fun s => Z.of_nat (String.length s))
    {| name := "folder"; modifier := Some EmptyString; nominal_size := 48;
       force_nominal := 0 |}.
Proof.
  apply (proj2 cache_key_equal_characterized).
  - reflexivity.
  - left. reflexivity.
Defined.

(** A null and an empty modifier differ, and the keys compare equal; their
    hashes differ as soon as the hash of the empty string is not 0. *)
Lemma null_and_empty_modifier_compare_equal :
  cache_key_equal
    {| name := "folder"; modifier := None; nominal_size := 48; force_nominal := 0 |}
    {| name := "folder"; modifier := Some EmptyString; nominal_size := 48;
       force_nominal := 0 |} = true /\
  (None : option string) <> Some EmptyString /\
  forall g_str_hash, g_str_hash EmptyString <> 0 ->
    cache_key_hash g_str_hash
      {| name := "folder"; modifier := None; nominal_size := 48; force_nominal := 0 |} <>
    cache_key_hash g_str_hash
      {| name := "folder"; modifier := Some EmptyString; nominal_size := 48;
         force_nominal := 0 |}.
Proof.
  split; [reflexivity|]. split; [discriminate|].
  intros h Hh. unfold cache_key_hash. cbn [name modifier nominal_size force_nominal].
  intros Heq. apply Hh.
  set (x := Z.lxor _ _) in Heq.
  assert (Z.lxor x (Z.lxor x (h EmptyString)) = Z.lxor x x) as H by (by rewrite <- Heq).
  rewrite <- Z.lxor_assoc, Z.lxor_nilpotent, Z.lxor_0_l in H. done.
Qed.

(** ** C7: the capacity of the recently-used list *)

(** The node of an entry outside the list has two null links. *)
Lemma ring_outside f l i ic :
  ring f l -> i ∉ l -> icons f !! i = Some ic ->
  recently_used_node ic = {| next := None; prev := None |}.
Proof.
  intros Hl Hi Hic.
  pose proof (ring_links _ _ Hl (Node i) (recently_used_node ic)) as L.
  unfold load_node in L. rewrite Hic in L. rewrite (L eq_refl).
  by rewrite (proj2 (nxt_of_Node_None l i) Hi), (proj2 (prv_of_Node_None l i) Hi).
Qed.

(** C7 (amended).  Calls of [get_icon_from_cache], one after the other and
    however many, return and leave a list of twenty nodes at most, with the
    counter equal to its length.  [mark_recently_used] of the node next to
    the head changes nothing.  [mark_recently_used] of a node outside a list
    of twenty nodes unlinks the last node and nulls both of its links; its
    entry stays, as every entry does, and the node comes first.  After
    twenty-one calls with keys no two of which compare equal, none of which
    has returned the fallback entry, the list is made of the twenty entries
    returned last, and the entry returned first is outside it, with two null
    links, live, and still the value of its key in the table.  Calls that
    all return the fallback entry, since no image can be made, add one node
    at most between them, however many they are: afterwards the node of the
    fallback entry comes first, every other node of the list was in the list
    before the calls, and a list that was empty before the calls has this
    one node. *)
Theorem recently_used_list_capacity :
  (forall reqs ext f,
     inv ext f -> room (2 * Z.of_nat (length reqs)) f ->
     exists f' cs l,
       gets reqs f [] = Some (f', cs) /\ length cs = length reqs /\
       ring f' l /\ (length l <= 20)%nat /\
       recently_used_count f' = Z.of_nat (length l)) /\
  (forall f l x,
     ring f l -> hd_ptr l = Node x ->
     mark_recently_used (Node x) f = Some f) /\
  (forall f l x,
     ring f l -> length l = 20%nat -> x ∉ l -> is_Some (icons f !! x) ->
     exists f' t y ic,
       mark_recently_used (Node x) f = Some f' /\
       l = t ++ [y] /\ ring f' (x :: t) /\ same_data f f' /\
       icons f' !! y = Some ic /\
       recently_used_node ic = {| next := None; prev := None |}) /\
  (forall reqs ext f f' cs,
     inv ext f -> room 42 f ->
     length reqs = 21%nat -> distinct_keys (req_key <$> reqs) ->
     gets reqs f [] = Some (f', cs) ->
     fallback_icon f ∉ cs ->
     exists recent first r ic,
       cs = recent ++ [first] /\ reqs !! 0%nat = Some r /\
       ring f' recent /\ length recent = 20%nat /\
       recently_used_count f' = 20 /\
       (first ∉ recent) /\
       g_hash_table_lookup (icon_cache f') (req_key r) = Some first /\
       icons f' !! first = Some ic /\
       recently_used_node ic = {| next := None; prev := None |}) /\
  (forall reqs ext f l f' cs,
     inv ext f -> ring f l -> room (2 * Z.of_nat (length reqs)) f ->
     reqs <> [] ->
     gets reqs f [] = Some (f', cs) ->
     (forall c, c ∈ cs -> c = fallback_icon f) ->
     exists l',
       ring f' l' /\ hd_ptr l' = Node (fallback_icon f) /\
       (forall x, x ∈ l' -> x = fallback_icon f \/ x ∈ l) /\
       (length l' <= S (length l))%nat /\
       recently_used_count f' = Z.of_nat (length l') /\
       (l = [] -> l' = [fallback_icon f] /\ recently_used_count f' = 1)).
Proof.
  split; [|split; [|split; [|split]]].
  - intros reqs ext f Hinv Hr.
    destruct (gets_total reqs ext f [] Hinv Hr)
      as (f' & cs & ext' & l' & E & _ & _ & Hl' & Hlen & Hcount).
    exists f', cs, l'. split; [done|]. split; [|done].
    destruct (gets_suffix _ _ _ _ _ E) as (new & -> & Hn).
    by rewrite app_nil_r.
  - intros f l x Hl Hhd.
    assert (Hx : x ∈ l).
    { destruct l as [|y t]; [done|]. injection Hhd as ->.
      apply elem_of_cons. by left. }
    pose proof (load_prev_links f _ _ (Node x) (ring_links_are f l Hl)
                  (ring_live_node f l x Hl Hx)) as Hp.
    rewrite (proj2 (prv_of_Node_Head l x (ring_nodup _ _ Hl)) Hhd) in Hp.
    unfold mark_recently_used. rewrite Hp. cbn [mbind option_bind].
    rewrite decide_False; [done|]. by intros H; apply H.
  - intros f l x Hl Hlen Hx Hlive.
    destruct (mark_recently_used_ring f l x Hl Hlive) as (f' & E & Hl' & Hsd).
    assert (exists t y, l = t ++ [y]) as (t & y & Hty).
    { destruct (last l) as [y|] eqn:Hlast.
      - apply last_Some in Hlast as [t ->]. by exists t, y.
      - apply last_None in Hlast. by subst l. }
    assert (Hp : promote x l = x :: t).
    { rewrite (promote_take x l (ring_nodup _ _ Hl) (ring_bound _ _ Hl)).
      rewrite (del_notin x l Hx). subst l.
      rewrite length_app in Hlen. simpl in Hlen.
      change (take 20 (x :: t ++ [y])) with (x :: take 19 (t ++ [y])).
      rewrite take_app_le by lia. by rewrite take_ge by lia. }
    rewrite Hp in Hl'.
    assert (Hy : y ∈ l) by (subst l; apply elem_of_app; right; by left).
    assert (is_Some (icons f' !! y)) as [ic Hic].
    { apply (same_data_is_Some f f' y Hsd), (ring_live _ _ Hl y Hy). }
    exists f', t, y, ic. split; [done|]. split; [done|]. split; [done|].
    split; [done|]. split; [done|].
    apply (ring_outside f' (x :: t) y ic Hl'); [|done].
    pose proof (ring_nodup _ _ Hl) as Hnd. rewrite Hty in Hnd.
    apply NoDup_app in Hnd as (_ & Hdis & _).
    intros [->|Hyt]%elem_of_cons; [done|].
    apply (Hdis y Hyt). by left.
  - intros reqs ext f f' cs Hinv Hr Hlen Hd E Hfb.
    assert (Htr0 : tracked f [] []).
    { destruct (inv_ring _ _ Hinv) as [l Hl].
      split; [constructor | by intros ?%elem_of_nil | constructor |].
      by exists l, l. }
    assert (Hr' : room (2 * Z.of_nat (length reqs)) f) by (by rewrite Hlen).
    pose proof (gets_tracked reqs ext f [] [] f' cs Hinv Hr' Htr0 Hd) as Htr.
    rewrite app_nil_r in Htr.
    destruct Htr as [Hnd Hfb' HT (l & rest & Hl & Hlr)]; [|done|done|].
    { apply Forall_forall. intros r _. constructor. }
    destruct (gets_suffix _ _ _ _ _ E) as (new & Hcs & Hn).
    rewrite app_nil_r in Hcs. subst new. rewrite Hlen in Hn.
    assert (exists recent first, cs = recent ++ [first]) as (recent & first & Hrf).
    { destruct (last cs) as [y|] eqn:Hlast.
      - apply last_Some in Hlast as [t ->]. by exists t, y.
      - apply last_None in Hlast. by subst cs. }
    subst cs. rewrite length_app in Hn. simpl in Hn.
    assert (Htake : take 20 (recent ++ [first]) = recent).
    { rewrite take_app_le by lia. by rewrite take_ge by lia. }
    rewrite Htake in Hlr.
    assert (rest = []) as ->.
    { pose proof (ring_bound _ _ Hl) as Hb. unfold ICON_CACHE_COUNT in Hb.
      rewrite Hlr, length_app in Hb. destruct rest; [done|]. simpl in Hb. lia. }
    rewrite app_nil_r in Hlr. subst l.
    destruct reqs as [|r reqs]; [done|].
    rewrite fmap_cons, reverse_cons in HT.
    apply Forall2_app_inv in HT as [_ HT].
    2:{ rewrite length_reverse, length_fmap. simpl in Hlen. lia. }
    apply Forall2_cons in HT as [Hlook _].
    apply NoDup_app in Hnd as (_ & Hdis & _).
    assert (Hfirst : first ∉ recent).
    { intros H. apply (Hdis first H). by left. }
    assert (is_Some (icons f' !! first)) as [ic Hic].
    { destruct (gets_total (r :: reqs) ext f [] Hinv Hr')
        as (f2 & cs2 & ext' & l2 & E2 & Hinv' & _).
      rewrite E in E2. injection E2 as <- <-.
      destruct (accounted_lookup_live ext' f' (req_key r) first
                  (inv_accounted _ _ Hinv') (inv_ext _ _ Hinv') Hlook) as [ic ?].
      by exists ic. }
    exists recent, first, r, ic.
    split; [done|]. split; [done|]. split; [done|]. split; [lia|].
    split; [rewrite (ring_count _ _ Hl); lia|].
    split; [done|]. split; [done|]. split; [done|].
    by apply (ring_outside f' recent first ic Hl).
  - intros reqs ext f l f' cs Hinv Hl Hr Hne E Hall.
    destruct (gets_all_fallback reqs ext f l [] f' cs Hinv Hl Hr E)
      as (l' & Hl' & Hsub & _ & Hhd).
    { intros new c Hcs Hc. apply Hall. rewrite Hcs, app_nil_r. done. }
    specialize (Hhd Hne).
    pose proof (ring_nodup _ _ Hl') as Hnd.
    exists l'. split; [done|]. split; [done|]. split; [done|]. split.
    { change (S (length l)) with (length (fallback_icon f :: l)).
      apply submseteq_length, NoDup_submseteq; [done|].
      intros x Hx. apply elem_of_cons. by apply Hsub. }
    split; [apply (ring_count _ _ Hl')|].
    intros ->.
    assert (l' = [fallback_icon f]) as ->.
    { destruct l' as [|y t]; [done|]. injection Hhd as ->.
      apply NoDup_cons in Hnd as [Hy _].
      destruct t as [|z t]; [done|]. exfalso. apply Hy.
      destruct (Hsub z) as [->|Hz].
      - apply elem_of_cons. right. by left.
      - by left.
      - by apply elem_of_nil in Hz. }
    split; [done|]. by rewrite (ring_count _ _ Hl').
Qed.

(** Twenty-one icons of the theme, looked up one after the other; and
    twenty-one names for which no image can be made. *)
Lemma recently_used_list_capacity_witness :
  exists f f' cs recent first,
    nautilus_icon_factory_instance_init = Some f /\
    gets (numbered_requests theme_env 21) f [] = Some (f', cs) /\
    cs = recent ++ [first] /\ ring f' recent /\ length recent = 20%nat /\
    first = 1%nat /\
    g_hash_table_lookup (icon_cache f')
      (req_key (numbered_request theme_env 0)) = Some first /\
    exists g gs,
      gets (numbered_requests bare_env 21) f [] = Some (g, gs) /\
      ring g [fallback_icon f] /\ recently_used_count g = 1.
Proof.
  destruct instance_init_inv as (f & E0 & Hinv & Hring0 & _).
  destruct (proj1 recently_used_list_capacity (numbered_requests theme_env 21)
              no_ext f Hinv) as (f' & cs & _ & E & _).
  { apply room_instance_init; [done|]. vm_compute. done. }
  destruct (proj1 recently_used_list_capacity (numbered_requests bare_env 21)
              no_ext f Hinv) as (g & gs & _ & Eg & _).
  { apply room_instance_init; [done|]. vm_compute. done. }
  destruct (proj1 (proj2 (proj2 (proj2 recently_used_list_capacity)))
              (numbered_requests theme_env 21) no_ext f f' cs Hinv)
    as (recent & first & r & ic & Hcs & Hr & Hring & Hlen & _ & _ & Hlook & _).
  - apply room_instance_init; [done|]. vm_compute. done.
  - reflexivity.
  - apply (bool_decide_unpack _). vm_compute. exact I.
  - exact E.
  - vm_compute in E0. injection E0 as <-.
    vm_compute in E. injection E as _ <-.
    apply (bool_decide_unpack _). vm_compute. exact I.
  - destruct (proj2 (proj2 (proj2 (proj2 recently_used_list_capacity)))
                (numbered_requests bare_env 21) no_ext f [] g gs Hinv Hring0)
      as (l' & Hl' & _ & _ & _ & _ & Hone).
    + apply room_instance_init; [done|]. vm_compute. done.
    + done.
    + exact Eg.
    + vm_compute in E0. injection E0 as <-.
      vm_compute in Eg. injection Eg as _ <-.
      apply Forall_forall. apply (bool_decide_unpack _). vm_compute. exact I.
    + destruct (Hone eq_refl) as [-> Hcount].
      exists f, f', cs, recent, first.
      split; [done|]. split; [done|]. split; [done|]. split; [done|].
      split; [done|].
      injection Hr as <-. split; [|split; [done|by exists g, gs]].
      vm_compute in E0. injection E0 as <-.
      vm_compute in E. injection E as _ <-.
      apply (f_equal (fun l => last l)) in Hcs.
      rewrite last_snoc in Hcs. vm_compute in Hcs. congruence.
Defined.

(** Twenty-one names for which no image can be made: every call returns the
    fallback entry, and the list has one node. *)
Lemma calls_that_fall_back_leave_one_node :
  exists f f' cs,
    nautilus_icon_factory_instance_init = Some f /\
    distinct_keys (req_key <$> numbered_requests bare_env 21) /\
    gets (numbered_requests bare_env 21) f [] = Some (f', cs) /\
    cs = replicate 21 (fallback_icon f) /\
    recently_used_count f' = 1 /\
    next (recently_used_dummy_head f') = Some (Node (fallback_icon f)) /\
    prev (recently_used_dummy_head f') = Some (Node (fallback_icon f)).
Proof.
  eexists _, _, _.
  split; [reflexivity|].
  split; [apply (bool_decide_unpack _); vm_compute; exact I|].
  split; [vm_compute; reflexivity|].
  repeat split.
Qed.

(** ** C8: an image file that has changed *)

(** C8 (amended).  The name is an absolute filename, and the table has an
    entry for the key whose file has gone, is no regular file any more, or
    has another modification time than the entry.  The call does not use
    that entry.  When the file is a regular one and loads, the result is a
    new entry with the modification time that the file has now, and a lookup
    of the key finds it afterwards.  When the file has gone, is not regular
    or does not load, the result is the fallback entry, and a lookup of the
    key finds the fallback entry afterwards; the modification time that the
    fallback entry stores is left as it was before the call, it is not set
    from the file. *)
Theorem get_icon_from_cache_reloads_changed_file
    env icon modifier nominal_size force_nominal ext f c ic :
  inv ext f -> room 2 f ->
  first_char_is_slash icon = true ->
  lookup_icon_from_cache icon modifier nominal_size force_nominal f = Some c ->
  icons f !! c = Some ic ->
  stale env icon ic ->
  exists f' c',
    get_icon_from_cache env (Some icon) modifier nominal_size force_nominal f
      = Some (f', Some c') /\
    lookup_icon_from_cache icon modifier nominal_size force_nominal f'
      = Some c' /\
    match stat env icon with
    | Some statbuf =>
        if S_ISREG statbuf then
          match load_icon_file env icon 0 nominal_size force_nominal with
          | Some loaded =>
              c' = next_alloc f /\ c' <> c /\
              mtime <$> icons f' !! c' = Some (st_mtime statbuf) /\
              pixels <$> (pixbuf <$> icons f' !! c') = Some (pixels loaded)
          | None =>
              c' = fallback_icon f /\
              is_Some (icons f' !! c') /\
              mtime <$> icons f' !! c' = mtime <$> icons f !! c'
          end
        else
          c' = fallback_icon f /\
          is_Some (icons f' !! c') /\
          mtime <$> icons f' !! c' = mtime <$> icons f !! c'
    | None =>
        c' = fallback_icon f /\
        is_Some (icons f' !! c') /\
        mtime <$> icons f' !! c' = mtime <$> icons f !! c'
    end.
Proof.
  intros Hinv Hr Hslash Hlook Hic Hstale.
  destruct (inv_ring _ _ Hinv) as [l Hl].
  destruct (get_icon_from_cache_spec env icon modifier nominal_size
              force_nominal ext f l Hinv Hl Hr)
    as (f' & c' & E & Hinv' & Hfb & _ & Hage & H).
  assert (Hhit : cache_hit env icon modifier nominal_size force_nominal f = None).
  { unfold cache_hit. rewrite Hlook. simpl. rewrite Hic. simpl.
    rewrite Hslash. by rewrite decide_True. }
  rewrite Hhit in H. destruct H as (Hc & HT & Hna & _ & Hd).
  exists f', c'. split; [done|]. split.
  { unfold lookup_icon_from_cache. rewrite HT, lookup_insert_table.
    by rewrite cache_key_equal_refl. }
  assert (Hsyn : forall m,
    synthesized env icon m nominal_size force_nominal =
      statbuf ← stat env icon;
      if S_ISREG statbuf then
        loaded ← load_icon_file env icon 0 nominal_size force_nominal;
        Some {| ref_count := 1;
                pixbuf := {| pixels := pixels loaded; g_ref_count := 1 |};
                display_name := None;
                mtime := st_mtime statbuf;
                recently_used_node := {| next := None; prev := None |};
                age := 0 |}
      else None).
  { intros m. unfold synthesized. rewrite Hslash.
    destruct (stat env icon) as [sb|]; [|done]. simpl.
    destruct (S_ISREG sb); [|done]. simpl.
    by destruct (load_icon_file env icon 0 nominal_size force_nominal). }
  assert (Hfallback : c' = fallback_icon f -> descends f f' ->
    c' = fallback_icon f /\ is_Some (icons f' !! c') /\
    mtime <$> icons f' !! c' = mtime <$> icons f !! c').
  { intros -> Hd'. split; [done|].
    destruct (fallback_live _ _ Hinv') as (rc & Hrc & _).
    rewrite Hfb in Hrc. unfold rc_of in Hrc.
    destruct (icons f' !! fallback_icon f) as [ic'|] eqn:E1; [|done].
    destruct (Hd' _ _ E1) as (ic0 & -> & _ & Hm & _).
    split; [by eexists|]. simpl. by rewrite Hm. }
  unfold chosen in Hc, Hd. rewrite !Hsyn in Hc, Hd.
  destruct (stat env icon) as [sb|]; simpl in Hc, Hd;
    [|destruct modifier; by apply Hfallback].
  destruct (S_ISREG sb); [|destruct modifier; by apply Hfallback].
  destruct (load_icon_file env icon 0 nominal_size force_nominal) as [loaded|];
    simpl in Hc, Hd; [|destruct modifier; by apply Hfallback].
  split; [done|]. split.
  { assert (c < next_alloc f)%nat by (apply (inv_alloc _ _ Hinv); by eexists).
    lia. }
  assert (is_Some (icons f' !! c')) as [ic' Hic'].
  { destruct (icons f' !! c'); [by eexists|done]. }
  destruct (Hd c' ic' Hic') as (ic0 & Hic0 & Hp & Hm & _).
  unfold with_new_entry in Hic0. simpl in Hic0.
  rewrite Hc, lookup_insert_eq in Hic0. injection Hic0 as <-.
  rewrite Hic'. simpl. by rewrite Hm, Hp.
Qed.

(** A file is cached at modification time 3 and looked up again at
    modification time 5. *)
Lemma get_icon_from_cache_reloads_changed_file_witness :
  exists f f',
    (f0 ← nautilus_icon_factory_instance_init;
     gets_released
       [{| req_env := file_env 3 true; req_icon := "/home/a.png";
           req_modifier := None; req_size := 48; req_force := FALSE |}] f0)
      = Some f /\
    mtime <$> icons f !! 1%nat = Some 3 /\
    get_icon_from_cache (file_env 5 true) (Some "/home/a.png") None 48 FALSE f
      = Some (f', Some 2%nat) /\
    mtime <$> icons f' !! 2%nat = Some 5.
Proof.
  destruct instance_init_inv as (f0 & E0 & Hinv0 & _).
  destruct (gets_released_inv
       [{| req_env := file_env 3 true; req_icon := "/home/a.png";
           req_modifier := None; req_size := 48; req_force := FALSE |}] f0 Hinv0)
    as (f & E & Hinv & Hroom).
  { apply room_instance_init; [done|]. vm_compute. done. }
  assert (Hr : room 2 f).
  { apply Hroom; [lia|]. apply room_instance_init; [done|]. vm_compute. done. }
  exists f. rewrite E0. cbn [mbind option_bind]. rewrite E.
  vm_compute in E0. injection E0 as <-.
  pose proof (fun ic => get_icon_from_cache_reloads_changed_file (file_env 5 true)
                "/home/a.png" None 48 FALSE no_ext f 1%nat ic Hinv Hr eq_refl) as H.
  vm_compute in E. injection E as <-.
  edestruct H as (f' & c' & E' & _ & Hnew).
  - vm_compute. reflexivity.
  - vm_compute. reflexivity.
  - right. vm_compute. discriminate.
  - exists f'. split; [done|]. split; [vm_compute; reflexivity|].
    change (stat (file_env 5 true) "/home/a.png")
      with (Some {| S_ISREG := true; st_mtime := 5 |}) in Hnew.
    cbn match in Hnew. cbn [S_ISREG] in Hnew.
    change (load_icon_file (file_env 5 true) "/home/a.png" 0 48 FALSE)
      with (Some (new_pixbuf 7)) in Hnew.
    destruct Hnew as (-> & _ & Hm & _). split; [exact E'|exact Hm].
Defined.

(** The file has changed and cannot be loaded any more: the result is the
    fallback entry, and the modification time that it carries is 0, while
    that of the file is 5. *)
Lemma changed_file_that_fails_to_load :
  exists f f',
    (f0 ← nautilus_icon_factory_instance_init;
     gets_released
       [{| req_env := file_env 3 true; req_icon := "/home/a.png";
           req_modifier := None; req_size := 48; req_force := FALSE |}] f0)
      = Some f /\
    lookup_icon_from_cache "/home/a.png" None 48 FALSE f = Some 1%nat /\
    mtime <$> icons f !! 1%nat = Some 3 /\
    stat (file_env 5 false) "/home/a.png"
      = Some {| S_ISREG := true; st_mtime := 5 |} /\
    get_icon_from_cache (file_env 5 false) (Some "/home/a.png") None 48 FALSE f
      = Some (f', Some (fallback_icon f)) /\
    mtime <$> icons f' !! fallback_icon f = Some 0.
Proof.
  eexists _, _.
  split; [vm_compute; reflexivity|].
  split; [vm_compute; reflexivity|].
  split; [vm_compute; reflexivity|].
  split; [reflexivity|].
  split; vm_compute; reflexivity.
Qed.

(** ** C9: clearing the cache *)

(** C9.  From a state of the factory in which no caller holds a reference to
    an entry, [nautilus_icon_factory_clear] succeeds.  Called with
    [clear_pathnames] FALSE (absolute filenames are kept) it removes the
    nodes whose name does not start with a slash and no other: a lookup
    finds afterwards what it found before for a name that starts with a
    slash, and nothing for any other name.  Called with [clear_pathnames]
    TRUE it leaves the table empty, and the recently-used list with no node,
    or with the node of the fallback entry alone. *)
Theorem nautilus_icon_factory_clear_removes clear_pathnames f :
  inv no_ext f ->
  exists f',
    nautilus_icon_factory_clear clear_pathnames f = Some f' /\
    fallback_icon f' = fallback_icon f /\
    if decide (clear_pathnames = 0) then
      icon_cache f' =
        filter (fun kv => first_char_is_slash (name kv.1) = true) (icon_cache f) /\
      forall k, g_hash_table_lookup (icon_cache f') k =
        if first_char_is_slash (name k) then g_hash_table_lookup (icon_cache f) k
        else None
    else
      icon_cache f' = [] /\
      (ring f' [] \/ ring f' [fallback_icon f']).
Proof.
  intros Hinv. destruct (inv_ring _ _ Hinv) as [l Hl].
  destruct (decide (clear_pathnames = 0)) as [->|Hn].
  - destruct (nautilus_icon_factory_clear_names no_ext f l (inv_ext _ _ Hinv) Hl
                (inv_accounted _ _ Hinv))
      as (f' & l' & E & HT & _ & _ & Hfb & _).
    exists f'. split; [done|]. split; [done|]. split; [done|].
    intros k. rewrite HT. apply lookup_filter_name.
  - destruct (nautilus_icon_factory_clear_all clear_pathnames f l Hn Hl
                (inv_accounted _ _ Hinv))
      as (f' & l' & E & HT & Hl' & Hor & _ & Hfb & _).
    exists f'. split; [done|]. split; [done|]. split; [done|].
    rewrite Hfb. destruct Hor as [->| ->]; auto.
Qed.

(** An image file and an icon of the theme are in the cache: the file stays
    when filenames are kept, nothing stays otherwise. *)
Lemma nautilus_icon_factory_clear_removes_witness :
  exists f f1 f2,
    (f0 ← nautilus_icon_factory_instance_init;
     gets_released mixed_requests f0) = Some f /\
    length (icon_cache f) = 2%nat /\
    nautilus_icon_factory_clear FALSE f = Some f1 /\
    icon_cache f1 =
      [({| name := "/home/a.png"; modifier := None; nominal_size := 48;
           force_nominal := FALSE |}, 1%nat)] /\
    nautilus_icon_factory_clear TRUE f = Some f2 /\
    icon_cache f2 = [].
Proof.
  destruct instance_init_inv as (f0 & E0 & Hinv0 & _).
  destruct (gets_released_inv mixed_requests f0 Hinv0) as (f & E & Hinv & _).
  { apply room_instance_init; [done|]. vm_compute. done. }
  exists f. rewrite E0. cbn [mbind option_bind]. rewrite E.
  destruct (nautilus_icon_factory_clear_removes FALSE f Hinv)
    as (f1 & E1 & _ & HT1 & _).
  destruct (nautilus_icon_factory_clear_removes TRUE f Hinv)
    as (f2 & E2 & _ & HT2 & _).
  exists f1, f2.
  vm_compute in E0. injection E0 as <-.
  vm_compute in E. injection E as <-.
  split; [done|]. split; [reflexivity|]. split; [done|]. split; [|done].
  rewrite HT1. vm_compute. reflexivity.
Defined.

(** ** C10: removing one entry *)

(** C10 (the code reads a field it never wrote).  The key that
    [nautilus_icon_factory_remove_from_cache] looks up has the name, the
    modifier and the size of the call, and as [force_nominal] whatever the
    stack holds: a field of the local [lookup_key] that the function does not
    set.  The node removed, and the result, are those for that key: a node
    whose key has the three fields of the call and another [force_nominal]
    stays, with all the nodes that do not compare equal to the key looked
    up, and the result is then FALSE unless a node with the value of the stack
    is there too. *)
Theorem remove_from_cache_looks_up_stack_value
    stack_value icon_name modifier size ext f :
  inv ext f ->
  exists f' removed,
    nautilus_icon_factory_remove_from_cache stack_value (Some icon_name)
      modifier size f = Some (f', removed) /\
    inv ext f' /\
    (removed = true <->
     is_Some (g_hash_table_lookup (icon_cache f)
                {| name := icon_name; modifier := modifier;
                   nominal_size := size; force_nominal := stack_value |})) /\
    (forall k,
       g_hash_table_lookup (icon_cache f') k =
         if cache_key_equal
              {| name := icon_name; modifier := modifier;
                 nominal_size := size; force_nominal := stack_value |} k
         then None else g_hash_table_lookup (icon_cache f) k).
Proof.
  intros Hinv.
  destruct (g_hash_table_remove_inv ext f
              {| name := icon_name; modifier := modifier;
                 nominal_size := size; force_nominal := stack_value |} Hinv)
    as (f' & removed & E & Hinv' & Hrem & HT & _).
  exists f', removed. split; [exact E|]. split; [done|]. split.
  - rewrite Hrem. apply bool_decide_eq_true.
  - intros k. rewrite HT.
    destruct (cache_key_equal _ k) eqn:Ek.
    + by apply lookup_unlink_node_eq; [apply (inv_keys _ _ Hinv)|].
    + by apply lookup_unlink_node.
Qed.

(** An icon was cached with [force_nominal] TRUE; the stack holds 0 when it
    is to be removed: nothing is removed, and the result is FALSE. *)
Lemma remove_from_cache_looks_up_stack_value_witness :
  exists f f',
    (f0 ← nautilus_icon_factory_instance_init;
     gets_released
       [{| req_env := theme_env; req_icon := "folder"; req_modifier := None;
           req_size := 48; req_force := TRUE |}] f0) = Some f /\
    lookup_icon_from_cache "folder" None 48 TRUE f = Some 1%nat /\
    nautilus_icon_factory_remove_from_cache 0 (Some "folder") None 48 f
      = Some (f', false) /\
    lookup_icon_from_cache "folder" None 48 TRUE f' = Some 1%nat.
Proof.
  destruct instance_init_inv as (f0 & E0 & Hinv0 & _).
  destruct (gets_released_inv
       [{| req_env := theme_env; req_icon := "folder"; req_modifier := None;
           req_size := 48; req_force := TRUE |}] f0 Hinv0)
    as (f & E & Hinv & _).
  { apply room_instance_init; [done|]. vm_compute. done. }
  exists f. rewrite E0. cbn [mbind option_bind]. rewrite E.
  destruct (remove_from_cache_looks_up_stack_value 0 "folder" None 48 no_ext f Hinv)
    as (f' & removed & E' & _ & Hrem & Hlook).
  exists f'.
  vm_compute in E0. injection E0 as <-.
  vm_compute in E. injection E as <-.
  split; [done|]. split; [vm_compute; reflexivity|].
  assert (removed = false) as ->.
  { destruct removed; [|done]. destruct (proj1 Hrem eq_refl) as [? H].
    vm_compute in H. discriminate. }
  split; [done|].
  unfold lookup_icon_from_cache. rewrite Hlook. vm_compute. reflexivity.
Defined.

(** * More properties of the icon factory *)

(** ** The invariant and the operations *)

(** X1.  [nautilus_icon_factory_instance_init] returns a factory that
    satisfies the invariant with no reference held by a caller: the table is
    empty, the list is empty, no sweep is scheduled, and the fallback entry
    is live with one reference, the factory's. *)
Theorem instance_init_establishes_invariant :
  exists f,
    nautilus_icon_factory_instance_init = Some f /\
    inv no_ext f /\ ring f [] /\
    icon_cache f = [] /\ recently_used_count f = 0 /\ sweep_timer f = 0 /\
    rc_of f (fallback_icon f) = Some 1 /\
    forall i, is_Some (icons f !! i) -> i = fallback_icon f.
Proof.
  destruct instance_init_inv as (f & E & Hinv & Hring & HT & Hst & Hfb & Hna & Hrc).
  exists f. split; [done|]. split; [done|]. split; [done|]. split; [done|].
  split; [apply (ring_count _ _ Hring)|]. split; [done|].
  destruct (fallback_live _ _ Hinv) as (rc & Hrc1 & _).
  split; [by rewrite Hrc1, (Hrc _ _ Hrc1)|].
  intros i Hi. pose proof (inv_alloc _ _ Hinv i Hi). lia.
Qed.

(** X2.  From a factory that satisfies the invariant, with room for two more
    references in every count, [get_icon_from_cache] with a name returns an
    entry, and the factory satisfies the invariant again with one more
    reference held by the caller, on the entry returned.  That entry is live,
    its age is 0, it is the first of the recently-used list, and a sweep is
    scheduled. *)
Theorem get_icon_from_cache_keeps_invariant
    env icon modifier nominal_size force_nominal ext f :
  inv ext f -> room 2 f ->
  exists f' c l',
    get_icon_from_cache env (Some icon) modifier nominal_size force_nominal f
      = Some (f', Some c) /\
    inv (ext_add c 1 ext) f' /\
    age <$> icons f' !! c = Some 0 /\
    ring f' l' /\ hd_ptr l' = Node c /\
    sweep_timer f' <> 0 /\
    fallback_icon f' = fallback_icon f.
Proof.
  intros Hinv Hr. destruct (inv_ring _ _ Hinv) as [l Hl].
  destruct (get_icon_from_cache_spec env icon modifier nominal_size
              force_nominal ext f l Hinv Hl Hr)
    as (f' & c & E & Hinv' & Hfb & Hst & Hage & H).
  destruct (cache_hit env icon modifier nominal_size force_nominal f).
  - destruct H as (_ & _ & _ & Hl' & _).
    exists f', c, (promote c l). repeat (split; [done|]).
    split; [apply hd_ptr_promote|done].
  - destruct H as (_ & _ & _ & Hl' & _).
    match type of Hl' with ring _ ?l0 => exists f', c, l0 end.
    repeat (split; [done|]).
    split; [apply hd_ptr_promote|done].
Qed.

Lemma get_icon_from_cache_keeps_invariant_witness :
  exists f f' c l',
    nautilus_icon_factory_instance_init = Some f /\
    get_icon_from_cache theme_env (Some "folder") None 48 FALSE f
      = Some (f', Some c) /\
    ring f' l' /\ hd_ptr l' = Node c.
Proof.
  destruct instance_init_inv as (f & E & Hinv & _).
  destruct (get_icon_from_cache_keeps_invariant theme_env "folder" None 48 FALSE
              no_ext f Hinv) as (f' & c & l' & E' & _ & _ & Hl' & Hhd & _).
  { apply room_instance_init; [done|]. vm_compute. done. }
  by exists f, f', c, l'.
Defined.

(** X3.  A second call with the same name, which is no absolute filename,
    and the same modifier, size and flag returns the entry that the first
    call has returned, in whatever world: it allocates nothing and leaves
    the table as the first call left it. *)
Theorem get_icon_from_cache_twice
    env env' icon modifier nominal_size force_nominal ext f :
  inv ext f -> room 4 f ->
  first_char_is_slash icon = false ->
  exists f1 c f2,
    get_icon_from_cache env (Some icon) modifier nominal_size force_nominal f
      = Some (f1, Some c) /\
    get_icon_from_cache env' (Some icon) modifier nominal_size force_nominal f1
      = Some (f2, Some c) /\
    icon_cache f2 = icon_cache f1 /\
    next_alloc f2 = next_alloc f1 /\
    inv (ext_add c 1 (ext_add c 1 ext)) f2.
Proof.
  intros Hinv Hr Hslash. destruct (inv_ring _ _ Hinv) as [l Hl].
  assert (Hr2 : room 2 f) by (apply (room_le _ _ _ Hr); lia).
  destruct (get_icon_from_cache_spec env icon modifier nominal_size
              force_nominal ext f l Hinv Hl Hr2)
    as (f1 & c & E & Hinv1 & Hfb & Hst & Hage & H).
  destruct (get_icon_from_cache_room 2 env icon modifier nominal_size
              force_nominal ext f f1 c Hinv) as [_ Hr1]; [lia|done|done|].
  assert (Hlook : lookup_icon_from_cache icon modifier nominal_size
                    force_nominal f1 = Some c).
  { unfold lookup_icon_from_cache.
    destruct (cache_hit env icon modifier nominal_size force_nominal f) eqn:Hhit.
    - destruct H as (-> & -> & _).
      by destruct (cache_hit_Some _ _ _ _ _ _ _ Hhit) as [? _].
    - destruct H as (_ & -> & _). rewrite lookup_insert_table.
      by rewrite cache_key_equal_refl. }
  assert (Hhit1 : cache_hit env' icon modifier nominal_size force_nominal f1
                  = Some c).
  { unfold cache_hit. rewrite Hlook. simpl.
    destruct (icons f1 !! c); [|done]. simpl. by rewrite Hslash. }
  destruct (inv_ring _ _ Hinv1) as [l1 Hl1].
  destruct (get_icon_from_cache_spec env' icon modifier nominal_size
              force_nominal _ f1 l1 Hinv1 Hl1 Hr1)
    as (f2 & c2 & E2 & Hinv2 & _ & _ & _ & H2).
  rewrite Hhit1 in H2. destruct H2 as (-> & HT & Hna & _).
  by exists f1, c, f2.
Qed.

Lemma get_icon_from_cache_twice_witness :
  exists f f1 f2 c,
    nautilus_icon_factory_instance_init = Some f /\
    get_icon_from_cache theme_env (Some "folder") None 48 FALSE f
      = Some (f1, Some c) /\
    get_icon_from_cache bare_env (Some "folder") None 48 FALSE f1
      = Some (f2, Some c).
Proof.
  destruct instance_init_inv as (f & E & Hinv & _).
  destruct (get_icon_from_cache_twice theme_env bare_env "folder" None 48 FALSE
              no_ext f Hinv) as (f1 & c & f2 & E1 & E2 & _).
  { apply room_instance_init; [done|]. vm_compute. done. }
  { reflexivity. }
  by exists f, f1, f2, c.
Defined.

(** X4.  [nautilus_icon_factory_get_pixbuf_for_icon] with a name, from a
    factory in which no caller holds an entry: it returns, and no caller
    holds an entry afterwards.  The result is NULL exactly when no default
    icon is wanted and the entry found is the fallback entry; otherwise it is
    the pixbuf of the entry found, with one more reference, the caller's,
    and the entry stays in the cache with that pixbuf. *)
Theorem get_pixbuf_for_icon_releases_the_entry
    env icon modifier nominal_size force_size wants_default f :
  inv no_ext f -> room 2 f ->
  exists f1 c f' r,
    get_icon_from_cache env (Some icon) modifier nominal_size force_size f
      = Some (f1, Some c) /\
    nautilus_icon_factory_get_pixbuf_for_icon env (Some icon) modifier
      nominal_size force_size wants_default f = Some (f', r) /\
    inv no_ext f' /\
    (r = None <-> wants_default = 0 /\ c = fallback_icon f) /\
    (forall p, r = Some p ->
       exists ic, icons f1 !! c = Some ic /\ p = g_object_ref (pixbuf ic) /\
         pixbuf <$> icons f' !! c = Some p).
Proof.
  intros Hinv Hr.
  destruct (get_pixbuf_for_icon_spec env icon modifier nominal_size force_size
              wants_default f Hinv Hr)
    as (f1 & c & f' & r & E1 & E2 & Hinv' & Hnull & Hp & _).
  by exists f1, c, f', r.
Qed.

Lemma get_pixbuf_for_icon_releases_the_entry_witness :
  exists f f' p,
    nautilus_icon_factory_instance_init = Some f /\
    nautilus_icon_factory_get_pixbuf_for_icon theme_env (Some "folder") None
      48 FALSE TRUE f = Some (f', Some p) /\
    g_ref_count p = 2.
Proof.
  destruct instance_init_inv as (f & E & Hinv & _).
  destruct (get_pixbuf_for_icon_releases_the_entry theme_env "folder" None 48
              FALSE TRUE f Hinv) as (f1 & c & f' & r & E1 & E2 & _ & Hnull & Hp).
  { apply room_instance_init; [done|]. vm_compute. done. }
  destruct r as [p|].
  - exists f, f', p. split; [done|]. split; [done|].
    destruct (Hp p eq_refl) as (ic & Hic & -> & _).
    vm_compute in E. injection E as <-.
    vm_compute in E1. injection E1 as <- <-.
    vm_compute in Hic. injection Hic as <-. reflexivity.
  - destruct (proj1 Hnull eq_refl) as [H _]. discriminate.
Defined.

(** X5.  A sweep right after a sweep removes nothing: the table is the one
    that the first sweep has left.  A sweep keeps the invariant, leaves the
    list alone and resets the timer. *)
Theorem sweep_twice ext f :
  inv ext f ->
  exists f1 f2,
    nautilus_icon_factory_sweep f = Some f1 /\
    nautilus_icon_factory_sweep f1 = Some f2 /\
    inv ext f1 /\ (forall l, ring f l -> ring f1 l) /\ sweep_timer f1 = 0 /\
    icon_cache f2 = icon_cache f1.
Proof.
  intros Hinv.
  destruct (nautilus_icon_factory_sweep_inv ext f Hinv)
    as (f1 & E1 & Hinv1 & HT1 & Hring & Hd & Hfb & _ & Hst & _).
  destruct (nautilus_icon_factory_sweep_inv ext f1 Hinv1)
    as (f2 & E2 & _ & HT2 & _).
  exists f1, f2. repeat (split; [done|]).
  rewrite HT2. destruct (inv_ring _ _ Hinv) as [l Hl].
  pose proof (Hring l Hl) as Hl1.
  assert (Hall : Forall (fun kv => evictable f1 kv.2 = false) (icon_cache f1)).
  { apply Forall_forall. intros [k v] Hkv. simpl.
    rewrite HT1 in Hkv. apply list_elem_of_filter in Hkv as [Hkeep _].
    simpl in Hkeep. unfold evictable in *.
    destruct (icons f1 !! v) as [ic1|] eqn:Hic1; [|done].
    destruct (Hd v ic1 Hic1) as (ic0 & Hic0 & Hp & _).
    rewrite Hic0 in Hkeep.
    rewrite (ring_node_eq f1 l v ic1 Hl1 Hic1),
      <- (ring_node_eq f l v ic0 Hl Hic0), Hp.
    done. }
  clear -Hall. induction (icon_cache f1) as [|kv T IH]; [done|].
  apply Forall_cons in Hall as [H1 Hall].
  rewrite filter_cons, decide_True by done. by rewrite IH.
Qed.

Lemma sweep_twice_witness :
  exists f f1 f2,
    (f0 ← nautilus_icon_factory_instance_init;
     gets_released (numbered_requests theme_env 21) f0) = Some f /\
    nautilus_icon_factory_sweep f = Some f1 /\
    nautilus_icon_factory_sweep f1 = Some f2 /\
    length (icon_cache f) = 21%nat /\
    length (icon_cache f1) = 20%nat /\ length (icon_cache f2) = 20%nat.
Proof.
  destruct instance_init_inv as (f0 & E0 & Hinv0 & _).
  destruct (gets_released_inv (numbered_requests theme_env 21) f0 Hinv0)
    as (f & E & Hinv & _).
  { apply room_instance_init; [done|]. vm_compute. done. }
  destruct (sweep_twice no_ext f Hinv) as (f1 & f2 & E1 & E2 & _ & _ & _ & HT).
  exists f, f1, f2. rewrite E0. cbn [mbind option_bind].
  split; [done|]. split; [done|]. split; [done|].
  vm_compute in E0. injection E0 as <-.
  vm_compute in E. injection E as <-.
  rewrite HT. vm_compute in E1. injection E1 as <-. done.
Defined.

(** X6.  Taking a reference to a live entry and dropping it again gives the
    factory back as it was. *)
Theorem cache_icon_ref_then_unref f i ic :
  icons f !! i = Some ic ->
  1 <= ref_count ic -> ref_count ic + 1 < 2 ^ 32 ->
  (f1 ← cache_icon_ref i f; cache_icon_unref i f1) = Some f.
Proof.
  intros Hic H1 H2.
  rewrite (cache_icon_ref_eq f i ic Hic H1 H2). cbn [mbind option_bind].
  erewrite cache_icon_unref_dec.
  2:{ simpl. apply lookup_insert_eq. }
  2:{ simpl. lia. }
  f_equal. destruct f as [T dh cnt st fb ics na]. unfold store_icon, set_icons.
  simpl in *. f_equal.
  rewrite insert_insert_eq.
  replace (ref_count ic + 1 - 1) with (ref_count ic) by lia.
  destruct ic. simpl. by apply insert_id.
Qed.

Lemma cache_icon_ref_then_unref_witness :
  exists f,
    nautilus_icon_factory_instance_init = Some f /\
    (f1 ← cache_icon_ref (fallback_icon f) f;
     cache_icon_unref (fallback_icon f) f1) = Some f.
Proof.
  destruct instance_init_inv as (f & E & _).
  exists f. split; [done|].
  vm_compute in E. injection E as <-.
  eapply cache_icon_ref_then_unref; [reflexivity| |]; vm_compute; done.
Defined.

(** X7.  [mark_recently_used] of the node of a live entry moves the entry to
    the front of the list, keeps the other entries in their order, and cuts
    the list after twenty entries; it changes the links and the counter
    only. *)
Theorem mark_recently_used_moves_to_front f l x :
  ring f l -> is_Some (icons f !! x) ->
  exists f',
    mark_recently_used (Node x) f = Some f' /\
    ring f' (take 20 (x :: del x l)) /\
    same_data f f'.
Proof.
  intros Hl Hx.
  destruct (mark_recently_used_ring f l x Hl Hx) as (f' & E & Hl' & Hsd).
  exists f'. split; [done|]. split; [|done].
  by rewrite <- (promote_take x l (ring_nodup _ _ Hl) (ring_bound _ _ Hl)).
Qed.

Lemma mark_recently_used_moves_to_front_witness :
  exists f f' l,
    (f0 ← nautilus_icon_factory_instance_init;
     gets_released (numbered_requests theme_env 3) f0) = Some f /\
    ring f l /\
    mark_recently_used (Node 1%nat) f = Some f' /\
    ring f' (take 20 (1%nat :: del 1%nat l)).
Proof.
  destruct instance_init_inv as (f0 & E0 & Hinv0 & _).
  destruct (gets_released_inv (numbered_requests theme_env 3) f0 Hinv0)
    as (f & E & Hinv & _).
  { apply room_instance_init; [done|]. vm_compute. done. }
  destruct (inv_ring _ _ Hinv) as [l Hl].
  destruct (mark_recently_used_moves_to_front f l 1%nat Hl) as (f' & E' & Hl' & _).
  { vm_compute in E0. injection E0 as <-.
    vm_compute in E. injection E as <-. vm_compute. by eexists. }
  exists f, f', l. rewrite E0. cbn [mbind option_bind]. done.
Defined.

(** ** The table *)

(** X8.  [cache_key_equal] is an equivalence on the keys: reflexive,
    symmetric and transitive, as a hash table asks of its equality. *)
Theorem cache_key_equal_is_an_equivalence :
  (forall a, cache_key_equal a a = true) /\
  (forall a b, cache_key_equal a b = cache_key_equal b a) /\
  (forall a b c, cache_key_equal a b = true -> cache_key_equal b c = true ->
     cache_key_equal a c = true).
Proof.
  split; [apply cache_key_equal_refl|].
  split; [apply cache_key_equal_sym|apply cache_key_equal_trans].
Qed.

Lemma cache_key_equal_is_an_equivalence_witness :
  cache_key_equal
    {| name := "folder"; modifier := None; nominal_size := 48; force_nominal := 0 |}
    {| name := "folder"; modifier := None; nominal_size := 48; force_nominal := 0 |}
  = true.
Proof.
  apply (proj2 (proj2 cache_key_equal_is_an_equivalence)
           _ {| name := "folder"; modifier := Some EmptyString;
                nominal_size := 48; force_nominal := 0 |}); reflexivity.
Defined.

(** X9.  [nautilus_icon_factory_remove_from_cache] keeps the invariant, and
    a second call with the same arguments, the value on the stack being the
    same, finds nothing: it returns FALSE and changes nothing. *)
Theorem remove_from_cache_twice stack_value icon_name modifier size ext f :
  inv ext f ->
  exists f1 removed,
    nautilus_icon_factory_remove_from_cache stack_value (Some icon_name)
      modifier size f = Some (f1, removed) /\
    inv ext f1 /\
    nautilus_icon_factory_remove_from_cache stack_value (Some icon_name)
      modifier size f1 = Some (f1, false).
Proof.
  intros Hinv. unfold nautilus_icon_factory_remove_from_cache.
  cbn [mbind option_bind].
  set (key := {| name := icon_name; modifier := modifier;
                 nominal_size := size; force_nominal := stack_value |}).
  destruct (g_hash_table_remove_inv ext f key Hinv)
    as (f1 & removed & E & Hinv1 & _ & HT & _).
  exists f1, removed. split; [done|]. split; [done|].
  apply g_hash_table_remove_None. rewrite HT.
  apply lookup_unlink_node_eq; [apply (inv_keys _ _ Hinv)|].
  apply cache_key_equal_refl.
Qed.

Lemma remove_from_cache_twice_witness :
  exists f f1,
    (f0 ← nautilus_icon_factory_instance_init;
     gets_released (numbered_requests theme_env 2) f0) = Some f /\
    nautilus_icon_factory_remove_from_cache FALSE (Some "icon-A") None 48 f
      = Some (f1, true) /\
    nautilus_icon_factory_remove_from_cache FALSE (Some "icon-A") None 48 f1
      = Some (f1, false).
Proof.
  destruct instance_init_inv as (f0 & E0 & Hinv0 & _).
  destruct (gets_released_inv (numbered_requests theme_env 2) f0 Hinv0)
    as (f & E & Hinv & _).
  { apply room_instance_init; [done|]. vm_compute. done. }
  destruct (remove_from_cache_twice FALSE "icon-A" None 48 no_ext f Hinv)
    as (f1 & removed & E1 & _ & E2).
  exists f, f1. rewrite E0. cbn [mbind option_bind].
  split; [done|]. split; [|done].
  rewrite E1. f_equal. f_equal.
  vm_compute in E0. injection E0 as <-.
  vm_compute in E. injection E as <-.
  vm_compute in E1. by injection E1 as _ <-.
Defined.

(** X10.  [nautilus_icon_factory_clear], from a factory in which no caller
    holds an entry, keeps the invariant and the fallback entry, and a second
    call of the same kind removes nothing more. *)
Theorem nautilus_icon_factory_clear_twice clear_pathnames f :
  inv no_ext f ->
  exists f1 f2,
    nautilus_icon_factory_clear clear_pathnames f = Some f1 /\
    inv no_ext f1 /\
    is_Some (icons f1 !! fallback_icon f) /\
    nautilus_icon_factory_clear clear_pathnames f1 = Some f2 /\
    icon_cache f2 = icon_cache f1.
Proof.
  intros Hinv.
  destruct (nautilus_icon_factory_clear_inv clear_pathnames f Hinv)
    as (f1 & E1 & Hinv1 & HT1 & Hfb & _).
  destruct (nautilus_icon_factory_clear_inv clear_pathnames f1 Hinv1)
    as (f2 & E2 & _ & HT2 & _).
  exists f1, f2. split; [done|]. split; [done|]. split.
  { rewrite <- Hfb. apply rc_of_is_Some.
    destruct (fallback_live _ _ Hinv1) as (rc & -> & _). by eexists. }
  split; [done|]. rewrite HT2.
  destruct (decide (clear_pathnames = 0)); [|done].
  rewrite HT1. clear.
  induction (icon_cache f) as [|kv T IH]; [done|].
  rewrite filter_cons. case_decide as Hd.
  - rewrite filter_cons, decide_True by done. by rewrite IH.
  - done.
Qed.

Lemma nautilus_icon_factory_clear_twice_witness :
  exists f f1 f2,
    (f0 ← nautilus_icon_factory_instance_init;
     gets_released mixed_requests f0) = Some f /\
    nautilus_icon_factory_clear FALSE f = Some f1 /\
    nautilus_icon_factory_clear FALSE f1 = Some f2 /\
    icon_cache f2 = icon_cache f1.
Proof.
  destruct instance_init_inv as (f0 & E0 & Hinv0 & _).
  destruct (gets_released_inv mixed_requests f0 Hinv0) as (f & E & Hinv & _).
  { apply room_instance_init; [done|]. vm_compute. done. }
  destruct (nautilus_icon_factory_clear_twice FALSE f Hinv)
    as (f1 & f2 & E1 & _ & _ & E2 & HT).
  exists f, f1, f2. rewrite E0. cbn [mbind option_bind]. done.
Defined.

(** X11.  After calls of [get_icon_from_cache] whose callers have dropped
    their references, however many, nothing dangles and nothing leaks: every
    value of the table is a live entry, every live entry is the fallback
    entry or the value of a node of the table, and the reference count of
    every entry is the number of the nodes that hold it, plus one for the
    fallback entry. *)
Theorem released_gets_leave_no_garbage reqs f :
  inv no_ext f -> room (2 * Z.of_nat (length reqs)) f ->
  exists f',
    gets_released reqs f = Some f' /\
    (forall k v, g_hash_table_lookup (icon_cache f') k = Some v ->
       is_Some (icons f' !! v)) /\
    (forall i, is_Some (icons f' !! i) ->
       i = fallback_icon f' \/ exists k, (k, i) ∈ icon_cache f') /\
    (forall i ic, icons f' !! i = Some ic ->
       ref_count ic = count_refs (icon_cache f') i + fallback_ref f' i).
Proof.
  intros Hinv Hr.
  destruct (gets_released_inv reqs f Hinv Hr) as (f' & E & Hinv' & _).
  exists f'. split; [done|]. split; [|split].
  - intros k v Hl.
    destruct (accounted_lookup_live no_ext f' k v (inv_accounted _ _ Hinv')
                (inv_ext _ _ Hinv') Hl) as [ic ->]. by eexists.
  - intros i [ic Hic].
    pose proof (inv_accounted _ _ Hinv' i) as A. unfold rc_of in A.
    rewrite Hic in A. simpl in A. unfold no_ext in A.
    destruct (decide (i = fallback_icon f')) as [|Hn]; [by left|right].
    unfold fallback_ref in A. rewrite decide_False in A by done.
    apply count_refs_pos_elem_of. lia.
  - intros i ic Hic.
    pose proof (inv_accounted _ _ Hinv' i) as A. unfold rc_of in A.
    rewrite Hic in A. simpl in A. unfold no_ext in A. lia.
Qed.

Lemma released_gets_leave_no_garbage_witness :
  exists f f',
    nautilus_icon_factory_instance_init = Some f /\
    gets_released (numbered_requests theme_env 21) f = Some f' /\
    forall i, is_Some (icons f' !! i) ->
      i = fallback_icon f' \/ exists k, (k, i) ∈ icon_cache f'.
Proof.
  destruct instance_init_inv as (f & E & Hinv & _).
  destruct (released_gets_leave_no_garbage (numbered_requests theme_env 21) f Hinv)
    as (f' & E' & _ & H & _).
  { apply room_instance_init; [done|]. vm_compute. done. }
  by exists f, f'.
Defined.

(** ** The self-check of the list *)

(** X12.  The self-check of the list passes, given fuel for the nodes of the
    list and one more, on every factory whose links draw a list: around the
    circle every [next] is set, the [prev] of the next node leads back, and
    the nodes counted are as many as the counter says. *)
Theorem check_recently_used_list_passes fuel f l :
  ring f l -> (length l < fuel)%nat ->
  check_recently_used_list fuel f = Some tt.
Proof.
  intros Hl Hfuel. unfold check_recently_used_list.
  pose proof (check_from_spec f l Hl l [] fuel eq_refl Hfuel) as H.
  change (check_from fuel Head 0 f = Some (Z.of_nat (length l))) in H.
  rewrite H. cbn [mbind option_bind].
  by rewrite decide_True by (by rewrite (ring_count _ _ Hl)).
Qed.

Lemma check_recently_used_list_passes_witness :
  exists f,
    (f0 ← nautilus_icon_factory_instance_init;
     gets_released (numbered_requests theme_env 21) f0) = Some f /\
    check_recently_used_list 21 f = Some tt.
Proof.
  destruct instance_init_inv as (f0 & E0 & Hinv0 & _).
  destruct (gets_released_inv (numbered_requests theme_env 21) f0 Hinv0)
    as (f & E & Hinv & _).
  { apply room_instance_init; [done|]. vm_compute. done. }
  exists f. rewrite E0. cbn [mbind option_bind]. split; [done|].
  destruct (inv_ring _ _ Hinv) as [l Hl].
  apply (check_recently_used_list_passes 21 f l Hl).
  pose proof (ring_bound _ _ Hl). unfold ICON_CACHE_COUNT in *. lia.
Defined.

(** ** A thumbnail loaded in the background *)

(** X13.  [async_thumbnail_load_func] keeps the invariant, whatever
    references the callers hold.  When the file of the thumbnail is a
    regular file, a new entry with the modification time of the file is the
    value of the key afterwards, and the table holds the one reference to
    it; otherwise the factory is as it was.  The pixbuf of the new entry is
    the image that was passed, with one reference more, when that image has
    alpha.  When it has none, the pixbuf is the framed image: with one
    reference, that of the entry, when the framed image has no alpha
    either, and with two when the framed image has alpha, since the second
    test of the alpha reads the framed image and the reference of the
    function is then never dropped. *)
Theorem async_thumbnail_load_func_keeps_invariant
    env gdk_pixbuf_get_has_alpha nautilus_thumbnail_frame_image path loaded
    modifier nominal_size force_nominal ext f :
  inv ext f ->
  exists f',
    async_thumbnail_load_func env gdk_pixbuf_get_has_alpha
      nautilus_thumbnail_frame_image path loaded modifier nominal_size
      force_nominal f = Some f' /\
    inv ext f' /\
    match stat env path with
    | Some statbuf =>
        if S_ISREG statbuf then
          lookup_icon_from_cache path modifier nominal_size force_nominal f'
            = Some (next_alloc f) /\
          mtime <$> icons f' !! next_alloc f = Some (st_mtime statbuf) /\
          rc_of f' (next_alloc f) = Some (1 + ext (next_alloc f)) /\
          icons f !! next_alloc f = None /\
          pixbuf <$> icons f' !! next_alloc f =
            Some (if gdk_pixbuf_get_has_alpha (pixels loaded)
                  then g_object_ref loaded
                  else {| pixels :=
                            nautilus_thumbnail_frame_image (pixels loaded);
                          g_ref_count :=
                            if gdk_pixbuf_get_has_alpha
                                 (nautilus_thumbnail_frame_image
                                    (pixels loaded))
                            then 2 else 1 |})
        else f' = f
    | None => f' = f
    end.
Proof.
  intros Hinv.
  destruct (async_thumbnail_load_func_spec env gdk_pixbuf_get_has_alpha
              nautilus_thumbnail_frame_image path loaded modifier
              nominal_size force_nominal ext f Hinv)
    as (f' & E & Hinv' & H & _).
  by exists f'.
Qed.

Lemma async_thumbnail_load_func_keeps_invariant_witness :
  exists f f',
    nautilus_icon_factory_instance_init = Some f /\
    async_thumbnail_load_func (file_env 3 true) alpha_of_frames example_frame
      "/home/.thumbnails/a.png" (new_pixbuf 4) None 48 FALSE f = Some f' /\
    lookup_icon_from_cache "/home/.thumbnails/a.png" None 48 FALSE f'
      = Some 1%nat /\
    pixbuf <$> icons f' !! 1%nat = Some {| pixels := 5; g_ref_count := 2 |}.
Proof.
  destruct instance_init_inv as (f & E & Hinv & _ & _ & _ & _ & Hna & _).
  destruct (async_thumbnail_load_func_keeps_invariant (file_env 3 true)
              alpha_of_frames example_frame "/home/.thumbnails/a.png"
              (new_pixbuf 4) None 48 FALSE no_ext f Hinv)
    as (f' & E' & _ & H).
  exists f, f'. split; [done|]. split; [done|].
  change (stat (file_env 3 true) "/home/.thumbnails/a.png")
    with (Some {| S_ISREG := true; st_mtime := 3 |}) in H.
  cbn match in H. cbn [S_ISREG] in H.
  destruct H as (H & _ & _ & _ & Hp). rewrite Hna in H, Hp. done.
Defined.

(** ** The hash of a key *)

Lemma lxor_guint a b :
  0 <= a < 2 ^ 32 -> 0 <= b < 2 ^ 32 -> 0 <= Z.lxor a b < 2 ^ 32.
Proof.
  intros Ha Hb.
  assert (H0 : 0 <= Z.lxor a b) by (apply Z.lxor_nonneg; lia).
  split; [done|].
  destruct (decide (Z.lxor a b = 0)) as [->|Hn]; [lia|].
  apply Z.log2_lt_pow2; [lia|].
  pose proof (Z.log2_lxor a b ltac:(lia) ltac:(lia)) as Hl.
  assert (Z.log2 a < 32).
  { destruct (decide (a = 0)) as [->|]; [simpl; lia|].
    apply Z.log2_lt_pow2; lia. }
  assert (Z.log2 b < 32).
  { destruct (decide (b = 0)) as [->|]; [simpl; lia|].
    apply Z.log2_lt_pow2; lia. }
  lia.
Qed.

(** X14.  The hash of a key is a [guint] whenever the hashes of the strings
    are, whatever the size and the flag of the key. *)
Theorem cache_key_hash_is_a_guint (g_str_hash : string -> Z) key :
  (forall s, 0 <= g_str_hash s < 2 ^ 32) ->
  0 <= cache_key_hash g_str_hash key < 2 ^ 32.
Proof.
  intros Hh. unfold cache_key_hash.
  assert (0 <= Z.lxor (g_str_hash (name key))
             (wrap32 (wrap32 (Z.shiftl (nominal_size key) 4)
                      + wrap32 (force_nominal key))) < 2 ^ 32).
  { apply lxor_guint; [apply Hh|]. unfold wrap32. apply Z.mod_pos_bound. lia. }
  destruct (modifier key); [|done].
  by apply lxor_guint.
Qed.

Lemma cache_key_hash_is_a_guint_witness :
  0 <= cache_key_hash (fun s => Z.of_nat (String.length s) mod 2 ^ 32)
         {| name := "folder"; modifier := Some "accept";
            nominal_size := 2 ^ 32 - 1; force_nominal := -1 |} < 2 ^ 32.
Proof.
  apply cache_key_hash_is_a_guint.
  intros s. apply Z.mod_pos_bound. lia.
Defined.

(** ** The sizes of the icons *)

Ltac sizes :=
  unfold nautilus_icon_factory_get_larger_icon_size,
    nautilus_icon_factory_get_smaller_icon_size,
    nautilus_icon_factory_get_emblem_size_for_icon_size,
    NAUTILUS_ICON_SIZE_SMALLEST, NAUTILUS_ICON_SIZE_SMALLER,
    NAUTILUS_ICON_SIZE_SMALL, NAUTILUS_ICON_SIZE_STANDARD,
    NAUTILUS_ICON_SIZE_LARGE, NAUTILUS_ICON_SIZE_LARGER,
    NAUTILUS_ICON_SIZE_LARGEST in *.

Lemma elem_of_icon_sizes s :
  s ∈ icon_sizes <->
  s = 16 \/ s = 24 \/ s = 32 \/ s = 48 \/ s = 72 \/ s = 96 \/ s = 192.
Proof.
  unfold icon_sizes, zoom_levels. simpl.
  rewrite !elem_of_cons, elem_of_nil. sizes. tauto.
Qed.

(** X15.  [nautilus_icon_factory_get_larger_icon_size] returns the least of
    the seven sizes that is larger than its argument, and the largest size
    when there is none. *)
Theorem larger_icon_size_is_the_next_size size :
  let r := nautilus_icon_factory_get_larger_icon_size size in
  r ∈ icon_sizes /\
  (size < NAUTILUS_ICON_SIZE_LARGEST ->
   size < r /\ forall s, s ∈ icon_sizes -> size < s -> r <= s) /\
  (NAUTILUS_ICON_SIZE_LARGEST <= size -> r = NAUTILUS_ICON_SIZE_LARGEST).
Proof.
  cbv zeta. split; [|split].
  - apply elem_of_icon_sizes. sizes. repeat case_decide; tauto.
  - intros Hlt. split.
    + sizes. repeat case_decide; lia.
    + intros s Hs%elem_of_icon_sizes Hss. sizes. repeat case_decide; lia.
  - intros Hge. sizes. repeat case_decide; lia.
Qed.

Lemma larger_icon_size_is_the_next_size_witness :
  50 < nautilus_icon_factory_get_larger_icon_size 50 /\
  nautilus_icon_factory_get_larger_icon_size 50 <= 96.
Proof.
  destruct (proj1 (proj2 (larger_icon_size_is_the_next_size 50))) as [H1 H2].
  - reflexivity.
  - split; [exact H1|]. apply H2; [|reflexivity].
    apply elem_of_icon_sizes. tauto.
Defined.

(** X16.  [nautilus_icon_factory_get_smaller_icon_size] returns the greatest
    of the seven sizes that is smaller than its argument, and the smallest
    size when there is none. *)
Theorem smaller_icon_size_is_the_previous_size size :
  let r := nautilus_icon_factory_get_smaller_icon_size size in
  r ∈ icon_sizes /\
  (NAUTILUS_ICON_SIZE_SMALLEST < size ->
   r < size /\ forall s, s ∈ icon_sizes -> s < size -> s <= r) /\
  (size <= NAUTILUS_ICON_SIZE_SMALLEST -> r = NAUTILUS_ICON_SIZE_SMALLEST).
Proof.
  cbv zeta. split; [|split].
  - apply elem_of_icon_sizes. sizes. repeat case_decide; tauto.
  - intros Hlt. split.
    + sizes. repeat case_decide; lia.
    + intros s Hs%elem_of_icon_sizes Hss. sizes. repeat case_decide; lia.
  - intros Hge. sizes. repeat case_decide; lia.
Qed.

Lemma smaller_icon_size_is_the_previous_size_witness :
  nautilus_icon_factory_get_smaller_icon_size 50 < 50 /\
  24 <= nautilus_icon_factory_get_smaller_icon_size 50.
Proof.
  destruct (proj1 (proj2 (smaller_icon_size_is_the_previous_size 50))) as [H1 H2].
  - reflexivity.
  - split; [exact H1|]. apply H2; [|reflexivity].
    apply elem_of_icon_sizes. tauto.
Defined.

(** X17.  On the seven sizes the two functions undo each other: the smaller
    size of the larger size of a size below the largest is that size, and
    the larger size of the smaller size of a size above the smallest is that
    size.  Both functions are monotone. *)
Theorem larger_and_smaller_icon_size_are_inverse :
  (forall s, s ∈ icon_sizes -> s <> NAUTILUS_ICON_SIZE_LARGEST ->
     nautilus_icon_factory_get_smaller_icon_size
       (nautilus_icon_factory_get_larger_icon_size s) = s) /\
  (forall s, s ∈ icon_sizes -> s <> NAUTILUS_ICON_SIZE_SMALLEST ->
     nautilus_icon_factory_get_larger_icon_size
       (nautilus_icon_factory_get_smaller_icon_size s) = s) /\
  (forall a b, a <= b ->
     nautilus_icon_factory_get_larger_icon_size a
       <= nautilus_icon_factory_get_larger_icon_size b) /\
  (forall a b, a <= b ->
     nautilus_icon_factory_get_smaller_icon_size a
       <= nautilus_icon_factory_get_smaller_icon_size b).
Proof.
  split; [|split; [|split]].
  - intros s Hs%elem_of_icon_sizes Hn. sizes.
    destruct Hs as [->|[->|[->|[->|[->|[->| ->]]]]]]; done.
  - intros s Hs%elem_of_icon_sizes Hn. sizes.
    destruct Hs as [->|[->|[->|[->|[->|[->| ->]]]]]]; done.
  - intros a b Hab. sizes. repeat case_decide; lia.
  - intros a b Hab. sizes. repeat case_decide; lia.
Qed.

Lemma larger_and_smaller_icon_size_are_inverse_witness :
  nautilus_icon_factory_get_smaller_icon_size
    (nautilus_icon_factory_get_larger_icon_size 48) = 48.
Proof.
  apply (proj1 larger_and_smaller_icon_size_are_inverse); [|discriminate].
  apply elem_of_icon_sizes. tauto.
Defined.

(** X18.  The size of the emblems is monotone in the size of the icon, at
    most half of it, and 0 exactly for icons smaller than 32. *)
Theorem emblem_size_for_icon_size_bounds :
  (forall a b, a <= b ->
     nautilus_icon_factory_get_emblem_size_for_icon_size a
       <= nautilus_icon_factory_get_emblem_size_for_icon_size b) /\
  (forall size, 0 <= size ->
     2 * nautilus_icon_factory_get_emblem_size_for_icon_size size <= size) /\
  (forall size,
     nautilus_icon_factory_get_emblem_size_for_icon_size size = 0 <-> size < 32).
Proof.
  split; [|split].
  - intros a b Hab. sizes. repeat case_decide; lia.
  - intros size Hs. sizes. repeat case_decide; lia.
  - intros size. sizes. repeat case_decide; lia.
Qed.

Lemma emblem_size_for_icon_size_bounds_witness :
  2 * nautilus_icon_factory_get_emblem_size_for_icon_size 72 <= 72.
Proof. apply (proj1 (proj2 emblem_size_for_icon_size_bounds)). lia. Defined.

(** * The locations of a window *)

(** X20.  [handle_go_back] of a navigation window with a location, at a
    distance smaller than the length of the back list: the bookmark at that
    distance leaves the back list, those before it go to the forward list in
    reverse order, after them comes the last location, and nothing else
    changes.  At a distance that is not smaller the assertion fails. *)
Theorem handle_go_back_moves_the_links w location_arg :
  is_navigation_window w = true -> location w <> None ->
  0 <= location_change_distance w ->
  let d := Z.to_nat (location_change_distance w) in
  handle_go_back w location_arg =
    if decide (d < length (back_list w))%nat then
      Some (set_lists (drop (S d) (back_list w))
              (reverse (take d (back_list w))
                 ++ last_location_bookmark w :: forward_list w) w)
    else None.
Proof.
  intros Hnav Hloc Hd d. unfold handle_go_back. rewrite Hnav. simpl.
  destruct (decide (d < length (back_list w))%nat) as [Hlt|Hge].
  - rewrite decide_True by (unfold d in Hlt; lia).
    rewrite decide_True by done. fold d.
    rewrite move_links_spec by lia. cbn [mbind option_bind].
    destruct (lookup_lt_is_Some_2 (back_list w) d Hlt) as [x Hx].
    by rewrite (drop_S _ _ _ Hx).
  - rewrite decide_False by (unfold d in Hge; lia). done.
Qed.

Lemma handle_go_back_moves_the_links_witness :
  handle_go_back
    {| is_navigation_window := true; location := Some "file:///c";
       pending_location := None;
       location_change_type := NAUTILUS_LOCATION_CHANGE_BACK;
       location_change_distance := 1;
       current_location_bookmark := Some (nautilus_bookmark_new "file:///a" "file:///a");
       last_location_bookmark := Some (nautilus_bookmark_new "file:///c" "file:///c");
       back_list := [Some (nautilus_bookmark_new "file:///b" "file:///b");
                     Some (nautilus_bookmark_new "file:///a" "file:///a")];
       forward_list := [] |} "file:///a"
  = Some
    {| is_navigation_window := true; location := Some "file:///c";
       pending_location := None;
       location_change_type := NAUTILUS_LOCATION_CHANGE_BACK;
       location_change_distance := 1;
       current_location_bookmark := Some (nautilus_bookmark_new "file:///a" "file:///a");
       last_location_bookmark := Some (nautilus_bookmark_new "file:///c" "file:///c");
       back_list := [];
       forward_list := [Some (nautilus_bookmark_new "file:///b" "file:///b");
                        Some (nautilus_bookmark_new "file:///c" "file:///c")] |}.
Proof.
  rewrite handle_go_back_moves_the_links; [reflexivity|reflexivity|discriminate|].
  simpl. lia.
Defined.

(** X21.  [handle_go_forward] does the same with the two lists exchanged:
    the bookmark at the distance leaves the forward list, those before it go
    to the back list in reverse order, after them comes the last
    location. *)
Theorem handle_go_forward_moves_the_links w location_arg :
  is_navigation_window w = true -> location w <> None ->
  0 <= location_change_distance w ->
  let d := Z.to_nat (location_change_distance w) in
  handle_go_forward w location_arg =
    if decide (d < length (forward_list w))%nat then
      Some (set_lists
              (reverse (take d (forward_list w))
                 ++ last_location_bookmark w :: back_list w)
              (drop (S d) (forward_list w)) w)
    else None.
Proof.
  intros Hnav Hloc Hd d. unfold handle_go_forward. rewrite Hnav. simpl.
  destruct (decide (d < length (forward_list w))%nat) as [Hlt|Hge].
  - rewrite decide_True by (unfold d in Hlt; lia).
    rewrite decide_True by done. fold d.
    rewrite move_links_spec by lia. cbn [mbind option_bind].
    destruct (lookup_lt_is_Some_2 (forward_list w) d Hlt) as [x Hx].
    by rewrite (drop_S _ _ _ Hx).
  - rewrite decide_False by (unfold d in Hge; lia). done.
Qed.

Lemma handle_go_forward_moves_the_links_witness :
  handle_go_forward
    {| is_navigation_window := true; location := Some "file:///a";
       pending_location := None;
       location_change_type := NAUTILUS_LOCATION_CHANGE_FORWARD;
       location_change_distance := 0;
       current_location_bookmark := Some (nautilus_bookmark_new "file:///b" "file:///b");
       last_location_bookmark := Some (nautilus_bookmark_new "file:///a" "file:///a");
       back_list := [];
       forward_list := [Some (nautilus_bookmark_new "file:///b" "file:///b")] |}
    "file:///b"
  = Some
    {| is_navigation_window := true; location := Some "file:///a";
       pending_location := None;
       location_change_type := NAUTILUS_LOCATION_CHANGE_FORWARD;
       location_change_distance := 0;
       current_location_bookmark := Some (nautilus_bookmark_new "file:///b" "file:///b");
       last_location_bookmark := Some (nautilus_bookmark_new "file:///a" "file:///a");
       back_list := [Some (nautilus_bookmark_new "file:///a" "file:///a")];
       forward_list := [] |}.
Proof.
  rewrite handle_go_forward_moves_the_links; [reflexivity|reflexivity|discriminate|].
  simpl. lia.
Defined.

(** X22.  A navigation back that completes: the distance asked for is cut
    to the length of the back list, the window shows the location of the
    bookmark at that distance, whose bookmark is made anew, and the
    locations of the back list, the one displayed and those of the forward
    list are the same line as before, the window standing further back on
    it.  The location shown before must not match the new one. *)
Theorem back_navigation_keeps_the_timeline
    (gnome_vfs_uris_match : string -> string -> bool) w distance b cur L :
  is_navigation_window w = true ->
  location w = Some L -> current_location_bookmark w = Some cur ->
  bookmark_uri cur = L ->
  0 <= distance ->
  let len := Z.of_nat (length (back_list w)) in
  let d := Z.to_nat (if decide (distance >= len) then len - 1 else distance) in
  back_list w !! d = Some (Some b) ->
  gnome_vfs_uris_match L (bookmark_uri b) = false ->
  exists w1 w2,
    nautilus_navigation_window_back_or_forward w true distance = Some w1 /\
    location_has_really_changed gnome_vfs_uris_match w1 = Some w2 /\
    location w2 = Some (bookmark_uri b) /\
    bookmark_matches w2 /\
    pending_location w2 = None /\
    length (back_list w2) = (length (back_list w) - S d)%nat /\
    timeline w2 = timeline w.
Proof.
  intros Hnav Hloc Hcur Huri Hdist len d Hb Hm.
  pose proof (navigate_back_spec gnome_vfs_uris_match w distance b cur L
                Hnav Hloc Hcur Huri Hdist Hb Hm) as H.
  destruct (nautilus_navigation_window_back_or_forward w true distance)
    as [w1|]; [|done].
  cbn [mbind option_bind] in H. exists w1. eexists. split; [done|].
  split; [exact H|]. cbn. split; [done|]. split; [done|]. split; [done|].
  split; [by rewrite length_drop|].
  unfold timeline. cbn [back_list forward_list location]. rewrite Hloc.
  fold len d.
  pose proof (take_drop_middle (back_list w) d (Some b) Hb) as HB.
  remember (take d (back_list w)) as P. remember (drop (S d) (back_list w)) as Q.
  rewrite <- HB. unfold uris.
  rewrite !fmap_app, !fmap_cons, !fmap_reverse, !reverse_app, !reverse_cons.
  cbn [fmap option_fmap option_map]. rewrite Huri, <- !app_assoc. done.
Qed.

Lemma back_navigation_keeps_the_timeline_witness :
  exists w1 w2,
    nautilus_navigation_window_back_or_forward
      {| is_navigation_window := true; location := Some "file:///c";
         pending_location := None;
         location_change_type := NAUTILUS_LOCATION_CHANGE_STANDARD;
         location_change_distance := 0;
         current_location_bookmark :=
           Some (nautilus_bookmark_new "file:///c" "file:///c");
         last_location_bookmark :=
           Some (nautilus_bookmark_new "file:///b" "file:///b");
         back_list := [Some (nautilus_bookmark_new "file:///b" "file:///b");
                       Some (nautilus_bookmark_new "file:///a" "file:///a")];
         forward_list := [] |} true 7 = Some w1 /\
    location_has_really_changed String.eqb w1 = Some w2 /\
    location w2 = Some "file:///a" /\
    timeline w2 = [Some "file:///a"; Some "file:///b"; Some "file:///c"].
Proof.
  edestruct (back_navigation_keeps_the_timeline String.eqb
    {| is_navigation_window := true; location := Some "file:///c";
       pending_location := None;
       location_change_type := NAUTILUS_LOCATION_CHANGE_STANDARD;
       location_change_distance := 0;
       current_location_bookmark :=
         Some (nautilus_bookmark_new "file:///c" "file:///c");
       last_location_bookmark :=
         Some (nautilus_bookmark_new "file:///b" "file:///b");
       back_list := [Some (nautilus_bookmark_new "file:///b" "file:///b");
                     Some (nautilus_bookmark_new "file:///a" "file:///a")];
       forward_list := [] |} 7)
    as (w1 & w2 & E1 & E2 & Hl & _ & _ & _ & Ht);
    [reflexivity | reflexivity | reflexivity | reflexivity | lia
    | reflexivity | reflexivity |].
  exists w1, w2. split; [exact E1|]. split; [exact E2|].
  split; [exact Hl|]. rewrite Ht. reflexivity.
Defined.

(** X23.  Back and then forward by the same distance, both completed: the
    window shows the location it showed, and the back list and the forward
    list hold the locations they held.  The two locations must not match. *)
Theorem back_then_forward_is_a_round_trip
    (gnome_vfs_uris_match : string -> string -> bool) w distance b cur L :
  is_navigation_window w = true ->
  location w = Some L -> current_location_bookmark w = Some cur ->
  bookmark_uri cur = L ->
  0 <= distance ->
  let len := Z.of_nat (length (back_list w)) in
  let d := Z.to_nat (if decide (distance >= len) then len - 1 else distance) in
  back_list w !! d = Some (Some b) ->
  gnome_vfs_uris_match L (bookmark_uri b) = false ->
  gnome_vfs_uris_match (bookmark_uri b) L = false ->
  exists w1 w2 w3 w4,
    nautilus_navigation_window_back_or_forward w true distance = Some w1 /\
    location_has_really_changed gnome_vfs_uris_match w1 = Some w2 /\
    nautilus_navigation_window_back_or_forward w2 false (Z.of_nat d) = Some w3 /\
    location_has_really_changed gnome_vfs_uris_match w3 = Some w4 /\
    location w4 = location w /\
    uris (back_list w4) = uris (back_list w) /\
    forward_list w4 = forward_list w /\
    bookmark_matches w4.
Proof.
  intros Hnav Hloc Hcur Huri Hdist len d Hb Hm Hm'.
  pose proof (navigate_back_spec gnome_vfs_uris_match w distance b cur L
                Hnav Hloc Hcur Huri Hdist Hb Hm) as H.
  destruct (nautilus_navigation_window_back_or_forward w true distance)
    as [w1|]; [|done].
  cbn [mbind option_bind] in H. fold len d in H.
  assert (Hlt : (d < length (back_list w))%nat) by (by apply lookup_lt_Some in Hb).
  assert (Hlen : length (reverse (take d (back_list w))) = d).
  { rewrite length_reverse, length_take. lia. }
  match type of H with _ = Some ?w2' => set (w2 := w2') in * end.
  assert (Hidx : (if decide (Z.of_nat d >= Z.of_nat (length (forward_list w2)))
                  then Z.of_nat (length (forward_list w2)) - 1 else Z.of_nat d)
                 = Z.of_nat d).
  { rewrite decide_False; [done|]. unfold w2. cbn.
    rewrite length_app, Hlen. simpl. lia. }
  pose proof (navigate_forward_spec gnome_vfs_uris_match w2 (Z.of_nat d) cur
                (nautilus_bookmark_new (bookmark_uri b) (bookmark_uri b))
                (bookmark_uri b) eq_refl eq_refl eq_refl eq_refl
                ltac:(lia)) as H'.
  cbv zeta in H'. rewrite Hidx, Nat2Z.id in H'.
  specialize (H' ltac:(unfold w2; cbn;
                        by rewrite lookup_app_r, Hlen, Nat.sub_diag by lia)).
  rewrite Huri in H'. specialize (H' Hm').
  destruct (nautilus_navigation_window_back_or_forward w2 false (Z.of_nat d))
    as [w3|] eqn:E3; [|done].
  cbn [mbind option_bind] in H'.
  exists w1, w2, w3. eexists. split; [done|]. split; [exact H|].
  split; [done|]. split; [exact H'|].
  unfold bookmark_matches, w2.
  cbn [location back_list forward_list current_location_bookmark].
  assert (Htake : take d (reverse (take d (back_list w)) ++ Some cur :: forward_list w)
                  = reverse (take d (back_list w)))
    by (by apply take_app_length').
  assert (Hdrop : drop (S d) (reverse (take d (back_list w)) ++ Some cur :: forward_list w)
                  = forward_list w).
  { replace (S d) with (length (reverse (take d (back_list w))) + 1)%nat by lia.
    by rewrite <- drop_drop, drop_app_length. }
  rewrite Htake, Hdrop, reverse_involutive.
  split; [done|]. split; [|split; [done|]].
  - pose proof (take_drop_middle (back_list w) d (Some b) Hb) as HB.
    remember (take d (back_list w)) as P.
    remember (drop (S d) (back_list w)) as Q.
    rewrite <- HB. unfold uris. by rewrite !fmap_app, !fmap_cons.
  - done.
Qed.

Lemma back_then_forward_is_a_round_trip_witness :
  exists w1 w2 w3 w4,
    nautilus_navigation_window_back_or_forward
      {| is_navigation_window := true; location := Some "file:///c";
         pending_location := None;
         location_change_type := NAUTILUS_LOCATION_CHANGE_STANDARD;
         location_change_distance := 0;
         current_location_bookmark :=
           Some (nautilus_bookmark_new "file:///c" "file:///c");
         last_location_bookmark :=
           Some (nautilus_bookmark_new "file:///b" "file:///b");
         back_list := [Some (nautilus_bookmark_new "file:///b" "file:///b");
                       Some (nautilus_bookmark_new "file:///a" "file:///a")];
         forward_list := [] |} true 1 = Some w1 /\
    location_has_really_changed String.eqb w1 = Some w2 /\
    nautilus_navigation_window_back_or_forward w2 false 1 = Some w3 /\
    location_has_really_changed String.eqb w3 = Some w4 /\
    location w4 = Some "file:///c" /\
    uris (back_list w4) = [Some "file:///b"; Some "file:///a"].
Proof.
  edestruct (back_then_forward_is_a_round_trip String.eqb
    {| is_navigation_window := true; location := Some "file:///c";
       pending_location := None;
       location_change_type := NAUTILUS_LOCATION_CHANGE_STANDARD;
       location_change_distance := 0;
       current_location_bookmark :=
         Some (nautilus_bookmark_new "file:///c" "file:///c");
       last_location_bookmark :=
         Some (nautilus_bookmark_new "file:///b" "file:///b");
       back_list := [Some (nautilus_bookmark_new "file:///b" "file:///b");
                     Some (nautilus_bookmark_new "file:///a" "file:///a")];
       forward_list := [] |} 1)
    as (w1 & w2 & w3 & w4 & E1 & E2 & E3 & E4 & Hl & Hb & _);
    [reflexivity | reflexivity | reflexivity | reflexivity | lia
    | reflexivity | reflexivity | reflexivity |].
  exists w1, w2, w3, w4. split; [exact E1|]. split; [exact E2|].
  split; [exact E3|]. split; [exact E4|]. split; [exact Hl|]. exact Hb.
Defined.

(** X24.  A change to a location chosen freely, once completed: the forward
    list is empty and the window shows the new location.  When the location
    shown before does not match the new one, its bookmark goes to the front
    of the back list and a bookmark is made for the new location; when it
    matches, the back list and the bookmarks are as they were. *)
Theorem standard_navigation_pushes_the_location
    (gnome_vfs_uris_match : string -> string -> bool) w new_location cur L :
  is_navigation_window w = true ->
  location w = Some L -> current_location_bookmark w = Some cur ->
  bookmark_uri cur = L ->
  exists w1 w2,
    begin_location_change w (Some new_location)
      NAUTILUS_LOCATION_CHANGE_STANDARD 0 = Some w1 /\
    location_has_really_changed gnome_vfs_uris_match w1 = Some w2 /\
    location w2 = Some new_location /\
    pending_location w2 = None /\
    forward_list w2 = [] /\
    if gnome_vfs_uris_match L new_location then
      back_list w2 = back_list w /\
      current_location_bookmark w2 = Some cur /\
      last_location_bookmark w2 = last_location_bookmark w
    else
      back_list w2 = Some cur :: back_list w /\
      current_location_bookmark w2
        = Some (nautilus_bookmark_new new_location new_location) /\
      last_location_bookmark w2 = Some cur.
Proof.
  intros Hnav Hloc Hcur Huri.
  destruct (gnome_vfs_uris_match L new_location) eqn:Hm;
    (eexists _, _; split; [reflexivity|];
     unfold location_has_really_changed; cbn [pending_location set_pending];
     rewrite decide_True by done;
     unfold update_for_new_location;
     cbn [pending_location set_pending mbind option_bind];
     unfold set_displayed_location;
     cbn [current_location_bookmark set_pending free_location_change];
     rewrite Hcur, Huri, Hm; cbn [negb];
     cbn [location_change_type set_pending set_bookmarks update_history mbind
          option_bind];
     unfold handle_go_elsewhere, free_location_change, set_pending, set_lists,
       set_bookmarks;
     cbn; rewrite Hnav, Hloc, Hm; cbn; split; [reflexivity|]; cbn; done).
Qed.

Lemma standard_navigation_pushes_the_location_witness :
  exists w1 w2,
    begin_location_change
      {| is_navigation_window := true; location := Some "file:///a";
         pending_location := None;
         location_change_type := NAUTILUS_LOCATION_CHANGE_STANDARD;
         location_change_distance := 0;
         current_location_bookmark :=
           Some (nautilus_bookmark_new "file:///a" "file:///a");
         last_location_bookmark := None;
         back_list := [];
         forward_list := [Some (nautilus_bookmark_new "file:///z" "file:///z")] |}
      (Some "file:///b") NAUTILUS_LOCATION_CHANGE_STANDARD 0 = Some w1 /\
    location_has_really_changed String.eqb w1 = Some w2 /\
    back_list w2 = [Some (nautilus_bookmark_new "file:///a" "file:///a")] /\
    forward_list w2 = [].
Proof.
  edestruct (standard_navigation_pushes_the_location String.eqb
      {| is_navigation_window := true; location := Some "file:///a";
         pending_location := None;
         location_change_type := NAUTILUS_LOCATION_CHANGE_STANDARD;
         location_change_distance := 0;
         current_location_bookmark :=
           Some (nautilus_bookmark_new "file:///a" "file:///a");
         last_location_bookmark := None;
         back_list := [];
         forward_list := [Some (nautilus_bookmark_new "file:///z" "file:///z")] |}
      "file:///b")
    as (w1 & w2 & E1 & E2 & _ & _ & Hf & H);
    [reflexivity | reflexivity | reflexivity | reflexivity |].
  exists w1, w2. split; [exact E1|]. split; [exact E2|].
  change (String.eqb "file:///a" "file:///b") with false in H.
  destruct H as (Hb & _). split; [exact Hb|exact Hf].
Defined.

(** X25.  A reload, once completed, leaves the location, the two bookmarks
    and the two lists as they were, provided the location matches itself. *)
Theorem reload_keeps_the_history
    (gnome_vfs_uris_match : string -> string -> bool) w cur L :
  location w = Some L -> current_location_bookmark w = Some cur ->
  bookmark_uri cur = L ->
  gnome_vfs_uris_match L L = true ->
  exists w1 w2,
    nautilus_window_reload w = Some w1 /\
    location_has_really_changed gnome_vfs_uris_match w1 = Some w2 /\
    location w2 = location w /\
    pending_location w2 = None /\
    current_location_bookmark w2 = current_location_bookmark w /\
    last_location_bookmark w2 = last_location_bookmark w /\
    back_list w2 = back_list w /\ forward_list w2 = forward_list w.
Proof.
  intros Hloc Hcur Huri Hm.
  unfold nautilus_window_reload. rewrite Hloc.
  eexists _, _. split; [reflexivity|].
  unfold location_has_really_changed. cbn [pending_location set_pending].
  rewrite decide_True by done.
  unfold update_for_new_location.
  cbn [pending_location set_pending mbind option_bind].
  unfold set_displayed_location.
  cbn [current_location_bookmark set_pending free_location_change].
  rewrite Hcur, Huri, Hm. cbn [negb].
  cbn [location_change_type set_pending update_history mbind option_bind].
  split; [reflexivity|]. cbn. done.
Qed.

Lemma reload_keeps_the_history_witness :
  exists w1 w2,
    nautilus_window_reload
      {| is_navigation_window := true; location := Some "file:///a";
         pending_location := None;
         location_change_type := NAUTILUS_LOCATION_CHANGE_STANDARD;
         location_change_distance := 0;
         current_location_bookmark :=
           Some (nautilus_bookmark_new "file:///a" "file:///a");
         last_location_bookmark := None;
         back_list := [Some (nautilus_bookmark_new "file:///b" "file:///b")];
         forward_list := [] |} = Some w1 /\
    location_has_really_changed String.eqb w1 = Some w2 /\
    back_list w2 = [Some (nautilus_bookmark_new "file:///b" "file:///b")].
Proof.
  edestruct (reload_keeps_the_history String.eqb
      {| is_navigation_window := true; location := Some "file:///a";
         pending_location := None;
         location_change_type := NAUTILUS_LOCATION_CHANGE_STANDARD;
         location_change_distance := 0;
         current_location_bookmark :=
           Some (nautilus_bookmark_new "file:///a" "file:///a");
         last_location_bookmark := None;
         back_list := [Some (nautilus_bookmark_new "file:///b" "file:///b")];
         forward_list := [] |})
    as (w1 & w2 & E1 & E2 & _ & _ & _ & _ & Hb & _);
    [reflexivity | reflexivity | reflexivity | reflexivity |].
  exists w1, w2. split; [exact E1|]. split; [exact E2|]. exact Hb.
Defined.

(** X26.  [nautilus_navigation_window_back_or_forward] never begins a change
    at a distance outside the list: with an empty list it does nothing, and
    otherwise the distance it passes on is smaller than the length of the
    list, so that the assertion of [handle_go_back] and of
    [handle_go_forward] on the distance holds when the change completes. *)
Theorem back_or_forward_cuts_the_distance w back distance w1 :
  0 <= distance ->
  nautilus_navigation_window_back_or_forward w back distance = Some w1 ->
  let glist := if back then back_list w else forward_list w in
  if decide (glist = []) then w1 = w
  else
    0 <= location_change_distance w1 < Z.of_nat (length glist) /\
    location_change_distance w1
      = Z.min distance (Z.of_nat (length glist) - 1) /\
    back_list w1 = back_list w /\ forward_list w1 = forward_list w /\
    exists b,
      glist !! Z.to_nat (location_change_distance w1) = Some (Some b) /\
      pending_location w1 = Some (bookmark_uri b).
Proof.
  intros Hd E glist. unfold nautilus_navigation_window_back_or_forward in E.
  fold glist in E.
  destruct (decide (glist = [])) as [Hnil|Hne].
  - rewrite Hnil in E. simpl in E. congruence.
  - assert (Hlen : Z.of_nat (length glist) <> 0) by (destruct glist; [done|simpl; lia]).
    rewrite decide_False in E by done.
    set (d := if decide (distance >= Z.of_nat (length glist))
              then Z.of_nat (length glist) - 1 else distance) in *.
    assert (Hdr : 0 <= d < Z.of_nat (length glist)) by (unfold d; case_decide; lia).
    destruct (glist !! Z.to_nat d) as [[b|]|] eqn:Hb; simpl in E; try done.
    unfold begin_location_change in E. cbn [mbind option_bind] in E.
    rewrite decide_True in E by (destruct back; tauto).
    injection E as <-. cbn.
    split; [done|]. split; [unfold d; case_decide; lia|].
    split; [done|]. split; [done|]. by exists b.
Qed.

Lemma back_or_forward_cuts_the_distance_witness :
  exists w1,
    nautilus_navigation_window_back_or_forward
      {| is_navigation_window := true; location := Some "file:///c";
         pending_location := None;
         location_change_type := NAUTILUS_LOCATION_CHANGE_STANDARD;
         location_change_distance := 0;
         current_location_bookmark :=
           Some (nautilus_bookmark_new "file:///c" "file:///c");
         last_location_bookmark := None;
         back_list := [Some (nautilus_bookmark_new "file:///b" "file:///b");
                       Some (nautilus_bookmark_new "file:///a" "file:///a")];
         forward_list := [] |} true 4294967295 = Some w1 /\
    location_change_distance w1 = 1.
Proof.
  eexists. split; [reflexivity|].
  pose proof (back_or_forward_cuts_the_distance
      {| is_navigation_window := true; location := Some "file:///c";
         pending_location := None;
         location_change_type := NAUTILUS_LOCATION_CHANGE_STANDARD;
         location_change_distance := 0;
         current_location_bookmark :=
           Some (nautilus_bookmark_new "file:///c" "file:///c");
         last_location_bookmark := None;
         back_list := [Some (nautilus_bookmark_new "file:///b" "file:///b");
                       Some (nautilus_bookmark_new "file:///a" "file:///a")];
         forward_list := [] |} true 4294967295 _ ltac:(lia) eq_refl) as H.
  cbv zeta in H. exact (proj1 (proj2 H)).
Defined.

(** * The factory as a whole *)

Lemma run_call_inv c f n :
  inv no_ext f -> 0 <= n -> room (n + 2) f ->
  exists f', run_call c f = Some f' /\ inv no_ext f' /\
    fallback_icon f' = fallback_icon f /\ room n f'.
Proof.
  intros Hinv Hn Hr.
  assert (Hr2 : room 2 f) by (apply (room_le _ _ _ Hr); lia).
  assert (Hrn : room n f) by (apply (room_le _ _ _ Hr); lia).
  destruct c as [env icon m s fs wd|sv icon m s| |cp
                |env alpha frame path loaded m s fn];
    cbn [run_call].
  - destruct (get_pixbuf_for_icon_spec env icon m s fs wd f Hinv Hr2)
      as (f1 & c & f' & r & _ & E & Hinv' & _ & _ & Hfb & Hroom).
    exists f'. rewrite E. split; [done|]. split; [done|]. split; [done|].
    by apply Hroom.
  - unfold nautilus_icon_factory_remove_from_cache. cbn [mbind option_bind].
    destruct (g_hash_table_remove_inv no_ext f
                {| name := icon; modifier := m; nominal_size := s;
                   force_nominal := sv |} Hinv)
      as (f' & removed & E & Hinv' & _ & _ & Hfb & _ & _ & _ & Hshrink).
    exists f'. rewrite E. split; [done|]. split; [done|]. split; [done|].
    by apply (room_shrinks n f).
  - destruct (nautilus_icon_factory_sweep_inv no_ext f Hinv)
      as (f' & E & Hinv' & _ & _ & _ & Hfb & _ & _ & Hshrink).
    exists f'. split; [done|]. split; [done|]. split; [done|].
    by apply (room_shrinks n f).
  - destruct (nautilus_icon_factory_clear_inv cp f Hinv)
      as (f' & E & Hinv' & _ & Hfb & _ & _ & Hshrink).
    exists f'. split; [done|]. split; [done|]. split; [done|].
    by apply (room_shrinks n f).
  - destruct (async_thumbnail_load_func_spec env alpha frame path loaded m s fn
                no_ext f Hinv)
      as (f' & E & Hinv' & _ & Hfb & Hroom).
    exists f'. split; [done|]. split; [done|]. split; [done|].
    by apply Hroom.
Qed.

(** X27.  The calls that reach the factory from outside, in any order and
    number, all return: no assertion fails and no freed entry is read, as
    long as no reference count comes near the largest [guint].  Afterwards
    the factory satisfies the invariant with no reference held by a caller,
    the fallback entry is the same and live, and the self-check of the list
    passes. *)
Theorem factory_calls_never_abort cs f :
  inv no_ext f -> room (2 * Z.of_nat (length cs)) f ->
  exists f',
    run_calls cs f = Some f' /\ inv no_ext f' /\
    fallback_icon f' = fallback_icon f /\
    is_Some (icons f' !! fallback_icon f) /\
    check_recently_used_list 21 f' = Some tt.
Proof.
  intros Hinv Hr.
  assert (exists f', run_calls cs f = Some f' /\ inv no_ext f' /\
            fallback_icon f' = fallback_icon f) as (f' & E & Hinv' & Hfb).
  { revert f Hinv Hr. induction cs as [|c cs IH]; intros f Hinv Hr.
    - by exists f.
    - destruct (run_call_inv c f (2 * Z.of_nat (length cs)) Hinv)
        as (f1 & E1 & Hinv1 & Hfb1 & Hr1); [lia| |].
      { apply (room_le _ _ _ Hr). simpl length. lia. }
      destruct (IH f1 Hinv1 Hr1) as (f' & E' & Hinv' & Hfb').
      exists f'. cbn [run_calls]. rewrite E1. cbn [mbind option_bind].
      split; [done|]. split; [done|]. congruence. }
  exists f'. split; [done|]. split; [done|]. split; [done|]. split.
  - rewrite <- Hfb. apply rc_of_is_Some.
    destruct (fallback_live _ _ Hinv') as (rc & -> & _). by eexists.
  - destruct (inv_ring _ _ Hinv') as [l Hl].
    apply (check_recently_used_list_ok 21 f' l Hl).
    pose proof (ring_bound _ _ Hl). unfold ICON_CACHE_COUNT in *. lia.
Qed.

Lemma factory_calls_never_abort_witness :
  exists f f',
    nautilus_icon_factory_instance_init = Some f /\
    run_calls example_calls f = Some f' /\
    icon_cache f' = [] /\
    check_recently_used_list 21 f' = Some tt.
Proof.
  destruct instance_init_inv as (f & E & Hinv & _).
  destruct (factory_calls_never_abort example_calls f Hinv)
    as (f' & E' & _ & _ & _ & Hcheck).
  { apply room_instance_init; [done|]. vm_compute. done. }
  exists f, f'. split; [done|]. split; [done|]. split; [|done].
  vm_compute in E. injection E as <-.
  vm_compute in E'. injection E' as <-. reflexivity.
Defined.

(** X28.  [create_normal_cache_icon] always returns.  Its result is NULL,
    and the factory unchanged, when no image can be made; an absolute
    filename that is no regular file is such a case.  Otherwise the result
    is a new entry at an address not in use before, with one reference, age
    0, a pixbuf that the entry alone holds and a node outside the list; the
    table, the list and the other entries are as they were. *)
Theorem create_normal_cache_icon_allocates
    env icon modifier nominal_size force_nominal ext f :
  inv ext f ->
  exists f' r,
    create_normal_cache_icon env icon modifier nominal_size force_nominal f
      = Some (f', r) /\
    (r = None -> f' = f) /\
    (first_char_is_slash icon = true ->
     (forall statbuf, stat env icon = Some statbuf -> S_ISREG statbuf = false) ->
     r = None) /\
    (forall c, r = Some c ->
       c = next_alloc f /\ icons f !! c = None /\
       next_alloc f' = S c /\
       icon_cache f' = icon_cache f /\
       recently_used_count f' = recently_used_count f /\
       (forall j, j <> c -> icons f' !! j = icons f !! j) /\
       exists ic, icons f' !! c = Some ic /\
         ref_count ic = 1 /\ age ic = 0 /\ g_ref_count (pixbuf ic) = 1 /\
         recently_used_node ic = {| next := None; prev := None |}).
Proof.
  intros Hinv. rewrite create_normal_cache_icon_eq.
  destruct (synthesized env icon modifier nominal_size force_nominal)
    as [ic|] eqn:Hs.
  - eexists _, _. split; [reflexivity|]. split; [done|]. split.
    + intros Hslash Hreg. unfold synthesized in Hs. rewrite Hslash in Hs.
      destruct (stat env icon) as [sb|]; [|done]. simpl in Hs.
      by rewrite (Hreg sb eq_refl) in Hs.
    + intros c [= <-]. split; [done|]. split.
      { destruct (icons f !! next_alloc f) eqn:E; [|done].
        assert (next_alloc f < next_alloc f)%nat
          by (apply (inv_alloc _ _ Hinv); by eexists).
        lia. }
      split; [done|]. split; [done|]. split; [done|]. split.
      { intros j Hj. unfold with_new_entry. simpl.
        by rewrite lookup_insert_ne. }
      exists ic. split.
      { unfold with_new_entry. simpl. apply lookup_insert_eq. }
      destruct (synthesized_fields _ _ _ _ _ _ Hs) as (? & ? & ? & ?). done.
  - exists f, None. split; [done|]. done.
Qed.

Lemma create_normal_cache_icon_allocates_witness :
  exists f f',
    nautilus_icon_factory_instance_init = Some f /\
    create_normal_cache_icon theme_env "folder" None 48 FALSE f
      = Some (f', Some 1%nat) /\
    rc_of f' 1%nat = Some 1.
Proof.
  destruct instance_init_inv as (f & E & Hinv & _ & _ & _ & _ & Hna & _).
  destruct (create_normal_cache_icon_allocates theme_env "folder" None 48 FALSE
              no_ext f Hinv) as (f' & r & E' & _ & _ & H).
  exists f, f'. split; [done|].
  assert (r = Some 1%nat) as ->.
  { vm_compute in E. injection E as <-.
    vm_compute in E'. by injection E' as _ <-. }
  split; [done|].
  destruct (H 1%nat eq_refl) as (_ & _ & _ & _ & _ & _ & ic & Hic & Hrc & _).
  unfold rc_of. by rewrite Hic, <- Hrc.
Defined.

(** X29.  The sweep leaves alone every entry whose pixbuf has another holder
    than the cache, whether the entry is in the recently-used list or not:
    its node stays in the table and the entry stays live. *)
Theorem sweep_keeps_entries_in_use ext f key v ic :
  inv ext f ->
  (key, v) ∈ icon_cache f ->
  icons f !! v = Some ic ->
  g_ref_count (pixbuf ic) > 1 ->
  exists f' ic',
    nautilus_icon_factory_sweep f = Some f' /\
    g_hash_table_lookup (icon_cache f') key = Some v /\
    icons f' !! v = Some ic' /\ pixbuf ic' = pixbuf ic.
Proof.
  intros Hinv Hin Hic Hpix.
  destruct (nautilus_icon_factory_sweep_inv ext f Hinv)
    as (f' & E & Hinv' & HT & _ & Hd & _).
  assert (Hev : evictable f v = false).
  { unfold evictable. rewrite Hic.
    rewrite (bool_decide_eq_false_2 (g_ref_count (pixbuf ic) <= 1)) by lia.
    apply andb_false_r. }
  assert (Hin' : (key, v) ∈ icon_cache f').
  { rewrite HT. apply list_elem_of_filter. done. }
  assert (is_Some (icons f' !! v)) as [ic' Hic'].
  { apply rc_of_is_Some.
    apply (accounted_for_live _ _ _ _ (inv_accounted _ _ Hinv')).
    pose proof (count_refs_elem_of _ _ _ Hin').
    pose proof (fallback_ref_nonneg f' v). pose proof (inv_ext _ _ Hinv' v). lia. }
  exists f', ic'. split; [done|].
  split; [apply (lookup_of_elem_of _ _ _ (inv_keys _ _ Hinv') Hin')|].
  split; [done|].
  destruct (Hd v ic' Hic') as (ic0 & Hic0 & Hp & _). congruence.
Qed.

(** A caller keeps the pixbuf of the first of twenty-one icons: that entry
    has left the list, and the sweep keeps it. *)
Lemma sweep_keeps_entries_in_use_witness :
  exists f f',
    (f0 ← nautilus_icon_factory_instance_init;
     f1 ← run_call
            (call_get_pixbuf_for_icon theme_env "icon-A" None 48 FALSE TRUE) f0;
     gets_released (numbered_requests theme_env 21) f1) = Some f /\
    nautilus_icon_factory_sweep f = Some f' /\
    next <$> (recently_used_node <$> icons f !! 1%nat) = Some None /\
    g_hash_table_lookup (icon_cache f')
      (req_key (numbered_request theme_env 0)) = Some 1%nat.
Proof.
  destruct instance_init_inv as (f0 & E0 & Hinv0 & _).
  destruct (run_call_inv
              (call_get_pixbuf_for_icon theme_env "icon-A" None 48 FALSE TRUE)
              f0 100 Hinv0) as (f1 & E1 & Hinv1 & _ & Hr1); [lia| |].
  { apply room_instance_init; [done|]. vm_compute. done. }
  destruct (gets_released_inv (numbered_requests theme_env 21) f1 Hinv1)
    as (f & E & Hinv & _).
  { apply (room_le _ _ _ Hr1). vm_compute. discriminate. }
  exists f. rewrite E0. cbn [mbind option_bind]. rewrite E1.
  cbn [mbind option_bind]. rewrite E.
  vm_compute in E0. injection E0 as <-.
  vm_compute in E1. injection E1 as <-.
  vm_compute in E. injection E as <-.
  pose proof (fun ic => sweep_keeps_entries_in_use no_ext _
                (req_key (numbered_request theme_env 0)) 1%nat ic Hinv) as H.
  edestruct H as (f' & ic' & E' & Hlook & _).
  - apply (bool_decide_unpack _). vm_compute. exact I.
  - vm_compute. reflexivity.
  - vm_compute. reflexivity.
  - exists f'. split; [done|]. split; [done|]. split; [|done].
    vm_compute. reflexivity.
Defined.

(** X30.  A navigation back to a location that matches the one displayed,
    once completed: the bookmarks of the window stay as they are, and the
    bookmark that goes to the forward list after those that were passed is
    the last-location bookmark, whatever it is, not the bookmark of the
    location that was displayed. *)
Theorem back_navigation_to_a_matching_location
    (gnome_vfs_uris_match : string -> string -> bool) w distance b cur L :
  is_navigation_window w = true ->
  location w = Some L -> current_location_bookmark w = Some cur ->
  bookmark_uri cur = L ->
  0 <= distance ->
  let len := Z.of_nat (length (back_list w)) in
  let d := Z.to_nat (if decide (distance >= len) then len - 1 else distance) in
  back_list w !! d = Some (Some b) ->
  gnome_vfs_uris_match L (bookmark_uri b) = true ->
  exists w1 w2,
    nautilus_navigation_window_back_or_forward w true distance = Some w1 /\
    location_has_really_changed gnome_vfs_uris_match w1 = Some w2 /\
    location w2 = Some (bookmark_uri b) /\
    current_location_bookmark w2 = Some cur /\
    last_location_bookmark w2 = last_location_bookmark w /\
    back_list w2 = drop (S d) (back_list w) /\
    forward_list w2 =
      reverse (take d (back_list w))
        ++ last_location_bookmark w :: forward_list w.
Proof.
  intros Hnav Hloc Hcur Huri Hdist len d Hb Hm.
  assert (Hlt : (d < length (back_list w))%nat) by (by apply lookup_lt_Some in Hb).
  assert (Hd : (if decide (distance >= len) then len - 1 else distance)
               = Z.of_nat d).
  { unfold d. rewrite Z2Nat.id; [done|]. case_decide; unfold len; lia. }
  unfold nautilus_navigation_window_back_or_forward.
  fold len. rewrite decide_False by (unfold len; lia).
  fold d. rewrite Hb. simpl mjoin. cbn [fmap option_fmap option_map].
  unfold begin_location_change. cbn [mbind option_bind].
  rewrite decide_True by (by left). cbn [mbind option_bind].
  rewrite Hd. eexists _, _. split; [reflexivity|].
  unfold location_has_really_changed. cbn [pending_location set_pending].
  rewrite decide_True by done.
  unfold update_for_new_location.
  cbn [pending_location set_pending mbind option_bind].
  unfold set_displayed_location.
  cbn [current_location_bookmark set_pending free_location_change].
  rewrite Hcur, Huri, Hm. cbn [negb].
  cbn [location_change_type set_pending].
  cbn [update_history].
  rewrite handle_go_back_eq; cbn; try done; [|by rewrite Hloc|lia].
  rewrite Nat2Z.id. rewrite decide_True by done.
  cbn [mbind option_bind]. split; [reflexivity|]. cbn. done.
Qed.

Lemma back_navigation_to_a_matching_location_witness :
  exists w1 w2,
    nautilus_navigation_window_back_or_forward
      {| is_navigation_window := true; location := Some "file:///a";
         pending_location := None;
         location_change_type := NAUTILUS_LOCATION_CHANGE_STANDARD;
         location_change_distance := 0;
         current_location_bookmark :=
           Some (nautilus_bookmark_new "file:///a" "file:///a");
         last_location_bookmark :=
           Some (nautilus_bookmark_new "file:///b" "file:///b");
         back_list := [Some (nautilus_bookmark_new "file:///b" "file:///b");
                       Some (nautilus_bookmark_new "file:///a" "file:///a")];
         forward_list := [] |} true 1 = Some w1 /\
    location_has_really_changed String.eqb w1 = Some w2 /\
    forward_list w2 =
      [Some (nautilus_bookmark_new "file:///b" "file:///b");
       Some (nautilus_bookmark_new "file:///b" "file:///b")].
Proof.
  edestruct (back_navigation_to_a_matching_location String.eqb
      {| is_navigation_window := true; location := Some "file:///a";
         pending_location := None;
         location_change_type := NAUTILUS_LOCATION_CHANGE_STANDARD;
         location_change_distance := 0;
         current_location_bookmark :=
           Some (nautilus_bookmark_new "file:///a" "file:///a");
         last_location_bookmark :=
           Some (nautilus_bookmark_new "file:///b" "file:///b");
         back_list := [Some (nautilus_bookmark_new "file:///b" "file:///b");
                       Some (nautilus_bookmark_new "file:///a" "file:///a")];
         forward_list := [] |} 1)
    as (w1 & w2 & E1 & E2 & _ & _ & _ & _ & Hf);
    [reflexivity | reflexivity | reflexivity | reflexivity | lia
    | reflexivity | reflexivity |].
  exists w1, w2. split; [exact E1|]. split; [exact E2|]. exact Hf.
Defined.
